(** * Fat-tree topology builder, link-failure model and path analysis

    A shallow embedding of [Task1.py]: the k-ary fat-tree builder
    ([calculate_fat_tree_params], [build_fat_tree]), the random link-failure
    model ([model_link_failures]), the path analysis
    ([calculate_avg_path_length]) and the experiment driver
    ([run_experiment_cycle]).

    Python integers are [Z], Python floats are binary64 ([PrimFloat.float]),
    strings are [string], insertion-ordered dictionaries are association
    lists, exceptions are an [outcome], and the objects the program mutates
    (the graph bound to [G], the state of the [random] module) are threaded
    through a small state-and-exception monad. *)

From Stdlib Require Import ZArith List String Ascii Bool Lia Permutation.
From Stdlib Require Import Floats DecimalString DecimalZ.
From Stdlib Require Import Setoid Morphisms.
Import ListNotations.

Open Scope string_scope.
Open Scope list_scope.
Open Scope Z_scope.

(* ================================================================== *)
(** * Part I: the model *)
(* ================================================================== *)

(** ** Python values, exceptions and built-ins *)

Module Py.

(** The exceptions the program and the libraries it calls can raise. *)
Inductive exn : Type :=
| ValueError (msg : string)
| SystemExit (code : Z)
| KeyError
| IndexError
| ZeroDivisionError
| OverflowError
| NodeNotFound
| NetworkXNoPath
| NetworkXError.

Inductive outcome (A : Type) : Type :=
| Ok (a : A)
| Raise (e : exn).
Arguments Ok {A} a.
Arguments Raise {A} e.

Definition bind {A B} (m : outcome A) (f : A -> outcome B) : outcome B :=
  match m with
  | Ok a => f a
  | Raise e => Raise e
  end.

(** [for x in xs: s = body(s, x)], stopping at the first exception. *)
Fixpoint for_each {S X} (xs : list X) (body : S -> X -> outcome S) (s : S)
  : outcome S :=
  match xs with
  | [] => Ok s
  | x :: xs' => bind (body s x) (for_each xs' body)
  end.

(** [range(n)]: empty when [n <= 0]. *)
Definition range (n : Z) : list Z := map Z.of_nat (seq 0 (Z.to_nat n)).

(** [len(l)] as a Python integer. *)
Definition len {A} (l : list A) : Z := Z.of_nat (List.length l).

(** [enumerate(l)]. *)
Definition enumerate {A} (l : list A) : list (Z * A) :=
  combine (range (len l)) l.

(** [l[i]] on a list: negative indices count from the end. *)
Definition list_index {A} (l : list A) (i : Z) : outcome A :=
  let j := if i <? 0 then len l + i else i in
  if j <? 0 then Raise IndexError
  else match nth_error l (Z.to_nat j) with
       | Some x => Ok x
       | None => Raise IndexError
       end.

(** [str(i)] for an integer, as an f-string field prints it. *)
Definition str (i : Z) : string := NilZero.string_of_int (Z.to_int i).

(** Keys of dictionaries: strings (node identifiers) and integers (pods). *)
Class Key (K : Type) := {
  keqb : K -> K -> bool;
  keqb_eq : forall a b, keqb a b = true <-> a = b
}.

#[global] Instance Key_string : Key string :=
  {| keqb := String.eqb; keqb_eq := String.eqb_eq |}.

#[global] Instance Key_Z : Key Z :=
  {| keqb := Z.eqb; keqb_eq := Z.eqb_eq |}.

(** An insertion-ordered [dict]: a new key goes last, an assignment to a
    present key keeps its place, [del] removes the entry. *)
Definition dict (K V : Type) : Type := list (K * V).

Section Dict.
Context {K V : Type} `{Key K}.

Fixpoint dict_get (d : dict K V) (k : K) : option V :=
  match d with
  | [] => None
  | (k', v) :: d' => if keqb k' k then Some v else dict_get d' k
  end.

Fixpoint dict_set (d : dict K V) (k : K) (v : V) : dict K V :=
  match d with
  | [] => [(k, v)]
  | (k', v') :: d' =>
      if keqb k' k then (k', v) :: d' else (k', v') :: dict_set d' k v
  end.

Fixpoint dict_del (d : dict K V) (k : K) : dict K V :=
  match d with
  | [] => []
  | (k', v') :: d' =>
      if keqb k' k then d' else (k', v') :: dict_del d' k
  end.

Definition dict_mem (d : dict K V) (k : K) : bool :=
  match dict_get d k with
  | Some _ => true
  | None => false
  end.

Definition dict_keys (d : dict K V) : list K := map fst d.

(** [d[k]] as an expression. *)
Definition dict_lookup (d : dict K V) (k : K) : outcome V :=
  match dict_get d k with
  | Some v => Ok v
  | None => Raise KeyError
  end.
End Dict.

(** [x in l] on a list. *)
Definition mem {K} `{Key K} (x : K) (l : list K) : bool :=
  existsb (keqb x) l.

End Py.
Import Py.

(** ** Data model of the topology *)

(** The ['type'] attribute of a node. *)
Inductive node_type : Type := core | agg | edge | host.

(** The ['layer'] attribute of a link. *)
Inductive layer : Type := edge_host | agg_edge | agg_core.

(** The attribute dictionary of a node: keys ['type'], ['pod'] and
    ['edge_anchor'], each present or not. *)
Record node_attrs : Type := {
  attr_type : option node_type;
  attr_pod : option Z;
  attr_edge_anchor : option string
}.

(** The attribute dictionary of a link: the key ['layer'], present or not. *)
Definition edge_attrs : Type := option layer.

Definition or_else {A} (new old : option A) : option A :=
  match new with
  | Some _ => new
  | None => old
  end.

(** [old.update(new)] on the two kinds of attribute dictionaries. *)
Definition node_attrs_update (old new : node_attrs) : node_attrs :=
  {| attr_type := or_else (attr_type new) (attr_type old);
     attr_pod := or_else (attr_pod new) (attr_pod old);
     attr_edge_anchor := or_else (attr_edge_anchor new) (attr_edge_anchor old) |}.

Definition edge_attrs_update (old new : edge_attrs) : edge_attrs :=
  or_else new old.

Definition no_node_attrs : node_attrs :=
  {| attr_type := None; attr_pod := None; attr_edge_anchor := None |}.

(** The dictionary [calculate_fat_tree_params] returns. *)
Record params : Type := {
  p_k : Z;
  k_half : Z;
  num_pods : Z;
  num_core_switches : Z;
  total_hosts : Z
}.

(** One entry of [pod_switches_data]. *)
Record pod_rec : Type := {
  pod_agg : list string;
  pod_edge : list string;
  host_to_edge : dict string string
}.

(** ** The graph library, as far as the program uses it *)

Module Nx.

(** [nx.Graph]: the node table [_node], the adjacency table [_adj] (one
    inner dictionary per node, each link stored under both ends) and the
    graph attributes [G.graph]. *)
Record Graph : Type := {
  g_node : dict string node_attrs;
  g_adj : dict string (dict string edge_attrs);
  g_params : option params;
  g_pod_data : option (dict Z pod_rec)
}.

Definition empty_graph : Graph :=
  {| g_node := []; g_adj := []; g_params := None; g_pod_data := None |}.

Definition with_tables (G : Graph) nodes adj : Graph :=
  {| g_node := nodes; g_adj := adj;
     g_params := g_params G; g_pod_data := g_pod_data G |}.

(** [_adj[u]], empty for a node the table does not hold. *)
Definition adj_row (adj : dict string (dict string edge_attrs)) (u : string)
  : dict string edge_attrs :=
  match dict_get adj u with
  | Some row => row
  | None => []
  end.

(** [G.add_node(n, **attr)]. *)
Definition add_node (G : Graph) (n : string) (attr : node_attrs) : Graph :=
  match dict_get (g_node G) n with
  | None =>
      with_tables G
        (dict_set (g_node G) n (node_attrs_update no_node_attrs attr))
        (dict_set (g_adj G) n [])
  | Some old =>
      with_tables G (dict_set (g_node G) n (node_attrs_update old attr))
        (g_adj G)
  end.

(** The first lines of [add_edge]: an end that is no node yet is added. *)
Definition ensure_node (G : Graph) (u : string) : Graph :=
  if dict_mem (g_node G) u then G
  else with_tables G (dict_set (g_node G) u no_node_attrs)
         (dict_set (g_adj G) u []).

(** [G.add_edge(u, v, **attr)]. *)
Definition add_edge (G : Graph) (u v : string) (attr : edge_attrs) : Graph :=
  let G1 := ensure_node (ensure_node G u) v in
  let datadict :=
    edge_attrs_update
      (match dict_get (adj_row (g_adj G1) u) v with
       | Some d => d
       | None => None
       end) attr in
  let adj1 := dict_set (g_adj G1) u (dict_set (adj_row (g_adj G1) u) v datadict) in
  let adj2 := dict_set adj1 v (dict_set (adj_row adj1 v) u datadict) in
  with_tables G1 (g_node G1) adj2.

(** [G.has_node(n)], [n in G]. *)
Definition has_node (G : Graph) (n : string) : bool := dict_mem (g_node G) n.

(** [G.has_edge(u, v)]. *)
Definition has_edge (G : Graph) (u v : string) : bool :=
  match dict_get (g_adj G) u with
  | Some row => dict_mem row v
  | None => false
  end.

(** [G.remove_edge(u, v)]. *)
Definition remove_edge (G : Graph) (u v : string) : outcome Graph :=
  match dict_get (g_adj G) u with
  | None => Raise NetworkXError
  | Some row =>
      if dict_mem row v then
        let adj1 := dict_set (g_adj G) u (dict_del row v) in
        if String.eqb u v then Ok (with_tables G (g_node G) adj1)
        else match dict_get adj1 v with
             | None => Raise NetworkXError
             | Some row' =>
                 if dict_mem row' u
                 then Ok (with_tables G (g_node G)
                            (dict_set adj1 v (dict_del row' u)))
                 else Raise NetworkXError
             end
      else Raise NetworkXError
  end.

(** [list(G.nodes)]. *)
Definition nodes (G : Graph) : list string := dict_keys (g_node G).

(** [list(G[u])], the neighbours of [u]. *)
Definition neighbors (G : Graph) (u : string) : list string :=
  dict_keys (adj_row (g_adj G) u).

(** [G.edges()]: every node's row in table order, a link reported from the
    end that comes first. *)
Fixpoint edges_from (adj : dict string (dict string edge_attrs))
    (seen : list string) : list (string * string) :=
  match adj with
  | [] => []
  | (n, nbrs) :: rest =>
      map (fun nbr => (n, nbr))
          (filter (fun nbr => negb (mem nbr seen)) (dict_keys nbrs))
      ++ edges_from rest (n :: seen)
  end.

Definition edges (G : Graph) : list (string * string) :=
  edges_from (g_adj G) [].

(** One level of the breadth-first search: the nodes next to the frontier
    that were not reached before, in discovery order. *)
Definition next_level (G : Graph) (frontier visited : list string)
  : list string :=
  fold_left
    (fun acc u =>
       fold_left
         (fun acc v => if mem v visited || mem v acc then acc else acc ++ [v])
         (neighbors G u) acc)
    frontier [].

Fixpoint bfs (fuel : nat) (G : Graph) (target : string)
    (frontier visited : list string) (d : Z) : option Z :=
  match fuel with
  | O => None
  | S fuel' =>
      if mem target frontier then Some d
      else match next_level G frontier visited with
           | [] => None
           | next => bfs fuel' G target next (visited ++ next) (d + 1)
           end
  end.

(** [nx.shortest_path_length(G, source=s, target=t)] on an unweighted graph:
    the number of links on a shortest path, [NetworkXNoPath] when there is
    none, [NodeNotFound] when an end is no node of [G]. *)
Definition shortest_path_length (G : Graph) (s t : string) : outcome Z :=
  if negb (has_node G s) || negb (has_node G t) then Raise NodeNotFound
  else match bfs (S (List.length (g_node G))) G t [s] [s] 0 with
       | Some d => Ok d
       | None => Raise NetworkXNoPath
       end.

End Nx.
Import Nx.

(** ** The identifier scheme *)

(** The node identifiers [build_fat_tree] formats: ["C_{c}"], ["A_{p}_{a}"],
    ["E_{p}_{e}"] and ["H_{h}"]. *)
Definition core_id (c : Z) : string := ("C_" ++ str c)%string.
Definition agg_id (p a : Z) : string := ("A_" ++ str p ++ "_" ++ str a)%string.
Definition edge_id (p e : Z) : string := ("E_" ++ str p ++ "_" ++ str e)%string.
Definition host_id (h : Z) : string := ("H_" ++ str h)%string.

(** ** [calculate_fat_tree_params] and [build_fat_tree] *)

Definition calculate_fat_tree_params (k : Z) : outcome params :=
  if negb (k mod 2 =? 0) || (k <? 2) then
    Raise (ValueError "k must be an even number greater than or equal to 2.")
  else
    let k_half := k / 2 in
    Ok {| p_k := k;
          k_half := k_half;
          num_pods := k;
          num_core_switches := k_half * k_half;
          total_hosts := (k ^ 3) / 4 |}.

(** The local variables of [build_fat_tree] that its loops update. *)
Record builder : Type := {
  b_G : Graph;
  core_switches : list string;
  pod_switches_data : dict Z pod_rec;
  current_host_idx : Z
}.

Definition set_G (st : builder) (G : Graph) : builder :=
  {| b_G := G; core_switches := core_switches st;
     pod_switches_data := pod_switches_data st;
     current_host_idx := current_host_idx st |}.

Definition set_pod_data (st : builder) (d : dict Z pod_rec) : builder :=
  {| b_G := b_G st; core_switches := core_switches st;
     pod_switches_data := d;
     current_host_idx := current_host_idx st |}.

Definition attrs (t : node_type) (pod : Z) (anchor : option string)
  : node_attrs :=
  {| attr_type := Some t; attr_pod := Some pod; attr_edge_anchor := anchor |}.

(** Lines 41-44: one core switch. *)
Definition core_body (st : builder) (c_idx : Z) : outcome builder :=
  let node_id := ("C_" ++ str c_idx)%string in
  Ok {| b_G := add_node (b_G st) node_id (attrs core (-1) None);
        core_switches := (core_switches st ++ [node_id])%list;
        pod_switches_data := pod_switches_data st;
        current_host_idx := current_host_idx st |}.

(** Lines 51-54: one aggregation switch of pod [pod_id]. *)
Definition agg_body (pod_id : Z) (st : builder) (a_idx : Z) : outcome builder :=
  let node_id := ("A_" ++ str pod_id ++ "_" ++ str a_idx)%string in
  let G := add_node (b_G st) node_id (attrs agg pod_id None) in
  bind (dict_lookup (pod_switches_data st) pod_id) (fun pd =>
  Ok (set_pod_data (set_G st G)
        (dict_set (pod_switches_data st) pod_id
           {| pod_agg := (pod_agg pd ++ [node_id])%list;
              pod_edge := pod_edge pd;
              host_to_edge := host_to_edge pd |}))).

(** Lines 62-68: one host of the edge switch [edge_node_id]. *)
Definition host_body (pod_id : Z) (edge_node_id : string)
    (st : builder) (h_idx : Z) : outcome builder :=
  let host_node_id := ("H_" ++ str (current_host_idx st))%string in
  let G := add_node (b_G st) host_node_id
             (attrs host pod_id (Some edge_node_id)) in
  let G := add_edge G edge_node_id host_node_id (Some edge_host) in
  bind (dict_lookup (pod_switches_data st) pod_id) (fun pd =>
  Ok {| b_G := G;
        core_switches := core_switches st;
        pod_switches_data :=
          dict_set (pod_switches_data st) pod_id
            {| pod_agg := pod_agg pd;
               pod_edge := pod_edge pd;
               host_to_edge := dict_set (host_to_edge pd) host_node_id edge_node_id |};
        current_host_idx := current_host_idx st + 1 |}).

(** Lines 57-68: one edge switch of pod [pod_id] and its hosts. *)
Definition edge_body (k_half pod_id : Z) (st : builder) (e_idx : Z)
  : outcome builder :=
  let edge_node_id := ("E_" ++ str pod_id ++ "_" ++ str e_idx)%string in
  let G := add_node (b_G st) edge_node_id (attrs edge pod_id None) in
  bind (dict_lookup (pod_switches_data st) pod_id) (fun pd =>
  let st1 :=
    set_pod_data (set_G st G)
      (dict_set (pod_switches_data st) pod_id
         {| pod_agg := pod_agg pd;
            pod_edge := (pod_edge pd ++ [edge_node_id])%list;
            host_to_edge := host_to_edge pd |}) in
  for_each (range k_half) (host_body pod_id edge_node_id) st1).

(** Lines 47-68: the nodes of one pod. *)
Definition pod_body (k_half : Z) (st : builder) (pod_id : Z) : outcome builder :=
  let st0 :=
    set_pod_data st
      (dict_set (pod_switches_data st) pod_id
         {| pod_agg := []; pod_edge := []; host_to_edge := [] |}) in
  bind (for_each (range k_half) (agg_body pod_id) st0) (fun st1 =>
  for_each (range k_half) (edge_body k_half pod_id) st1).

Definition link (l : layer) (u : string) (st : builder) (v : string)
  : outcome builder :=
  Ok (set_G st (add_edge (b_G st) u v (Some l))).

(** Lines 81-86: the core links of one aggregation switch. *)
Definition stripe_body (k_half : Z) (st : builder) (ia : Z * string)
  : outcome builder :=
  let '(agg_idx, agg_node) := ia in
  let strip_start_index := agg_idx * k_half in
  for_each (range k_half)
    (fun st core_offset =>
       let core_idx := strip_start_index + core_offset in
       bind (list_index (core_switches st) core_idx) (fun core_node =>
       link agg_core agg_node st core_node))
    st.

(** Lines 71-86: the links of one pod. *)
Definition wire_body (k_half : Z) (st : builder) (pod_id : Z) : outcome builder :=
  bind (dict_lookup (pod_switches_data st) pod_id) (fun pd =>
  let agg_switches := pod_agg pd in
  let edge_switches := pod_edge pd in
  bind (for_each agg_switches
          (fun st agg_node => for_each edge_switches (link agg_edge agg_node) st)
          st) (fun st1 =>
  for_each (enumerate agg_switches) (stripe_body k_half) st1)).

(** [build_fat_tree(k)]. A [ValueError] of the parameter check is printed and
    turned into [sys.exit(1)]. *)
Definition build_fat_tree (k : Z) : outcome Graph :=
  match calculate_fat_tree_params k with
  | Raise (ValueError _) => Raise (SystemExit 1)
  | Raise e => Raise e
  | Ok ps =>
      let st0 := {| b_G := empty_graph; core_switches := [];
                    pod_switches_data := []; current_host_idx := 0 |} in
      bind (for_each (range (num_core_switches ps)) core_body st0) (fun st1 =>
      bind (for_each (range (num_pods ps)) (pod_body (k_half ps)) st1) (fun st2 =>
      bind (for_each (range (num_pods ps)) (wire_body (k_half ps)) st2) (fun st3 =>
      Ok {| g_node := g_node (b_G st3);
            g_adj := g_adj (b_G st3);
            g_params := Some ps;
            g_pod_data := Some (pod_switches_data st3) |})))
  end.

(** Nodes of [G] by their ['type'] attribute. *)
Definition node_type_eqb (a b : node_type) : bool :=
  match a, b with
  | core, core | agg, agg | edge, edge | host, host => true
  | _, _ => false
  end.

Definition has_type (G : Graph) (t : node_type) (n : string) : bool :=
  match dict_get (g_node G) n with
  | Some a => match attr_type a with
              | Some t' => node_type_eqb t' t
              | None => false
              end
  | None => false
  end.

Definition nodes_of_type (G : Graph) (t : node_type) : list string :=
  filter (has_type G t) (nodes G).

(** ** Floating-point built-ins *)

(** [float(i)] for an integer, rounded to nearest-even; too large an
    integer is an [OverflowError]. *)
Definition float_of_int (i : Z) : outcome float :=
  match binary_normalize prec emax i 0 false with
  | S754_infinity _ => Raise OverflowError
  | x => Ok (SF2Prim x)
  end.

(** [math.ceil(x)] for a float. *)
Definition math_ceil (x : float) : outcome Z :=
  match Prim2SF x with
  | S754_nan => Raise (ValueError "cannot convert float NaN to integer")
  | S754_infinity _ => Raise OverflowError
  | S754_zero _ => Ok 0
  | S754_finite s m e =>
      let v := if s then Z.neg m else Z.pos m in
      Ok (if 0 <=? e then v * 2 ^ e else - ((- v) / 2 ^ (- e)))
  end.

(** [a / b] on two integers: the quotient rounded once to the nearest
    float. *)
Definition int_truediv (a b : Z) : outcome float :=
  if b =? 0 then Raise ZeroDivisionError
  else if a =? 0 then Ok (if b <? 0 then (-0)%float else 0%float)
  else
    let s := xorb (a <? 0) (b <? 0) in
    let '(q, e, l) := SFdiv_core_binary prec emax (Z.abs a) 0 (Z.abs b) 0 in
    match binary_round_aux prec emax s q e l with
    | S754_infinity _ => Raise OverflowError
    | x => Ok (SF2Prim x)
    end.

(** [x / n] for a float [x] and an integer [n]. *)
Definition float_div_int (x : float) (n : Z) : outcome float :=
  if n =? 0 then Raise ZeroDivisionError
  else bind (float_of_int n) (fun f => Ok (x / f)%float).

(** ** The [random] module *)

(** The generator behind [random]: [seed n] is the state [random.seed(n)]
    leaves, [sample pop k s] is what [random.sample(pop, k)] returns from
    state [s] for [0 <= k <= len(pop)], with the state it leaves. The one
    law is the library's contract: the result is made of the elements at [k]
    distinct positions of the population, each position used at most once. *)
Class RandomSource : Type := {
  rng : Type;
  seed : Z -> rng;
  sample : forall {A : Type}, list A -> nat -> rng -> list A * rng;
  sample_length : forall A (pop : list A) k s,
      (k <= List.length pop)%nat -> List.length (fst (sample pop k s)) = k;
  sample_without_replacement : forall A (pop : list A) k s,
      (k <= List.length pop)%nat ->
      exists rest, Permutation (fst (sample pop k s) ++ rest) pop
}.

(** ** The mutable state and its monad *)

Section Program.
Context {RS : RandomSource}.

(** The objects the functions below mutate: the graph their parameter [G]
    is bound to and the state of the [random] module. *)
Record world : Type := {
  w_G : Graph;
  w_random : rng
}.

Definition M (A : Type) : Type := world -> outcome A * world.

Definition ret {A} (a : A) : M A := fun w => (Ok a, w).

Definition bindM {A B} (m : M A) (f : A -> M B) : M B :=
  fun w => match m w with
           | (Ok a, w') => f a w'
           | (Raise e, w') => (Raise e, w')
           end.

Definition lift {A} (o : outcome A) : M A := fun w => (o, w).

Definition gets {A} (f : Graph -> A) : M A := fun w => (Ok (f (w_G w)), w).

Definition put_G (G : Graph) : M unit :=
  fun w => (Ok tt, {| w_G := G; w_random := w_random w |}).

(** [try: m except nx.NetworkXNoPath: handler]. *)
Definition except_NoPath {A} (m : M A) (handler : M A) : M A :=
  fun w => match m w with
           | (Raise NetworkXNoPath, w') => handler w'
           | r => r
           end.

Fixpoint for_eachM {S X} (xs : list X) (body : S -> X -> M S) (s : S) : M S :=
  match xs with
  | [] => ret s
  | x :: xs' => bindM (body s x) (for_eachM xs' body)
  end.

(** [random.seed(n)]. *)
Definition random_seed (n : Z) : M unit :=
  fun w => (Ok tt, {| w_G := w_G w; w_random := seed n |}).

(** [random.sample(population, k)]. *)
Definition random_sample {A} (population : list A) (k : Z) : M (list A) :=
  fun w =>
    if (k <? 0) || (len population <? k) then
      (Raise (ValueError "Sample larger than population or is negative"), w)
    else
      let '(r, s') := sample population (Z.to_nat k) (w_random w) in
      (Ok r, {| w_G := w_G w; w_random := s' |}).

(** [G.remove_edge(u, v)] on the graph [G] is bound to. *)
Definition G_remove_edge (u v : string) : M unit :=
  fun w => match remove_edge (w_G w) u v with
           | Ok G' => (Ok tt, {| w_G := G'; w_random := w_random w |})
           | Raise e => (Raise e, w)
           end.

(** [nx.shortest_path_length(G, source=s, target=t)]. *)
Definition G_shortest_path_length (s t : string) : M Z :=
  fun w => (shortest_path_length (w_G w) s t, w).

(** ** [model_link_failures] *)

(** Line 99: [math.ceil(total_edges * (failure_rate_percent / 100.0))]. *)
Definition num_to_fail_of (total_edges : Z) (failure_rate_percent : float)
  : outcome Z :=
  bind (float_of_int total_edges) (fun t =>
  math_ceil (t * (failure_rate_percent / 100))%float).

Definition model_link_failures (failure_rate_percent : float)
  : M (list (string * string)) :=
  if (failure_rate_percent <=? 0)%float then ret []
  else
    bindM (gets edges) (fun all_edges =>
    let total_edges := len all_edges in
    bindM (lift (num_to_fail_of total_edges failure_rate_percent))
      (fun num_to_fail =>
    bindM (random_sample all_edges num_to_fail) (fun edges_to_remove =>
    bindM (for_eachM edges_to_remove
             (fun (_ : unit) uv =>
                bindM (gets (fun G => has_edge G (fst uv) (snd uv))) (fun b =>
                if b then G_remove_edge (fst uv) (snd uv) else ret tt))
             tt) (fun _ =>
    ret edges_to_remove)))).

(** ** [calculate_avg_path_length] *)

(** Lines 123-129: one pair; the accumulator is
    [(total_path_length, connected_pairs_count)]. *)
Definition pair_body (acc : Z * Z) (pair : string * string) : M (Z * Z) :=
  except_NoPath
    (bindM (G_shortest_path_length (fst pair) (snd pair)) (fun length =>
     ret (fst acc + length, snd acc + 1)))
    (ret acc).

Definition calculate_avg_path_length (host_pairs : list (string * string))
  : M (float * float) :=
  let num_pairs_checked := len host_pairs in
  if num_pairs_checked =? 0 then ret (0%float, 0%float)
  else
    bindM (for_eachM host_pairs pair_body (0, 0)) (fun acc =>
    let total_path_length := fst acc in
    let connected_pairs_count := snd acc in
    if connected_pairs_count =? 0 then ret (0%float, 0%float)
    else
      bindM (lift (int_truediv total_path_length connected_pairs_count))
        (fun avg_length =>
      bindM (lift (int_truediv connected_pairs_count num_pairs_checked))
        (fun ratio =>
      ret (avg_length, (ratio * 100)%float)))).

(** ** [run_experiment_cycle] *)

Record results : Type := {
  fail_rate : list float;
  avg_path : list float;
  reachability : list float
}.

(** Lines 151-152 and 157-158: every ordered pair of two different
    positions of [all_hosts]. *)
Definition all_possible_pairs (all_hosts : list string)
  : list (string * string) :=
  flat_map
    (fun isrc =>
       map (fun jtgt => (snd isrc, snd jtgt))
         (filter (fun jtgt => negb (fst isrc =? fst jtgt))
            (enumerate all_hosts)))
    (enumerate all_hosts).

(** Lines 168-180: one run at one failure rate; the accumulator is
    [(avg_length_sum, reachability_sum)]. *)
Definition run_body (k : Z) (rate : float)
    (fixed_host_pairs : list (string * string))
    (acc : float * float) (run : Z) : M (float * float) :=
  bindM (lift (build_fat_tree k)) (fun G =>
  bindM (put_G G) (fun _ =>
  bindM (random_seed run) (fun _ =>
  bindM (model_link_failures rate) (fun _ =>
  bindM (calculate_avg_path_length fixed_host_pairs) (fun lr =>
  ret ((fst acc + fst lr)%float, (snd acc + snd lr)%float)))))).

(** [sum / N_RUNS] at lines 183-184: the sum is the integer [0] when no run
    was made and a float otherwise. *)
Definition mean_over_runs (sum : float) (N_RUNS : Z) : outcome float :=
  if N_RUNS <=? 0 then int_truediv 0 N_RUNS else float_div_int sum N_RUNS.

(** Lines 164-190: one failure rate. *)
Definition rate_body (k N_RUNS : Z) (fixed_host_pairs : list (string * string))
    (res : results) (rate : float) : M results :=
  bindM (for_eachM (range N_RUNS) (run_body k rate fixed_host_pairs)
           (0%float, 0%float)) (fun sums =>
  bindM (lift (mean_over_runs (fst sums) N_RUNS)) (fun avg_length_final =>
  bindM (lift (mean_over_runs (snd sums) N_RUNS)) (fun avg_reachability_final =>
  ret {| fail_rate := fail_rate res ++ [rate];
         avg_path := avg_path res ++ [avg_length_final];
         reachability := reachability res ++ [avg_reachability_final] |}))).

(** Lines 144-161: the host pairs every run is measured on. *)
Definition fixed_host_pairs_of (k N_SAMPLES : Z) : M (list (string * string)) :=
  bindM (lift (calculate_fat_tree_params k)) (fun ps =>
  let all_hosts := map (fun i => ("H_" ++ str i)%string) (range (total_hosts ps)) in
  let num_hosts := len all_hosts in
  bindM (random_seed 1000) (fun _ =>
  if num_hosts <=? 16 then ret (all_possible_pairs all_hosts)
  else
    let effective_samples := Z.min N_SAMPLES (len (all_possible_pairs all_hosts)) in
    random_sample (all_possible_pairs all_hosts) effective_samples)).

Definition run_experiment_cycle (k : Z) (fail_rates : list float)
    (N_RUNS N_SAMPLES : Z) : M results :=
  bindM (fixed_host_pairs_of k N_SAMPLES) (fun fixed_host_pairs =>
  for_eachM fail_rates (rate_body k N_RUNS fixed_host_pairs)
    {| fail_rate := []; avg_path := []; reachability := [] |}).

End Program.

(* ================================================================== *)
(** * Part II: properties *)
(* ================================================================== *)

(** ** Lists, ranges and dictionaries *)

Lemma bind_Ok {A B} (m : outcome A) (f : A -> outcome B) a :
  m = Ok a -> bind m f = f a.
Proof. now intros ->. Qed.

Lemma for_each_app {S X} (xs ys : list X) (body : S -> X -> outcome S) s :
  for_each (xs ++ ys) body s = bind (for_each xs body s) (for_each ys body).
Proof.
  revert s. induction xs as [|x xs IH]; intros s; simpl.
  - reflexivity.
  - destruct (body s x); simpl; auto.
Qed.

Lemma in_range (n x : Z) : In x (range n) <-> 0 <= x < n.
Proof.
  unfold range. rewrite in_map_iff. split.
  - intros (i & <- & Hi). apply in_seq in Hi. lia.
  - intros Hx. exists (Z.to_nat x). split; [lia|]. apply in_seq. lia.
Qed.

Lemma length_range (n : Z) : List.length (range n) = Z.to_nat n.
Proof. unfold range. now rewrite length_map, length_seq. Qed.

Lemma len_range (n : Z) : 0 <= n -> len (range n) = n.
Proof. intros Hn. unfold len. rewrite length_range. lia. Qed.

Lemma range_succ (n : Z) : 0 <= n -> range (n + 1) = range n ++ [n].
Proof.
  intros Hn. unfold range.
  replace (Z.to_nat (n + 1)) with (S (Z.to_nat n)) by lia.
  rewrite seq_S, map_app. simpl. now rewrite Z2Nat.id.
Qed.

Lemma range_nonpos (n : Z) : n <= 0 -> range n = [].
Proof. intros Hn. unfold range. now replace (Z.to_nat n) with O by lia. Qed.

Lemma NoDup_range (n : Z) : NoDup (range n).
Proof.
  unfold range. apply Finite.Injective_map_NoDup.
  - intros a b Hab. lia.
  - apply seq_NoDup.
Qed.

Lemma len_app {A} (l1 l2 : list A) : len (l1 ++ l2) = len l1 + len l2.
Proof. unfold len. rewrite length_app. lia. Qed.

Lemma len_map {A B} (f : A -> B) (l : list A) : len (map f l) = len l.
Proof. unfold len. now rewrite length_map. Qed.

Lemma list_index_nth {A} (l : list A) (i : Z) (x : A) :
  0 <= i -> nth_error l (Z.to_nat i) = Some x -> list_index l i = Ok x.
Proof.
  intros Hi Hx. unfold list_index.
  destruct (i <? 0) eqn:E; [apply Z.ltb_lt in E; lia|].
  rewrite E. now rewrite Hx.
Qed.

Lemma list_index_map_range {A} (f : Z -> A) (n i : Z) :
  0 <= i < n -> list_index (map f (range n)) i = Ok (f i).
Proof.
  intros Hi. apply list_index_nth; [lia|].
  unfold range. rewrite map_map.
  rewrite nth_error_map, nth_error_seq.
  destruct (Nat.ltb_spec (Z.to_nat i) (Z.to_nat n)) as [_|Hge]; [|lia].
  simpl. now rewrite Z2Nat.id by lia.
Qed.

Section DictFacts.
Context {K V : Type} `{Key K}.

Lemma keqb_refl (k : K) : keqb k k = true.
Proof. now apply keqb_eq. Qed.

Lemma keqb_neq (a b : K) : a <> b -> keqb a b = false.
Proof.
  intros Hab. destruct (keqb a b) eqn:E; [|reflexivity].
  apply keqb_eq in E. contradiction.
Qed.

Lemma keqb_dec (a b : K) : {a = b} + {a <> b}.
Proof.
  destruct (keqb a b) eqn:E.
  - left. now apply keqb_eq.
  - right. intros ->. rewrite keqb_refl in E. discriminate.
Qed.

Lemma dict_get_set_eq (d : dict K V) k v : dict_get (dict_set d k v) k = Some v.
Proof.
  induction d as [|[k' v'] d IH]; simpl.
  - now rewrite keqb_refl.
  - destruct (keqb k' k) eqn:E; simpl; rewrite E; auto.
Qed.

Lemma dict_get_set_neq (d : dict K V) k k' v :
  k <> k' -> dict_get (dict_set d k v) k' = dict_get d k'.
Proof.
  intros Hk. induction d as [|[k0 v0] d IH]; simpl.
  - now rewrite keqb_neq.
  - destruct (keqb k0 k) eqn:E; simpl.
    + apply keqb_eq in E. subst k0. now rewrite keqb_neq.
    + now rewrite IH.
Qed.

Lemma dict_get_None (d : dict K V) k :
  dict_get d k = None <-> ~ In k (dict_keys d).
Proof.
  induction d as [|[k' v'] d IH]; simpl.
  - tauto.
  - destruct (keqb k' k) eqn:E.
    + apply keqb_eq in E. subst. split; [discriminate|tauto].
    + rewrite IH. split.
      * intros Hn [->|Hin]; [|tauto]. rewrite keqb_refl in E. discriminate.
      * tauto.
Qed.

Lemma dict_get_In (d : dict K V) k v :
  dict_get d k = Some v -> In (k, v) d.
Proof.
  induction d as [|[k' v'] d IH]; simpl; [discriminate|].
  destruct (keqb k' k) eqn:E.
  - apply keqb_eq in E. intros [= ->]. subst. now left.
  - intros Hg. right. auto.
Qed.

Lemma dict_mem_true (d : dict K V) k :
  dict_mem d k = true <-> In k (dict_keys d).
Proof.
  unfold dict_mem. destruct (dict_get d k) eqn:E.
  - split; [intros _|reflexivity].
    apply dict_get_In in E. change k with (fst (k, v)). now apply in_map.
  - apply dict_get_None in E. split; [discriminate|tauto].
Qed.

Lemma dict_set_new (d : dict K V) k v :
  dict_get d k = None -> dict_set d k v = d ++ [(k, v)].
Proof.
  induction d as [|[k' v'] d IH]; simpl; [reflexivity|].
  destruct (keqb k' k); [discriminate|]. intros Hg. now rewrite IH.
Qed.

Lemma dict_keys_set_old (d : dict K V) k v :
  In k (dict_keys d) -> dict_keys (dict_set d k v) = dict_keys d.
Proof.
  induction d as [|[k' v'] d IH]; simpl; [tauto|].
  destruct (keqb k' k) eqn:E; simpl; [reflexivity|].
  intros [->|Hin]; [rewrite keqb_refl in E; discriminate|].
  now rewrite IH.
Qed.

Lemma dict_get_app (d1 d2 : dict K V) k :
  dict_get (d1 ++ d2) k =
    match dict_get d1 k with
    | Some v => Some v
    | None => dict_get d2 k
    end.
Proof.
  induction d1 as [|[k' v'] d1 IH]; simpl; [reflexivity|].
  destruct (keqb k' k); auto.
Qed.

Lemma dict_get_NoDup_In (d : dict K V) k v :
  NoDup (dict_keys d) -> In (k, v) d -> dict_get d k = Some v.
Proof.
  induction d as [|[k' v'] d IH]; simpl; [tauto|].
  intros Hnd Hin. inversion Hnd as [|? ? Hni Hnd']; subst.
  destruct Hin as [[= -> ->]|Hin].
  - now rewrite keqb_refl.
  - destruct (keqb k' k) eqn:E.
    + apply keqb_eq in E. subst. exfalso. apply Hni.
      change k with (fst (k, v)). now apply in_map.
    + auto.
Qed.

Lemma mem_true (x : K) (l : list K) : mem x l = true <-> In x l.
Proof.
  unfold mem. rewrite existsb_exists. split.
  - intros (y & Hy & E). apply keqb_eq in E. now subst.
  - intros Hin. exists x. split; [assumption|apply keqb_refl].
Qed.

Lemma mem_false (x : K) (l : list K) : mem x l = false <-> ~ In x l.
Proof.
  rewrite <- mem_true. destruct (mem x l); split; congruence.
Qed.

End DictFacts.

(** ** The identifier scheme is injective *)

Fixpoint no_underscore (s : string) : bool :=
  match s with
  | EmptyString => true
  | String c s' => negb (Ascii.eqb c "_") && no_underscore s'
  end.

Lemma no_underscore_uint (d : Decimal.uint) :
  no_underscore (NilEmpty.string_of_uint d) = true.
Proof. induction d; simpl; auto. Qed.

Lemma no_underscore_str (z : Z) : no_underscore (str z) = true.
Proof.
  unfold str, NilZero.string_of_int, NilZero.string_of_uint.
  destruct (Z.to_int z) as [d|d]; destruct d; simpl;
    auto using no_underscore_uint.
Qed.

Lemma str_inj (a b : Z) : str a = str b -> a = b.
Proof.
  unfold str. intros E.
  assert (Hn : forall z, Z.to_int z <> Decimal.Pos Decimal.Nil
                         /\ Z.to_int z <> Decimal.Neg Decimal.Nil).
  { intros [|p|p]; simpl; split; try discriminate;
      intros [= Hp]; now apply (DecimalPos.Unsigned.to_uint_nonnil p). }
  apply DecimalZ.to_int_inj.
  assert (Some (Z.to_int a) = Some (Z.to_int b)) as [= ->]; [|reflexivity].
  rewrite <- (NilZero.isi (Z.to_int a)), <- (NilZero.isi (Z.to_int b));
    try apply Hn.
  now rewrite E.
Qed.

Lemma append_underscore_inj (s1 s2 t1 t2 : string) :
  no_underscore s1 = true -> no_underscore s2 = true ->
  (s1 ++ "_" ++ t1)%string = (s2 ++ "_" ++ t2)%string ->
  s1 = s2 /\ t1 = t2.
Proof.
  revert s2. induction s1 as [|c s1 IH]; intros [|c2 s2]; simpl.
  - intros _ _ [= ->]. auto.
  - intros _ H2 [= <- _]. simpl in H2. discriminate.
  - intros H1 _ [= -> _]. simpl in H1. discriminate.
  - intros H1 H2 [= -> E].
    apply andb_true_iff in H1, H2.
    destruct (IH s2) as [-> ->]; tauto.
Qed.

Lemma core_id_inj (c c' : Z) : core_id c = core_id c' -> c = c'.
Proof. unfold core_id. intros [= E]. now apply str_inj. Qed.

Lemma host_id_inj (h h' : Z) : host_id h = host_id h' -> h = h'.
Proof. unfold host_id. intros [= E]. now apply str_inj. Qed.

Lemma agg_id_inj (p a p' a' : Z) :
  agg_id p a = agg_id p' a' -> p = p' /\ a = a'.
Proof.
  unfold agg_id. intros [= E].
  apply append_underscore_inj in E; auto using no_underscore_str.
  destruct E as [E1 E2]. split; now apply str_inj.
Qed.

Lemma edge_id_inj (p e p' e' : Z) :
  edge_id p e = edge_id p' e' -> p = p' /\ e = e'.
Proof.
  unfold edge_id. intros [= E].
  apply append_underscore_inj in E; auto using no_underscore_str.
  destruct E as [E1 E2]. split; now apply str_inj.
Qed.

(** ** Parameter validation *)

Lemma params_invalid (k : Z) :
  Z.odd k = true \/ k < 2 ->
  calculate_fat_tree_params k =
    Raise (ValueError "k must be an even number greater than or equal to 2.").
Proof.
  intros Hk. unfold calculate_fat_tree_params.
  assert (E : negb (k mod 2 =? 0) || (k <? 2) = true).
  { destruct Hk as [Hodd | Hlt].
    - rewrite Zmod_odd, Hodd. reflexivity.
    - apply orb_true_iff. right. now apply Z.ltb_lt. }
  now rewrite E.
Qed.

Lemma params_valid (k : Z) :
  Z.even k = true -> 2 <= k ->
  calculate_fat_tree_params k =
    Ok {| p_k := k; k_half := k / 2; num_pods := k;
          num_core_switches := (k / 2) * (k / 2);
          total_hosts := k ^ 3 / 4 |}.
Proof.
  intros Hev Hk. unfold calculate_fat_tree_params.
  assert (E : negb (k mod 2 =? 0) || (k <? 2) = false).
  { rewrite Zmod_even, Hev. simpl. now apply Z.ltb_ge. }
  now rewrite E.
Qed.

(** C7, as the code has it. For every integer [k] that is odd or below 2,
    the parameter check raises its [ValueError], but that error does not
    leave [build_fat_tree]: the builder catches it, prints it and ends the
    call with [sys.exit(1)], that is with [SystemExit] of status 1. The call
    returns no graph, whatever graph one might expect for a default [k]. *)
Theorem build_fat_tree_rejects_invalid_k (k : Z) :
  Z.odd k = true \/ k < 2 ->
  calculate_fat_tree_params k =
    Raise (ValueError "k must be an even number greater than or equal to 2.")
  /\ build_fat_tree k = Raise (SystemExit 1)
  /\ (forall msg, build_fat_tree k <> Raise (ValueError msg))
  /\ forall G, build_fat_tree k <> Ok G.
Proof.
  intros Hk. pose proof (params_invalid k Hk) as E.
  assert (B : build_fat_tree k = Raise (SystemExit 1)).
  { unfold build_fat_tree. now rewrite E. }
  split; [exact E|]. split; [exact B|]. split.
  - intros msg H. rewrite B in H. discriminate.
  - intros G HG. rewrite B in HG. discriminate.
Qed.

Lemma build_fat_tree_rejects_invalid_k_witness :
  (Z.odd 3 = true \/ 3 < 2)
  /\ build_fat_tree 3 = Raise (SystemExit 1)
  /\ build_fat_tree 0 = Raise (SystemExit 1)
  /\ build_fat_tree (-4) = Raise (SystemExit 1).
Proof.
  split; [left; reflexivity|].
  split; [apply (build_fat_tree_rejects_invalid_k 3); left; reflexivity|].
  split; [apply (build_fat_tree_rejects_invalid_k 0); right; lia|].
  apply (build_fat_tree_rejects_invalid_k (-4)); right; lia.
Defined.

(** For [k = 3] the parameter check raises [ValueError], and the call of
    [build_fat_tree] ends with [SystemExit] of status 1, not with the error
    of the parameter check. *)
Lemma build_fat_tree_exits_on_invalid_k :
  Z.odd 3 = true
  /\ calculate_fat_tree_params 3 =
       Raise (ValueError "k must be an even number greater than or equal to 2.")
  /\ build_fat_tree 3 = Raise (SystemExit 1)
  /\ build_fat_tree 3 <>
       Raise (ValueError "k must be an even number greater than or equal to 2.").
Proof.
  split; [reflexivity|]. split; [reflexivity|]. split; [reflexivity|].
  discriminate.
Qed.

(** ** The builder as a list of graph operations *)

(** The calls [build_fat_tree] makes on the graph, in order. *)
Inductive op : Type :=
| AddNode (n : string) (a : node_attrs)
| AddEdge (u v : string) (l : layer).

Definition apply_op (G : Graph) (o : op) : Graph :=
  match o with
  | AddNode n a => add_node G n a
  | AddEdge u v l => add_edge G u v (Some l)
  end.

Definition run (ops : list op) (G : Graph) : Graph := fold_left apply_op ops G.

Definition host_ops (p : Z) (eid : string) (hs : list Z) : list op :=
  flat_map
    (fun h => [AddNode (host_id h) (attrs host p (Some eid));
               AddEdge eid (host_id h) edge_host])
    hs.

Definition edge_ops (kh p e : Z) : list op :=
  AddNode (edge_id p e) (attrs edge p None)
  :: host_ops p (edge_id p e) (map (fun h => (p * kh + e) * kh + h) (range kh)).

Definition agg_ops (p : Z) (l : list Z) : list op :=
  map (fun a => AddNode (agg_id p a) (attrs agg p None)) l.

Definition pod_ops (kh p : Z) : list op :=
  agg_ops p (range kh) ++ flat_map (edge_ops kh p) (range kh).

Definition core_ops (l : list Z) : list op :=
  map (fun c => AddNode (core_id c) (attrs core (-1) None)) l.

Definition link_ops (lay : layer) (u : string) (vs : list string) : list op :=
  map (fun v => AddEdge u v lay) vs.

Definition stripe_ops (kh p a : Z) : list op :=
  link_ops agg_core (agg_id p a) (map (fun off => core_id (a * kh + off)) (range kh)).

Definition wire_ops (kh p : Z) : list op :=
  flat_map (fun a => link_ops agg_edge (agg_id p a) (map (edge_id p) (range kh)))
    (range kh)
  ++ flat_map (stripe_ops kh p) (range kh).

Definition fat_tree_ops (k : Z) : list op :=
  core_ops (range (k / 2 * (k / 2)))
  ++ flat_map (pod_ops (k / 2)) (range k)
  ++ flat_map (wire_ops (k / 2)) (range k).

Lemma run_app (ops1 ops2 : list op) (G : Graph) :
  run (ops1 ++ ops2) G = run ops2 (run ops1 G).
Proof. apply fold_left_app. Qed.

Lemma for_each_ext_in {S X} (l : list X) (f g : S -> X -> outcome S) s :
  (forall s x, In x l -> f s x = g s x) -> for_each l f s = for_each l g s.
Proof.
  revert s. induction l as [|x l IH]; intros s Hfg; simpl; [reflexivity|].
  rewrite (Hfg s x) by now left.
  destruct (g s x); simpl; [|reflexivity].
  apply IH. intros s' y Hy. apply Hfg. now right.
Qed.

Definition pod_at (d : dict Z pod_rec) (p : Z) (ag ed : list string) : Prop :=
  exists h2e, dict_get d p =
    Some {| pod_agg := ag; pod_edge := ed; host_to_edge := h2e |}.

Definition same_elsewhere (d d' : dict Z pod_rec) (p : Z) : Prop :=
  forall p', p' <> p -> dict_get d' p' = dict_get d p'.

Lemma pod_at_lookup d p ag ed :
  pod_at d p ag ed -> exists pd, dict_lookup d p = Ok pd
    /\ pod_agg pd = ag /\ pod_edge pd = ed.
Proof.
  intros [h2e E]. unfold dict_lookup. rewrite E. eexists. repeat split.
Qed.

Lemma core_loop (l : list Z) (st : builder) :
  for_each l core_body st =
    Ok {| b_G := run (core_ops l) (b_G st);
          core_switches := core_switches st ++ map core_id l;
          pod_switches_data := pod_switches_data st;
          current_host_idx := current_host_idx st |}.
Proof.
  revert st. induction l as [|c l IH]; intros [G cs pd cur]; simpl.
  - now rewrite app_nil_r.
  - rewrite IH. simpl. now rewrite <- app_assoc.
Qed.

Lemma agg_loop (p : Z) (l : list Z) (st : builder) ag ed :
  pod_at (pod_switches_data st) p ag ed ->
  exists d',
    for_each l (agg_body p) st =
      Ok {| b_G := run (agg_ops p l) (b_G st);
            core_switches := core_switches st;
            pod_switches_data := d';
            current_host_idx := current_host_idx st |}
    /\ pod_at d' p (ag ++ map (agg_id p) l) ed
    /\ same_elsewhere (pod_switches_data st) d' p.
Proof.
  revert st ag. induction l as [|a l IH]; intros [G cs pd cur] ag Hp; simpl in *.
  - exists pd. rewrite app_nil_r. split; [reflexivity|]. split; [exact Hp|].
    intros p' _. reflexivity.
  - destruct Hp as [h2e Hp]. unfold agg_body at 1, dict_lookup. simpl.
    rewrite Hp. simpl.
    edestruct (IH (Build_builder
                     (add_node G (agg_id p a) (attrs agg p None)) cs
                     (dict_set pd p
                        {| pod_agg := ag ++ [agg_id p a]; pod_edge := ed;
                           host_to_edge := h2e |}) cur))
      as (d' & E & Hat & Hsame).
    { exists h2e. simpl. apply dict_get_set_eq. }
    exists d'. split; [exact E|]. split.
    + rewrite <- app_assoc in Hat. exact Hat.
    + intros p' Hp'. rewrite (Hsame p' Hp'). simpl.
      apply dict_get_set_neq. congruence.
Qed.

(** [c, c + 1, ..., c + n - 1]: the host numbers a run of [n] hosts gets. *)
Definition count_from (c : Z) (n : nat) : list Z :=
  map (fun i => c + Z.of_nat i) (seq 0 n).
Arguments count_from : simpl never.

Lemma count_from_S (c : Z) (n : nat) :
  count_from c (S n) = c :: count_from (c + 1) n.
Proof.
  unfold count_from. simpl. rewrite Z.add_0_r. f_equal.
  rewrite <- seq_shift, map_map. apply map_ext. intros i. lia.
Qed.

Lemma count_from_range (c n : Z) :
  count_from c (Z.to_nat n) = map (fun h => c + h) (range n).
Proof. unfold count_from, range. now rewrite map_map. Qed.

Lemma host_ops_cons (p : Z) (eid : string) (h : Z) (hs : list Z) :
  host_ops p eid (h :: hs) =
    AddNode (host_id h) (attrs host p (Some eid))
    :: AddEdge eid (host_id h) edge_host :: host_ops p eid hs.
Proof. reflexivity. Qed.

Lemma run_cons (o : op) (ops : list op) (G : Graph) :
  run (o :: ops) G = run ops (apply_op G o).
Proof. reflexivity. Qed.

Lemma host_loop (p : Z) (eid : string) (l : list Z) (st : builder) ag ed :
  pod_at (pod_switches_data st) p ag ed ->
  exists d',
    for_each l (host_body p eid) st =
      Ok {| b_G := run (host_ops p eid
                          (count_from (current_host_idx st) (List.length l)))
                     (b_G st);
            core_switches := core_switches st;
            pod_switches_data := d';
            current_host_idx := current_host_idx st + len l |}
    /\ pod_at d' p ag ed
    /\ same_elsewhere (pod_switches_data st) d' p.
Proof.
  revert st. induction l as [|h l IH]; intros [G cs pd cur] Hp;
    cbn [b_G core_switches pod_switches_data current_host_idx] in *.
  - exists pd. split; [|split; [exact Hp|intros p' _; reflexivity]].
    cbn [for_each]. unfold len. simpl List.length. now rewrite Z.add_0_r.
  - destruct Hp as [h2e Hp].
    pose (st1 := Build_builder
                   (add_edge
                      (add_node G (host_id cur) (attrs host p (Some eid)))
                      eid (host_id cur) (Some edge_host)) cs
                   (dict_set pd p
                      {| pod_agg := ag; pod_edge := ed;
                         host_to_edge := dict_set h2e (host_id cur) eid |})
                   (cur + 1)).
    assert (Hstep : host_body p eid (Build_builder G cs pd cur) h = Ok st1).
    { unfold host_body, dict_lookup.
      cbn [b_G core_switches pod_switches_data current_host_idx].
      rewrite Hp. reflexivity. }
    destruct (IH st1) as (d' & E & Hat & Hsame).
    { eexists. unfold st1. cbn [pod_switches_data]. apply dict_get_set_eq. }
    unfold st1 in E, Hsame.
    cbn [b_G core_switches pod_switches_data current_host_idx] in E, Hsame.
    exists d'. split; [|split].
    + cbn [for_each]. rewrite Hstep. cbn [bind]. fold st1.
      cbn [List.length]. rewrite count_from_S, host_ops_cons, !run_cons.
      cbn [apply_op].
      replace (cur + len (h :: l)) with (cur + 1 + len l)
        by (unfold len; simpl List.length; lia).
      exact E.
    + exact Hat.
    + intros p' Hp'. rewrite (Hsame p' Hp').
      apply dict_get_set_neq. congruence.
Qed.

Lemma edge_loop (kh p : Z) (n a : nat) (st : builder) ag ed :
  0 <= kh ->
  pod_at (pod_switches_data st) p ag ed ->
  current_host_idx st = (p * kh + Z.of_nat a) * kh ->
  exists d',
    for_each (map Z.of_nat (seq a n)) (edge_body kh p) st =
      Ok {| b_G := run (flat_map (edge_ops kh p) (map Z.of_nat (seq a n)))
                     (b_G st);
            core_switches := core_switches st;
            pod_switches_data := d';
            current_host_idx := current_host_idx st + Z.of_nat n * kh |}
    /\ pod_at d' p ag (ed ++ map (edge_id p) (map Z.of_nat (seq a n)))
    /\ same_elsewhere (pod_switches_data st) d' p.
Proof.
  intros Hkh. revert a st ed.
  induction n as [|n IH]; intros a [G cs pd cur] ed Hp Hcur;
    cbn [b_G core_switches pod_switches_data current_host_idx] in *.
  - exists pd. split; [|split; [|intros p' _; reflexivity]].
    + cbn. now rewrite Z.add_0_r.
    + cbn. now rewrite app_nil_r.
  - destruct Hp as [h2e Hp].
    set (e := Z.of_nat a).
    pose (st1 := Build_builder
                   (add_node G (edge_id p e) (attrs edge p None)) cs
                   (dict_set pd p
                      {| pod_agg := ag; pod_edge := ed ++ [edge_id p e];
                         host_to_edge := h2e |}) cur).
    destruct (host_loop p (edge_id p e) (range kh) st1 ag (ed ++ [edge_id p e]))
      as (d1 & E1 & Hat1 & Hsame1).
    { eexists. unfold st1. cbn [pod_switches_data]. apply dict_get_set_eq. }
    unfold st1 in E1, Hsame1.
    cbn [b_G core_switches pod_switches_data current_host_idx] in E1, Hsame1.
    rewrite length_range, count_from_range in E1.
    assert (Hstep : edge_body kh p (Build_builder G cs pd cur) e =
                    Ok (Build_builder
                          (run (edge_ops kh p e) G) cs d1 (cur + len (range kh)))).
    { unfold edge_body, dict_lookup, set_pod_data, set_G.
      cbn [b_G core_switches pod_switches_data current_host_idx].
      rewrite Hp. cbn [bind pod_agg pod_edge host_to_edge].
      etransitivity; [exact E1|]. do 2 f_equal.
      unfold edge_ops. rewrite run_cons. cbn [apply_op]. do 2 f_equal.
      apply map_ext. intros h. subst cur. reflexivity. }
    destruct (IH (S a) (Build_builder (run (edge_ops kh p e) G) cs d1
                          (cur + len (range kh))) (ed ++ [edge_id p e]))
      as (d' & E & Hat & Hsame).
    { exact Hat1. }
    { cbn [current_host_idx]. rewrite len_range by assumption. subst cur e. lia. }
    cbn [b_G core_switches pod_switches_data current_host_idx] in E, Hsame.
    exists d'. split; [|split].
    + cbn [seq map for_each flat_map]. fold e. rewrite Hstep. cbn [bind].
      rewrite E, run_app. do 2 f_equal.
      rewrite len_range by assumption. lia.
    + cbn [seq map]. fold e. rewrite <- app_assoc in Hat. exact Hat.
    + intros p' Hp'. rewrite (Hsame p' Hp'), (Hsame1 p' Hp').
      apply dict_get_set_neq. congruence.
Qed.

Definition pod_aggs (kh p : Z) : list string := map (agg_id p) (range kh).
Definition pod_edges (kh p : Z) : list string := map (edge_id p) (range kh).

Lemma pod_loop (kh : Z) (n a : nat) (st : builder) :
  0 <= kh ->
  current_host_idx st = Z.of_nat a * kh * kh ->
  exists d',
    for_each (map Z.of_nat (seq a n)) (pod_body kh) st =
      Ok {| b_G := run (flat_map (pod_ops kh) (map Z.of_nat (seq a n)))
                     (b_G st);
            core_switches := core_switches st;
            pod_switches_data := d';
            current_host_idx := current_host_idx st + Z.of_nat n * kh * kh |}
    /\ (forall p, In p (map Z.of_nat (seq a n)) ->
                  pod_at d' p (pod_aggs kh p) (pod_edges kh p))
    /\ (forall p, ~ In p (map Z.of_nat (seq a n)) ->
                  dict_get d' p = dict_get (pod_switches_data st) p).
Proof.
  intros Hkh. revert a st.
  induction n as [|n IH]; intros a [G cs pd cur] Hcur;
    cbn [b_G core_switches pod_switches_data current_host_idx] in *.
  - exists pd. split; [|split; [intros p []|reflexivity]].
    cbn. now rewrite Z.add_0_r.
  - set (p := Z.of_nat a).
    pose (st0 := Build_builder G cs
                   (dict_set pd p
                      {| pod_agg := []; pod_edge := []; host_to_edge := [] |})
                   cur).
    destruct (agg_loop p (range kh) st0 [] []) as (d1 & E1 & Hat1 & Hsame1).
    { eexists. unfold st0. cbn [pod_switches_data]. apply dict_get_set_eq. }
    unfold st0 in E1, Hsame1.
    cbn [b_G core_switches pod_switches_data current_host_idx app] in E1, Hsame1, Hat1.
    destruct (edge_loop kh p (Z.to_nat kh) 0
                (Build_builder (run (agg_ops p (range kh)) G) cs d1 cur)
                (pod_aggs kh p) [])
      as (d2 & E2 & Hat2 & Hsame2); [assumption|exact Hat1| |].
    { cbn [current_host_idx]. subst cur p. lia. }
    cbn [b_G core_switches pod_switches_data current_host_idx app] in E2, Hsame2, Hat2.
    fold (range kh) in E2, Hat2.
    assert (Hstep : pod_body kh (Build_builder G cs pd cur) p =
                    Ok (Build_builder (run (pod_ops kh p) G) cs d2
                          (cur + kh * kh))).
    { unfold pod_body, set_pod_data.
      cbn [b_G core_switches pod_switches_data current_host_idx].
      fold st0. unfold st0. rewrite E1. cbn [bind]. rewrite E2.
      unfold pod_ops. rewrite run_app. do 2 f_equal. lia. }
    destruct (IH (S a) (Build_builder (run (pod_ops kh p) G) cs d2
                          (cur + kh * kh)))
      as (d' & E & Hin & Hout).
    { cbn [current_host_idx]. subst cur p. lia. }
    cbn [b_G core_switches pod_switches_data current_host_idx] in E, Hout.
    exists d'. split; [|split].
    + cbn [seq map for_each flat_map]. fold p. rewrite Hstep. cbn [bind].
      rewrite E, run_app. do 2 f_equal. lia.
    + intros q Hq. cbn [seq map] in Hq. fold p in Hq.
      destruct (in_dec Z.eq_dec q (map Z.of_nat (seq (S a) n))) as [Hi|Hni].
      * now apply Hin.
      * destruct Hq as [<-|Hq]; [|contradiction].
        destruct Hat2 as [h2e Hat2]. exists h2e.
        rewrite (Hout p Hni). exact Hat2.
    + intros q Hq. cbn [seq map] in Hq. fold p in Hq.
      assert (Hqp : q <> p) by (intros ->; apply Hq; now left).
      rewrite Hout by (intros Hi; apply Hq; now right).
      rewrite (Hsame2 q Hqp), (Hsame1 q Hqp).
      apply dict_get_set_neq. congruence.
Qed.

(** A loop whose body only performs graph operations, as long as the other
    variables of the builder are as [P] says. *)
Lemma for_each_ops {X} (P : builder -> Prop) (l : list X) body
    (f : X -> list op) (st : builder) :
  (forall st G, P st -> P (set_G st G)) ->
  (forall st x, P st -> In x l ->
     body st x = Ok (set_G st (run (f x) (b_G st)))) ->
  P st ->
  for_each l body st = Ok (set_G st (run (flat_map f l) (b_G st))).
Proof.
  intros HP. revert st. induction l as [|x l IH]; intros st Hb Hst.
  - now destruct st.
  - cbn [for_each flat_map]. rewrite Hb by (auto; now left). cbn [bind].
    rewrite IH.
    + rewrite run_app. now destruct st.
    + intros st' y Hst' Hy. apply Hb; [assumption|now right].
    + now apply HP.
Qed.

Lemma flat_map_map {A B C} (g : A -> B) (f : B -> list C) (l : list A) :
  flat_map f (map g l) = flat_map (fun a => f (g a)) l.
Proof. induction l as [|a l IH]; simpl; [reflexivity|]. now rewrite IH. Qed.

Lemma flat_map_single {A B} (f : A -> B) (l : list A) :
  flat_map (fun a => [f a]) l = map f l.
Proof. induction l as [|a l IH]; simpl; [reflexivity|]. now rewrite IH. Qed.

Lemma combine_map_r {A B} (f : A -> B) (l : list A) :
  combine l (map f l) = map (fun a => (a, f a)) l.
Proof. induction l as [|a l IH]; simpl; [reflexivity|]. now rewrite IH. Qed.

Lemma enumerate_map_range {A} (f : Z -> A) (n : Z) :
  enumerate (map f (range n)) = map (fun i => (i, f i)) (range n).
Proof.
  unfold enumerate. rewrite len_map.
  destruct (Z.le_gt_cases 0 n) as [Hn|Hn].
  - rewrite len_range by assumption. apply combine_map_r.
  - unfold range. replace (Z.to_nat n) with O by lia. reflexivity.
Qed.

Definition wiring (kh : Z) (cs : list string) (d : dict Z pod_rec)
    (st : builder) : Prop :=
  core_switches st = cs /\ pod_switches_data st = d.

Lemma wiring_set_G kh cs d st G : wiring kh cs d st -> wiring kh cs d (set_G st G).
Proof. now destruct st. Qed.

Lemma link_loop kh cs d (lay : layer) (u : string) (vs : list string) st :
  wiring kh cs d st ->
  for_each vs (link lay u) st = Ok (set_G st (run (link_ops lay u vs) (b_G st))).
Proof.
  intros Hst. unfold link_ops. rewrite <- flat_map_single.
  apply (for_each_ops (wiring kh cs d)); auto using wiring_set_G.
Qed.

Lemma stripe_run (kh p : Z) d (st : builder) (a : Z) :
  0 <= a < kh ->
  wiring kh (map core_id (range (kh * kh))) d st ->
  stripe_body kh st (a, agg_id p a) =
    Ok (set_G st (run (stripe_ops kh p a) (b_G st))).
Proof.
  intros Ha Hst. unfold stripe_body, stripe_ops, link_ops.
  rewrite map_map, <- flat_map_single.
  apply (for_each_ops (wiring kh (map core_id (range (kh * kh))) d));
    auto using wiring_set_G.
  intros st' off [Hcs _] Hoff. apply in_range in Hoff.
  rewrite Hcs, list_index_map_range by nia. reflexivity.
Qed.

Lemma wire_run (kh : Z) d (st : builder) (p : Z) :
  0 <= kh ->
  pod_at d p (pod_aggs kh p) (pod_edges kh p) ->
  wiring kh (map core_id (range (kh * kh))) d st ->
  wire_body kh st p = Ok (set_G st (run (wire_ops kh p) (b_G st))).
Proof.
  intros Hkh Hp Hst. pose proof Hst as [Hcs Hd].
  destruct (pod_at_lookup _ _ _ _ Hp) as (pd & Hl & Hag & Hed).
  unfold wire_body. rewrite Hd, Hl. cbn [bind]. rewrite Hag, Hed.
  rewrite (for_each_ops (wiring kh (map core_id (range (kh * kh))) d)
             (pod_aggs kh p) _
             (fun u => link_ops agg_edge u (pod_edges kh p)));
    auto using wiring_set_G.
  2:{ intros st' u Hst' _. now apply link_loop with (kh := kh) (cs := map core_id (range (kh * kh))) (d := d). }
  cbn [bind]. unfold pod_aggs at 1. rewrite enumerate_map_range.
  rewrite (for_each_ops (wiring kh (map core_id (range (kh * kh))) d)
             _ _ (fun ia => stripe_ops kh p (fst ia)));
    auto using wiring_set_G.
  - unfold wire_ops. rewrite run_app. unfold pod_aggs, pod_edges.
    rewrite !flat_map_map. cbn [fst]. now destruct st.
  - intros st' [a u] Hst' Hin. apply in_map_iff in Hin.
    destruct Hin as (a' & [= <- <-] & Ha). apply in_range in Ha.
    cbn [fst]. now apply stripe_run with (d := d).
Qed.

(** The graph [build_fat_tree k] returns, as the operations that make it. *)
Definition fat_tree (k : Z) : Graph := run (fat_tree_ops k) empty_graph.

Lemma build_fat_tree_run (k : Z) :
  Z.even k = true -> 2 <= k ->
  exists d,
    build_fat_tree k =
      Ok {| g_node := g_node (fat_tree k);
            g_adj := g_adj (fat_tree k);
            g_params := Some {| p_k := k; k_half := k / 2; num_pods := k;
                                num_core_switches := (k / 2) * (k / 2);
                                total_hosts := k ^ 3 / 4 |};
            g_pod_data := Some d |}
    /\ forall p, 0 <= p < k ->
          pod_at d p (pod_aggs (k / 2) p) (pod_edges (k / 2) p).
Proof.
  intros Hev Hk. unfold build_fat_tree. rewrite params_valid by assumption.
  cbn [num_core_switches num_pods k_half].
  set (kh := k / 2). assert (Hkh : 0 <= kh) by (subst kh; apply Z.div_pos; lia).
  rewrite core_loop.
  cbn [bind b_G core_switches pod_switches_data current_host_idx app].
  destruct (pod_loop kh (Z.to_nat k) 0
              (Build_builder (run (core_ops (range (kh * kh))) empty_graph)
                 (map core_id (range (kh * kh))) [] 0))
    as (d & E & Hin & _); [assumption|reflexivity|].
  fold (range k) in E, Hin. rewrite E. cbn [bind b_G core_switches].
  cbn [pod_switches_data current_host_idx] in *.
  rewrite (for_each_ops (wiring kh (map core_id (range (kh * kh))) d)
             _ _ (wire_ops kh)); auto using wiring_set_G.
  - cbn [bind set_G b_G pod_switches_data]. exists d. split.
    + do 2 f_equal; unfold fat_tree, fat_tree_ops; fold kh;
        now rewrite !run_app.
    + intros p Hp. apply Hin. now apply in_range.
  - intros st' p Hst' Hp. apply wire_run with (d := d); auto.
  - split; reflexivity.
Qed.

(** ** What the graph operations do to the tables *)

(** The adjacency row of [u], as [G[u]] shows it. *)
Definition row (G : Graph) (u : string) : dict string edge_attrs :=
  adj_row (g_adj G) u.

(** Every key of the adjacency table is a node. *)
Definition adj_in_nodes (G : Graph) : Prop :=
  forall u, dict_get (g_node G) u = None -> dict_get (g_adj G) u = None.

Lemma node_attrs_update_no (a : node_attrs) :
  node_attrs_update no_node_attrs a = a.
Proof. destruct a as [[t|] [p|] [e|]]; reflexivity. Qed.

Lemma adj_row_set adj (k : string) r (w : string) :
  adj_row (dict_set adj k r) w = if String.eqb k w then r else adj_row adj w.
Proof.
  unfold adj_row. destruct (String.eqb_spec k w) as [->|Hkw].
  - now rewrite dict_get_set_eq.
  - now rewrite dict_get_set_neq.
Qed.

Lemma add_node_fresh (G : Graph) (n : string) (a : node_attrs) :
  adj_in_nodes G -> dict_get (g_node G) n = None ->
  g_node (add_node G n a) = g_node G ++ [(n, a)]
  /\ (forall w, row (add_node G n a) w = row G w)
  /\ adj_in_nodes (add_node G n a).
Proof.
  intros Hinv Hn. unfold add_node. rewrite Hn. cbn [with_tables g_node g_adj].
  rewrite node_attrs_update_no. split; [now apply dict_set_new|]. split.
  - intros w. unfold row. cbn [with_tables g_adj]. rewrite adj_row_set.
    destruct (String.eqb_spec n w) as [<-|Hnw]; [|reflexivity].
    unfold adj_row. now rewrite (Hinv n Hn).
  - intros u. cbn [with_tables g_node g_adj].
    destruct (String.eqb_spec n u) as [<-|Hnu].
    + rewrite dict_get_set_eq. discriminate.
    + rewrite !dict_get_set_neq by assumption. apply Hinv.
Qed.

Lemma ensure_node_present (G : Graph) (u : string) :
  has_node G u = true -> ensure_node G u = G.
Proof. unfold ensure_node, has_node. now intros ->. Qed.

Lemma add_edge_fresh (G : Graph) (u v : string) (l : layer) :
  adj_in_nodes G ->
  has_node G u = true -> has_node G v = true -> u <> v ->
  dict_get (row G u) v = None -> dict_get (row G v) u = None ->
  g_node (add_edge G u v (Some l)) = g_node G
  /\ (forall w, row (add_edge G u v (Some l)) w =
                row G w ++ (if String.eqb w u then [(v, Some l)]
                            else if String.eqb w v then [(u, Some l)]
                            else []))
  /\ adj_in_nodes (add_edge G u v (Some l)).
Proof.
  intros Hinv Hu Hv Huv Hruv Hrvu. unfold add_edge.
  rewrite (ensure_node_present G u Hu), (ensure_node_present G v Hv).
  fold (row G u). rewrite Hruv. cbn [edge_attrs_update or_else].
  cbn [with_tables g_node g_adj]. split; [reflexivity|]. split.
  - intros w. unfold row. cbn [with_tables g_adj].
    rewrite !adj_row_set.
    rewrite (proj2 (String.eqb_neq u v) Huv).
    fold (row G v) (row G u) (row G w).
    rewrite (String.eqb_sym w v), (String.eqb_sym w u).
    destruct (String.eqb_spec v w) as [<-|Hvw].
    + rewrite (proj2 (String.eqb_neq u v) Huv). now apply dict_set_new.
    + destruct (String.eqb_spec u w) as [<-|Huw].
      * now apply dict_set_new.
      * now rewrite app_nil_r.
  - intros w Hw. cbn [with_tables g_node g_adj] in *.
    assert (Hwu : u <> w).
    { intros ->. unfold has_node, dict_mem in Hu. now rewrite Hw in Hu. }
    assert (Hwv : v <> w).
    { intros ->. unfold has_node, dict_mem in Hv. now rewrite Hw in Hv. }
    rewrite !dict_get_set_neq by assumption. now apply Hinv.
Qed.

Definition op_entries (o : op) : list (string * node_attrs) :=
  match o with
  | AddNode n a => [(n, a)]
  | AddEdge _ _ _ => []
  end.

Definition op_incident (w : string) (o : op) : list (string * edge_attrs) :=
  match o with
  | AddNode _ _ => []
  | AddEdge u v l =>
      if String.eqb w u then [(v, Some l)]
      else if String.eqb w v then [(u, Some l)]
      else []
  end.

Definition op_pairs (o : op) : list (string * string) :=
  match o with
  | AddNode _ _ => []
  | AddEdge u v _ => [(u, v)]
  end.

(** The node entries, the row of [w] and the linked pairs a list of
    operations contributes. *)
Definition entries (ops : list op) := flat_map op_entries ops.
Definition incident (w : string) (ops : list op) := flat_map (op_incident w) ops.
Definition pairs (ops : list op) := flat_map op_pairs ops.
Definition names (ops : list op) : list string := dict_keys (entries ops).

(** Operations that name every node once, link every pair once, and link
    only nodes added before. *)
Record ops_wf (ops : list op) : Prop := {
  wf_names : NoDup (names ops);
  wf_pairs : NoDup (pairs ops);
  wf_no_reverse : forall u v, In (u, v) (pairs ops) -> ~ In (v, u) (pairs ops);
  wf_closed : forall pre u v l post,
      ops = pre ++ AddEdge u v l :: post ->
      In u (names pre) /\ In v (names pre)
}.

Lemma names_app (a b : list op) : names (a ++ b) = names a ++ names b.
Proof. unfold names, entries, dict_keys. now rewrite flat_map_app, map_app. Qed.

Lemma pairs_app (a b : list op) : pairs (a ++ b) = pairs a ++ pairs b.
Proof. unfold pairs. now rewrite flat_map_app. Qed.

Lemma incident_app w (a b : list op) :
  incident w (a ++ b) = incident w a ++ incident w b.
Proof. unfold incident. now rewrite flat_map_app. Qed.

Lemma entries_app (a b : list op) : entries (a ++ b) = entries a ++ entries b.
Proof. unfold entries. now rewrite flat_map_app. Qed.

Lemma incident_pairs (w v : string) (ops : list op) :
  In v (dict_keys (incident w ops)) ->
  In (w, v) (pairs ops) \/ In (v, w) (pairs ops).
Proof.
  unfold incident, pairs, dict_keys. rewrite in_map_iff.
  intros ([v' a] & <- & Hin). apply in_flat_map in Hin.
  destruct Hin as ([n a'|x y l] & Ho & Hin); cbn in Hin; [contradiction|].
  destruct (String.eqb_spec w x) as [->|Hwx].
  - destruct Hin as [[= <- <-]|[]]. left. apply in_flat_map.
    eexists. split; [exact Ho|now left].
  - destruct (String.eqb_spec w y) as [->|Hwy]; [|contradiction].
    destruct Hin as [[= <- <-]|[]]. right. apply in_flat_map.
    eexists. split; [exact Ho|now left].
Qed.

Lemma run_wf_from (ops : list op) :
  ops_wf ops ->
  forall todo pre G,
    ops = pre ++ todo ->
    g_node G = entries pre ->
    (forall w, row G w = incident w pre) ->
    adj_in_nodes G ->
    g_node (run todo G) = entries ops
    /\ (forall w, row (run todo G) w = incident w ops).
Proof.
  intros Hwf. induction todo as [|o todo IH]; intros pre G Hops Hn Hr Hinv.
  - rewrite app_nil_r in Hops. subst pre. now split.
  - rewrite run_cons.
    assert (Hops' : ops = (pre ++ [o]) ++ todo)
      by (now rewrite <- app_assoc).
    destruct o as [n a|u v l]; cbn [apply_op].
    + assert (Hfresh : dict_get (g_node G) n = None).
      { apply dict_get_None. rewrite Hn. fold (names pre).
        pose proof (wf_names ops Hwf) as Hnd.
        rewrite Hops, names_app in Hnd. cbn in Hnd.
        apply NoDup_remove_2 in Hnd. intros Hin. apply Hnd.
        apply in_or_app. now left. }
      destruct (add_node_fresh G n a Hinv Hfresh) as (Hn' & Hr' & Hinv').
      apply (IH (pre ++ [AddNode n a])); auto.
      * rewrite Hn', Hn, entries_app. cbn. reflexivity.
      * intros w. rewrite Hr', Hr, incident_app. cbn. now rewrite app_nil_r.
    + destruct (wf_closed ops Hwf pre u v l todo Hops) as [Hu Hv].
      pose proof (wf_pairs ops Hwf) as Hnd.
      rewrite Hops, pairs_app in Hnd. cbn in Hnd.
      pose proof (NoDup_remove_2 _ _ _ Hnd) as Hnew.
      assert (Huv_in : In (u, v) (pairs ops)).
      { rewrite Hops, pairs_app. apply in_or_app. right. now left. }
      pose proof (wf_no_reverse ops Hwf u v Huv_in) as Hrev.
      assert (Huv : u <> v) by (intros ->; contradiction).
      assert (Hpre : forall x y, In (x, y) (pairs pre) -> In (x, y) (pairs ops)).
      { intros x y Hxy. rewrite Hops, pairs_app. apply in_or_app. now left. }
      assert (Hruv : dict_get (row G u) v = None).
      { apply dict_get_None. rewrite Hr. intros Hin.
        apply incident_pairs in Hin. destruct Hin as [Hin|Hin].
        - apply Hnew. apply in_or_app. now left.
        - apply Hrev. now apply Hpre. }
      assert (Hrvu : dict_get (row G v) u = None).
      { apply dict_get_None. rewrite Hr. intros Hin.
        apply incident_pairs in Hin. destruct Hin as [Hin|Hin].
        - apply Hrev. now apply Hpre.
        - apply Hnew. apply in_or_app. now left. }
      assert (Hnu : has_node G u = true).
      { unfold has_node. apply dict_mem_true. now rewrite Hn. }
      assert (Hnv : has_node G v = true).
      { unfold has_node. apply dict_mem_true. now rewrite Hn. }
      destruct (add_edge_fresh G u v l Hinv Hnu Hnv Huv Hruv Hrvu)
        as (Hn' & Hr' & Hinv').
      apply (IH (pre ++ [AddEdge u v l])); auto.
      * rewrite Hn', Hn, entries_app. cbn. now rewrite app_nil_r.
      * intros w. rewrite Hr', Hr, incident_app. cbn. now rewrite app_nil_r.
Qed.

Lemma run_wf (ops : list op) :
  ops_wf ops ->
  g_node (run ops empty_graph) = entries ops
  /\ (forall w, row (run ops empty_graph) w = incident w ops).
Proof.
  intros Hwf. apply (run_wf_from ops Hwf ops [] empty_graph); auto.
  intros u _. reflexivity.
Qed.

(** ** List algebra for the nested loops *)

Lemma flat_map_flat_map {A B C} (f : B -> list C) (g : A -> list B) (l : list A) :
  flat_map f (flat_map g l) = flat_map (fun x => flat_map f (g x)) l.
Proof.
  induction l as [|a l IH]; simpl; [reflexivity|].
  now rewrite flat_map_app, IH.
Qed.

Lemma flat_map_ext_in {A B} (f g : A -> list B) (l : list A) :
  (forall x, In x l -> f x = g x) -> flat_map f l = flat_map g l.
Proof.
  induction l as [|a l IH]; intros Hfg; simpl; [reflexivity|].
  rewrite Hfg by now left. f_equal. apply IH. intros x Hx. apply Hfg. now right.
Qed.

Lemma flat_map_nil {A B} (f : A -> list B) (l : list A) :
  (forall x, In x l -> f x = []) -> flat_map f l = [].
Proof.
  induction l as [|a l IH]; intros Hf; simpl; [reflexivity|].
  rewrite Hf by now left. apply IH. intros x Hx. apply Hf. now right.
Qed.

Lemma flat_map_app_fun {A B} (f g : A -> list B) (l : list A) :
  (forall x, In x l -> g x = []) ->
  flat_map (fun x => f x ++ g x) l = flat_map f l.
Proof.
  intros Hg. apply flat_map_ext_in. intros x Hx.
  now rewrite Hg, app_nil_r.
Qed.

(** A loop in which one iteration only contributes. *)
Lemma flat_map_hit {B} (g : Z -> list B) (i : Z) (l : list Z) :
  NoDup l -> In i l ->
  flat_map (fun x => if x =? i then g x else []) l = g i.
Proof.
  induction l as [|a l IH]; intros Hnd Hin; [contradiction|].
  inversion Hnd as [|? ? Hna Hnd']; subst. simpl.
  destruct (Z.eqb_spec a i) as [->|Hai].
  - rewrite flat_map_nil; [now rewrite app_nil_r|].
    intros x Hx. destruct (Z.eqb_spec x i) as [->|]; [contradiction|reflexivity].
  - destruct Hin as [->|Hin]; [contradiction|]. now apply IH.
Qed.

Lemma flat_map_hit_range {B} (g : Z -> list B) (i n : Z) :
  0 <= i < n ->
  flat_map (fun x => if x =? i then g x else []) (range n) = g i.
Proof.
  intros Hi. apply flat_map_hit; [apply NoDup_range|now apply in_range].
Qed.

Lemma flat_map_miss {B} (g : Z -> list B) (i : Z) (l : list Z) :
  ~ In i l -> flat_map (fun x => if x =? i then g x else []) l = [].
Proof.
  intros Hni. apply flat_map_nil. intros x Hx.
  destruct (Z.eqb_spec x i) as [->|]; [contradiction|reflexivity].
Qed.

(** Two nested loops over [range n] and [range m] visit [i * m + j] in
    increasing order. *)
Lemma flat_map_block {B} (g : Z -> Z -> list B) (n m : Z) :
  0 <= m ->
  flat_map (fun i => flat_map (fun j => g i (i * m + j)) (range m)) (range n)
  = flat_map (fun x => g (x / m) x) (range (n * m)).
Proof.
  intros Hm. destruct (Z.le_gt_cases n 0) as [Hn|Hn].
  - rewrite (range_nonpos n), (range_nonpos (n * m)) by nia. reflexivity.
  - assert (H : forall a : nat,
               flat_map (fun i => flat_map (fun j => g i (i * m + j)) (range m))
                 (range (Z.of_nat a))
               = flat_map (fun x => g (x / m) x) (range (Z.of_nat a * m))).
    { induction a as [|a IH].
      - reflexivity.
      - rewrite Nat2Z.inj_succ, <- Z.add_1_r, range_succ by lia.
        rewrite flat_map_app, IH. cbn [flat_map]. rewrite app_nil_r.
        replace ((Z.of_nat a + 1) * m) with (Z.of_nat a * m + m) by lia.
        assert (Hsplit : forall b : nat,
                   range (Z.of_nat a * m + Z.of_nat b)
                   = range (Z.of_nat a * m)
                     ++ map (fun j => Z.of_nat a * m + j) (range (Z.of_nat b))).
        { induction b as [|b IHb].
          - rewrite Z.add_0_r. cbn. now rewrite app_nil_r.
          - rewrite Nat2Z.inj_succ, <- Z.add_1_r, Z.add_assoc.
            rewrite !range_succ by nia. rewrite IHb, map_app, app_assoc.
            reflexivity. }
        specialize (Hsplit (Z.to_nat m)). rewrite Z2Nat.id in Hsplit by lia.
        rewrite Hsplit, flat_map_app, flat_map_map. f_equal.
        apply flat_map_ext_in. intros j Hj. apply in_range in Hj.
        f_equal. apply Z.div_unique with (r := j); lia. }
    specialize (H (Z.to_nat n)). now rewrite Z2Nat.id in H by lia.
Qed.

Lemma NoDup_flat_map {A B} (f : A -> list B) (l : list A) :
  NoDup l ->
  (forall x, In x l -> NoDup (f x)) ->
  (forall x y b, In x l -> In y l -> In b (f x) -> In b (f y) -> x = y) ->
  NoDup (flat_map f l).
Proof.
  induction l as [|a l IH]; intros Hnd Hf Hdisj; simpl; [constructor|].
  inversion Hnd as [|? ? Hna Hnd']; subst.
  apply NoDup_app.
  - apply Hf. now left.
  - apply IH; auto.
    + intros x Hx. apply Hf. now right.
    + intros x y b Hx Hy. apply Hdisj; now right.
  - intros b Hb Hb'. apply in_flat_map in Hb'. destruct Hb' as (y & Hy & Hby).
    assert (a = y) by (apply (Hdisj a y b); auto; [now left|now right]).
    subst. contradiction.
Qed.

Lemma NoDup_map_inj {A B} (f : A -> B) (l : list A) :
  (forall x y, In x l -> In y l -> f x = f y -> x = y) ->
  NoDup l -> NoDup (map f l).
Proof.
  induction l as [|a l IH]; intros Hinj Hnd; simpl; [constructor|].
  inversion Hnd as [|? ? Hna Hnd']; subst. constructor.
  - rewrite in_map_iff. intros (x & E & Hx).
    assert (x = a) by (apply Hinj; auto; [now right|now left]).
    subst. contradiction.
  - apply IH; auto. intros x y Hx Hy. apply Hinj; now right.
Qed.

(** ** The operations of the fat tree, by kind *)

(** The kind of node an identifier of the scheme names: its first letter. *)
Definition kind (n : string) : option node_type :=
  match n with
  | String "C" _ => Some core
  | String "A" _ => Some agg
  | String "E" _ => Some edge
  | String "H" _ => Some host
  | _ => None
  end.

Definition okind_eqb (a b : option node_type) : bool :=
  match a, b with
  | Some x, Some y => node_type_eqb x y
  | None, None => true
  | _, _ => false
  end.

Lemma okind_eqb_eq (a b : option node_type) : okind_eqb a b = true <-> a = b.
Proof.
  destruct a as [[]|], b as [[]|]; cbn; split; congruence.
Qed.

Lemma kind_core c : kind (core_id c) = Some core. Proof. reflexivity. Qed.
Lemma kind_agg p a : kind (agg_id p a) = Some agg. Proof. reflexivity. Qed.
Lemma kind_edge p e : kind (edge_id p e) = Some edge. Proof. reflexivity. Qed.
Lemma kind_host h : kind (host_id h) = Some host. Proof. reflexivity. Qed.

Lemma kind_neq (a b : string) : kind a <> kind b -> String.eqb a b = false.
Proof. intros Hk. apply String.eqb_neq. congruence. Qed.

Lemma core_id_eqb c c' : String.eqb (core_id c) (core_id c') = (c =? c').
Proof.
  destruct (Z.eqb_spec c c') as [->|Hc]; [apply String.eqb_refl|].
  apply String.eqb_neq. intros E. now apply core_id_inj in E.
Qed.

Lemma host_id_eqb h h' : String.eqb (host_id h) (host_id h') = (h =? h').
Proof.
  destruct (Z.eqb_spec h h') as [->|Hc]; [apply String.eqb_refl|].
  apply String.eqb_neq. intros E. now apply host_id_inj in E.
Qed.

Lemma agg_id_eqb p a p' a' :
  String.eqb (agg_id p a) (agg_id p' a') = (p =? p') && (a =? a').
Proof.
  destruct (Z.eqb_spec p p') as [->|Hp]; [destruct (Z.eqb_spec a a') as [->|Ha]|];
    cbn [andb]; [apply String.eqb_refl| |];
    apply String.eqb_neq; intros E; apply agg_id_inj in E; tauto.
Qed.

Lemma edge_id_eqb p e p' e' :
  String.eqb (edge_id p e) (edge_id p' e') = (p =? p') && (e =? e').
Proof.
  destruct (Z.eqb_spec p p') as [->|Hp]; [destruct (Z.eqb_spec e e') as [->|He]|];
    cbn [andb]; [apply String.eqb_refl| |];
    apply String.eqb_neq; intros E; apply edge_id_inj in E; tauto.
Qed.

Lemma core_agg_eqb c p a : String.eqb (core_id c) (agg_id p a) = false.
Proof. reflexivity. Qed.
Lemma core_edge_eqb c p e : String.eqb (core_id c) (edge_id p e) = false.
Proof. reflexivity. Qed.
Lemma core_host_eqb c h : String.eqb (core_id c) (host_id h) = false.
Proof. reflexivity. Qed.
Lemma agg_core_eqb p a c : String.eqb (agg_id p a) (core_id c) = false.
Proof. reflexivity. Qed.
Lemma agg_edge_eqb p a q e : String.eqb (agg_id p a) (edge_id q e) = false.
Proof. reflexivity. Qed.
Lemma agg_host_eqb p a h : String.eqb (agg_id p a) (host_id h) = false.
Proof. reflexivity. Qed.
Lemma edge_core_eqb p e c : String.eqb (edge_id p e) (core_id c) = false.
Proof. reflexivity. Qed.
Lemma edge_agg_eqb p e q a : String.eqb (edge_id p e) (agg_id q a) = false.
Proof. reflexivity. Qed.
Lemma edge_host_eqb p e h : String.eqb (edge_id p e) (host_id h) = false.
Proof. reflexivity. Qed.
Lemma host_core_eqb h c : String.eqb (host_id h) (core_id c) = false.
Proof. reflexivity. Qed.
Lemma host_agg_eqb h p a : String.eqb (host_id h) (agg_id p a) = false.
Proof. reflexivity. Qed.
Lemma host_edge_eqb h p e : String.eqb (host_id h) (edge_id p e) = false.
Proof. reflexivity. Qed.

Create Rewrite HintDb ids.
#[global] Hint Rewrite core_id_eqb host_id_eqb agg_id_eqb edge_id_eqb
  core_agg_eqb core_edge_eqb core_host_eqb agg_core_eqb agg_edge_eqb
  agg_host_eqb edge_core_eqb edge_agg_eqb edge_host_eqb host_core_eqb
  host_agg_eqb host_edge_eqb kind_core kind_agg kind_edge kind_host : ids.

#[global] Opaque core_id agg_id edge_id host_id.

(** The operations for [k] pods of [kh] switches per tier. *)
Definition tree_ops (kh k : Z) : list op :=
  core_ops (range (kh * kh))
  ++ flat_map (pod_ops kh) (range k)
  ++ flat_map (wire_ops kh) (range k).

Lemma fat_tree_ops_eq (k : Z) : fat_tree_ops k = tree_ops (k / 2) k.
Proof. reflexivity. Qed.

(** The host number of host [j] of edge switch [e] of pod [p]. *)
Definition host_no (kh p e j : Z) : Z := (p * kh + e) * kh + j.

(** A function summed over the operations of the fat tree, loop by loop. *)
Lemma flat_map_tree_ops {X} (f : op -> list X) (kh k : Z) :
  flat_map f (tree_ops kh k) =
    flat_map (fun c => f (AddNode (core_id c) (attrs core (-1) None)))
      (range (kh * kh))
    ++ flat_map (fun p =>
         flat_map (fun a => f (AddNode (agg_id p a) (attrs agg p None)))
           (range kh)
         ++ flat_map (fun e =>
              f (AddNode (edge_id p e) (attrs edge p None))
              ++ flat_map (fun j =>
                   f (AddNode (host_id (host_no kh p e j))
                        (attrs host p (Some (edge_id p e))))
                   ++ f (AddEdge (edge_id p e) (host_id (host_no kh p e j))
                           edge_host))
                   (range kh))
              (range kh))
         (range k)
    ++ flat_map (fun p =>
         flat_map (fun a =>
            flat_map (fun e => f (AddEdge (agg_id p a) (edge_id p e) agg_edge))
              (range kh))
           (range kh)
         ++ flat_map (fun a =>
              flat_map (fun off =>
                 f (AddEdge (agg_id p a) (core_id (a * kh + off)) agg_core))
                (range kh))
              (range kh))
         (range k).
Proof.
  unfold tree_ops. rewrite !flat_map_app, !flat_map_flat_map.
  unfold core_ops. rewrite flat_map_map. f_equal. f_equal.
  - apply flat_map_ext_in. intros p _. unfold pod_ops, agg_ops.
    rewrite flat_map_app, flat_map_map, flat_map_flat_map. f_equal.
    apply flat_map_ext_in. intros e _. unfold edge_ops, host_ops.
    cbn [flat_map]. f_equal.
    rewrite flat_map_flat_map, flat_map_map.
    apply flat_map_ext_in. intros j _. cbn [flat_map].
    now rewrite app_nil_r.
  - apply flat_map_ext_in. intros p _. unfold wire_ops, stripe_ops, link_ops.
    rewrite flat_map_app, !flat_map_flat_map. f_equal.
    + apply flat_map_ext_in. intros a _. now rewrite !flat_map_map.
    + apply flat_map_ext_in. intros a _. now rewrite !flat_map_map.
Qed.

Lemma flat_map_id {A} (l : list A) : flat_map (fun x => [x]) l = l.
Proof. induction l as [|a l IH]; simpl; [reflexivity|]. now rewrite IH. Qed.

(** The seven shapes an operation of the fat tree has. *)
Inductive tree_op (kh k : Z) : op -> Prop :=
| op_core c : 0 <= c < kh * kh ->
    tree_op kh k (AddNode (core_id c) (attrs core (-1) None))
| op_agg p a : 0 <= p < k -> 0 <= a < kh ->
    tree_op kh k (AddNode (agg_id p a) (attrs agg p None))
| op_edge p e : 0 <= p < k -> 0 <= e < kh ->
    tree_op kh k (AddNode (edge_id p e) (attrs edge p None))
| op_host p e j : 0 <= p < k -> 0 <= e < kh -> 0 <= j < kh ->
    tree_op kh k (AddNode (host_id (host_no kh p e j))
                    (attrs host p (Some (edge_id p e))))
| op_edge_host p e j : 0 <= p < k -> 0 <= e < kh -> 0 <= j < kh ->
    tree_op kh k (AddEdge (edge_id p e) (host_id (host_no kh p e j)) edge_host)
| op_agg_edge p a e : 0 <= p < k -> 0 <= a < kh -> 0 <= e < kh ->
    tree_op kh k (AddEdge (agg_id p a) (edge_id p e) agg_edge)
| op_agg_core p a off : 0 <= p < k -> 0 <= a < kh -> 0 <= off < kh ->
    tree_op kh k (AddEdge (agg_id p a) (core_id (a * kh + off)) agg_core).

Lemma tree_ops_in (kh k : Z) (o : op) :
  In o (tree_ops kh k) -> tree_op kh k o.
Proof.
  rewrite <- (flat_map_id (tree_ops kh k)), flat_map_tree_ops.
  rewrite !in_app_iff, !in_flat_map.
  intros [(c & Hc & Ho)|[(p & Hp & Ho)|(p & Hp & Ho)]].
  - apply in_range in Hc. destruct Ho as [<-|[]]. now constructor.
  - apply in_range in Hp. rewrite in_app_iff, !in_flat_map in Ho.
    destruct Ho as [(a & Ha & Ho)|(e & He & Ho)].
    + apply in_range in Ha. destruct Ho as [<-|[]]. now constructor.
    + apply in_range in He. cbn [app] in Ho. destruct Ho as [<-|Ho].
      * now constructor.
      * apply in_flat_map in Ho. destruct Ho as (j & Hj & Ho).
        apply in_range in Hj.
        destruct Ho as [<-|[<-|[]]]; now constructor.
  - apply in_range in Hp. rewrite in_app_iff, !in_flat_map in Ho.
    destruct Ho as [(a & Ha & Ho)|(a & Ha & Ho)];
      apply in_range in Ha; apply in_flat_map in Ho;
      destruct Ho as (x & Hx & Ho); apply in_range in Hx;
      destruct Ho as [<-|[]]; now constructor.
Qed.

Lemma filter_flat_map {A B} (g : B -> bool) (f : A -> list B) (l : list A) :
  filter g (flat_map f l) = flat_map (fun x => filter g (f x)) l.
Proof.
  induction l as [|a l IH]; simpl; [reflexivity|].
  now rewrite filter_app, IH.
Qed.

Lemma map_flat_map {A B C} (g : B -> C) (f : A -> list B) (l : list A) :
  map g (flat_map f l) = flat_map (fun x => map g (f x)) l.
Proof.
  induction l as [|a l IH]; simpl; [reflexivity|].
  now rewrite map_app, IH.
Qed.

#[global] Instance flat_map_Proper {A B} :
  Proper (pointwise_relation A eq ==> eq ==> eq) (@flat_map A B).
Proof. intros f g Hfg l l' <-. apply flat_map_ext_in. intros x _. apply Hfg. Qed.

(** A list is duplicate-free when each of its kinds is. *)
Lemma NoDup_by_kind {A} (kd : A -> option node_type) (l : list A) :
  (forall t, NoDup (filter (fun x => okind_eqb (kd x) t) l)) -> NoDup l.
Proof.
  induction l as [|a l IH]; intros Hk; [constructor|]. constructor.
  - intros Hin. specialize (Hk (kd a)). cbn [filter] in Hk.
    rewrite (proj2 (okind_eqb_eq _ _) eq_refl) in Hk.
    inversion Hk as [|? ? Hni _]; subst. apply Hni.
    apply filter_In. split; [assumption|now apply okind_eqb_eq].
  - apply IH. intros t. specialize (Hk t). cbn [filter] in Hk.
    destruct (okind_eqb (kd a) t); [now inversion Hk|assumption].
Qed.

(** The node names of the fat tree of one kind, in the order they are
    added. *)
Definition names_of_kind (kh k : Z) (t : option node_type) : list string :=
  match t with
  | Some core => map core_id (range (kh * kh))
  | Some agg => flat_map (fun p => map (agg_id p) (range kh)) (range k)
  | Some edge => flat_map (fun p => map (edge_id p) (range kh)) (range k)
  | Some host => map host_id (range (k * kh * kh))
  | None => []
  end.

Lemma names_tree_ops (kh k : Z) :
  names (tree_ops kh k) =
    flat_map (fun o => dict_keys (op_entries o)) (tree_ops kh k).
Proof. unfold names, entries, dict_keys. apply map_flat_map. Qed.

Lemma host_no_block (kh p e j : Z) :
  0 <= kh -> 0 <= e < kh -> 0 <= j < kh ->
  host_no kh p e j / kh = p * kh + e /\ (p * kh + e) / kh = p.
Proof.
  intros Hkh He Hj. unfold host_no. split; symmetry.
  - apply Z.div_unique with (r := j); lia.
  - apply Z.div_unique with (r := e); lia.
Qed.

Lemma host_no_div (kh h : Z) :
  0 < kh -> host_no kh (h / kh / kh) (h / kh mod kh) (h mod kh) = h.
Proof.
  intros Hkh. unfold host_no.
  pose proof (Z.div_mod h kh) as E1.
  pose proof (Z.div_mod (h / kh) kh) as E2.
  rewrite (Z.mul_comm (h / kh / kh) kh), <- E2 by lia.
  rewrite (Z.mul_comm (h / kh) kh), <- E1 by lia. reflexivity.
Qed.

(** The hosts of all pods and edge switches, in creation order, are
    numbered [0, 1, 2, ...]. *)
Lemma flat_map_hosts {B} (g : Z -> Z -> Z -> list B) (kh k : Z) :
  0 <= kh ->
  flat_map (fun p =>
    flat_map (fun e =>
      flat_map (fun j => g p e (host_no kh p e j)) (range kh)) (range kh))
    (range k)
  = flat_map (fun h => g (h / kh / kh) (h / kh mod kh) h) (range (k * kh * kh)).
Proof.
  intros Hkh.
  rewrite <- (flat_map_block (fun pe h => g (pe / kh) (pe mod kh) h) (k * kh) kh)
    by assumption.
  rewrite <- (flat_map_block
                (fun p pe => flat_map
                   (fun j => g (pe / kh) (pe mod kh) (pe * kh + j)) (range kh))
                k kh) by assumption.
  apply flat_map_ext_in. intros p _.
  apply flat_map_ext_in. intros e He. apply in_range in He.
  apply flat_map_ext_in. intros j _. unfold host_no. f_equal.
  - apply Z.div_unique with (r := e); lia.
  - apply Z.mod_unique with (q := p); lia.
Qed.

Lemma flat_map_const_nil {A B} (l : list A) :
  flat_map (fun _ => @nil B) l = [].
Proof. now apply flat_map_nil. Qed.

Create Rewrite HintDb lists.
#[global] Hint Rewrite @flat_map_const_nil @app_nil_r @app_nil_l
  @flat_map_single : lists.

Lemma filter_kind_names (kh k : Z) (t : option node_type) :
  0 <= kh ->
  filter (fun n => okind_eqb (kind n) t) (names (tree_ops kh k))
  = names_of_kind kh k t.
Proof.
  intros Hkh. rewrite names_tree_ops, filter_flat_map, flat_map_tree_ops.
  cbn [op_entries dict_keys map fst filter app].
  rewrite_strat (topdown (hints ids)).
  destruct t as [[]|]; cbn [okind_eqb node_type_eqb names_of_kind app];
    rewrite_strat (bottomup (hints lists)).
  - reflexivity.
  - reflexivity.
  - reflexivity.
  - rewrite (flat_map_hosts (fun _ _ h => [host_id h])) by assumption.
    apply flat_map_single.
  - reflexivity.
Qed.

Ltac inj_ids :=
  repeat match goal with
    | H : (_, _) = (_, _) |- _ =>
        let H1 := fresh in
        let H2 := fresh in
        pose proof (f_equal fst H) as H1; pose proof (f_equal snd H) as H2;
        cbn [fst snd] in H1, H2; clear H
    | H : agg_id _ _ = agg_id _ _ |- _ => apply agg_id_inj in H; destruct H
    | H : edge_id _ _ = edge_id _ _ |- _ => apply edge_id_inj in H; destruct H
    | H : core_id _ = core_id _ |- _ => apply core_id_inj in H
    | H : host_id _ = host_id _ |- _ => apply host_id_inj in H
    end.

Ltac in_lists :=
  repeat match goal with
    | H : In _ (map _ _) |- _ =>
        apply in_map_iff in H; destruct H as (? & ? & H)
    | H : In _ (flat_map _ _) |- _ =>
        apply in_flat_map in H; destruct H as (? & ? & H)
    | H : In _ (range _) |- _ => apply in_range in H
    end.

Lemma NoDup_names_of_kind (kh k : Z) (t : option node_type) :
  NoDup (names_of_kind kh k t).
Proof.
  destruct t as [[]|]; cbn [names_of_kind].
  - apply NoDup_map_inj; [|apply NoDup_range].
    intros x y _ _ E. now inj_ids.
  - apply NoDup_flat_map; [apply NoDup_range| |].
    + intros p _. apply NoDup_map_inj; [|apply NoDup_range].
      intros x y _ _ E. now inj_ids.
    + intros p q b _ _ Hp Hq. in_lists. subst b. now inj_ids.
  - apply NoDup_flat_map; [apply NoDup_range| |].
    + intros p _. apply NoDup_map_inj; [|apply NoDup_range].
      intros x y _ _ E. now inj_ids.
    + intros p q b _ _ Hp Hq. in_lists. subst b. now inj_ids.
  - apply NoDup_map_inj; [|apply NoDup_range].
    intros x y _ _ E. now inj_ids.
  - constructor.
Qed.

Lemma NoDup_names_tree_ops (kh k : Z) : 0 <= kh -> NoDup (names (tree_ops kh k)).
Proof.
  intros Hkh. apply (NoDup_by_kind kind). intros t.
  rewrite filter_kind_names by assumption. apply NoDup_names_of_kind.
Qed.

(** The linked pairs of the fat tree whose second end is of one kind, in
    the order they are linked. *)
Definition pairs_of_kind (kh k : Z) (t : option node_type)
  : list (string * string) :=
  match t with
  | Some host =>
      flat_map (fun h => [(edge_id (h / kh / kh) (h / kh mod kh), host_id h)])
        (range (k * kh * kh))
  | Some edge =>
      flat_map (fun p =>
        flat_map (fun a =>
          flat_map (fun e => [(agg_id p a, edge_id p e)]) (range kh))
          (range kh))
        (range k)
  | Some core =>
      flat_map (fun p =>
        flat_map (fun a =>
          flat_map (fun off => [(agg_id p a, core_id (a * kh + off))])
            (range kh))
          (range kh))
        (range k)
  | _ => []
  end.

Lemma filter_kind_pairs (kh k : Z) (t : option node_type) :
  0 <= kh ->
  filter (fun uv => okind_eqb (kind (snd uv)) t) (pairs (tree_ops kh k))
  = pairs_of_kind kh k t.
Proof.
  intros Hkh. unfold pairs. rewrite filter_flat_map, flat_map_tree_ops.
  cbn [op_pairs filter snd app].
  rewrite_strat (topdown (hints ids)).
  destruct t as [[]|]; cbn [okind_eqb node_type_eqb pairs_of_kind app];
    rewrite_strat (bottomup (hints lists)).
  - reflexivity.
  - reflexivity.
  - reflexivity.
  - apply (flat_map_hosts (fun p e h => [(edge_id p e, host_id h)])).
    assumption.
  - reflexivity.
Qed.

Lemma NoDup_pairs_of_kind (kh k : Z) (t : option node_type) :
  NoDup (pairs_of_kind kh k t).
Proof.
  destruct t as [[]|]; cbn [pairs_of_kind]; try constructor.
  - apply NoDup_flat_map; [apply NoDup_range| |].
    + intros p _. apply NoDup_flat_map; [apply NoDup_range| |].
      * intros a _. rewrite flat_map_single.
        apply NoDup_map_inj; [|apply NoDup_range].
        intros x y _ _ E. inj_ids. lia.
      * intros a a' b _ _ Ha Ha'. in_lists.
        destruct Ha as [<-|[]], Ha' as [E|[]]. now inj_ids.
    + intros p q b _ _ Hp Hq. in_lists.
      destruct Hp as [<-|[]], Hq as [E|[]]. now inj_ids.
  - apply NoDup_flat_map; [apply NoDup_range| |].
    + intros p _. apply NoDup_flat_map; [apply NoDup_range| |].
      * intros a _. rewrite flat_map_single.
        apply NoDup_map_inj; [|apply NoDup_range].
        intros x y _ _ E. now inj_ids.
      * intros a a' b _ _ Ha Ha'. in_lists.
        destruct Ha as [<-|[]], Ha' as [E|[]]. now inj_ids.
    + intros p q b _ _ Hp Hq. in_lists.
      destruct Hp as [<-|[]], Hq as [E|[]]. now inj_ids.
  - rewrite flat_map_single. apply NoDup_map_inj; [|apply NoDup_range].
    intros x y _ _ E. now inj_ids.
Qed.

Lemma NoDup_pairs_tree_ops (kh k : Z) : 0 <= kh -> NoDup (pairs (tree_ops kh k)).
Proof.
  intros Hkh. apply (NoDup_by_kind (fun uv => kind (snd uv))). intros t.
  rewrite filter_kind_pairs by assumption. apply NoDup_pairs_of_kind.
Qed.

(** The kinds of the two ends of a link of the fat tree. *)
Definition link_kinds (u v : string) : bool :=
  match kind u, kind v with
  | Some edge, Some host | Some agg, Some edge | Some agg, Some core => true
  | _, _ => false
  end.

Lemma pairs_in (ops : list op) (u v : string) :
  In (u, v) (pairs ops) <-> exists l, In (AddEdge u v l) ops.
Proof.
  unfold pairs. rewrite in_flat_map. split.
  - intros ([n a|x y l] & Ho & Hin); cbn in Hin; [contradiction|].
    destruct Hin as [[= -> ->]|[]]. now exists l.
  - intros (l & Ho). eexists. split; [exact Ho|now left].
Qed.

Lemma pairs_link_kinds (kh k : Z) (u v : string) :
  In (u, v) (pairs (tree_ops kh k)) -> link_kinds u v = true.
Proof.
  rewrite pairs_in. intros (l & Hin). apply tree_ops_in in Hin.
  inversion Hin; subst; reflexivity.
Qed.

Lemma no_reverse_tree_ops (kh k : Z) (u v : string) :
  In (u, v) (pairs (tree_ops kh k)) -> ~ In (v, u) (pairs (tree_ops kh k)).
Proof.
  intros Huv Hvu. apply pairs_link_kinds in Huv, Hvu.
  unfold link_kinds in *.
  destruct (kind u) as [[]|], (kind v) as [[]|]; discriminate.
Qed.

(** Links are made between nodes added before. *)
Fixpoint closed_from (seen : list string) (ops : list op) : Prop :=
  match ops with
  | [] => True
  | AddNode n _ :: r => closed_from (n :: seen) r
  | AddEdge u v _ :: r => In u seen /\ In v seen /\ closed_from seen r
  end.

Lemma closed_from_incl (ops : list op) (seen seen' : list string) :
  incl seen seen' -> closed_from seen ops -> closed_from seen' ops.
Proof.
  revert seen seen'. induction ops as [|[n a|u v l] r IH]; intros s s' Hi; cbn.
  - trivial.
  - apply IH. intros x [->|Hx]; [now left|right; now apply Hi].
  - intros (Hu & Hv & Hr). repeat split; auto. now apply (IH s s').
Qed.

Lemma closed_from_app (a b : list op) (seen : list string) :
  closed_from seen a -> closed_from (names a ++ seen) b ->
  closed_from seen (a ++ b).
Proof.
  revert seen. induction a as [|[n x|u v l] r IH]; intros s Ha Hb; cbn in *.
  - exact Hb.
  - apply IH; [exact Ha|]. revert Hb. apply closed_from_incl.
    intros y Hy. cbn in Hy. rewrite in_app_iff in *. cbn. tauto.
  - destruct Ha as (Hu & Hv & Hr). repeat split; auto.
Qed.

Lemma closed_from_flat_map {A} (f : A -> list op) (l : list A) seen :
  (forall x, In x l -> closed_from seen (f x)) ->
  closed_from seen (flat_map f l).
Proof.
  induction l as [|a l IH]; intros Hf; cbn; [trivial|].
  apply closed_from_app; [apply Hf; now left|].
  apply closed_from_incl with (seen := seen).
  - intros y Hy. apply in_or_app. now right.
  - apply IH. intros x Hx. apply Hf. now right.
Qed.

Lemma closed_from_split (pre post : list op) u v l seen :
  closed_from seen (pre ++ AddEdge u v l :: post) ->
  In u (names pre ++ seen) /\ In v (names pre ++ seen).
Proof.
  revert seen. induction pre as [|[n x|a b c] r IH]; intros s; cbn.
  - tauto.
  - intros Hc. apply IH in Hc. rewrite !in_app_iff in *. cbn in *. tauto.
  - intros (_ & _ & Hc). now apply IH.
Qed.

Lemma closed_from_nodes {A} (f : A -> string) (g : A -> node_attrs) l seen :
  closed_from seen (map (fun x => AddNode (f x) (g x)) l).
Proof.
  revert seen. induction l as [|a l IH]; intros s; cbn; [trivial|apply IH].
Qed.

Lemma closed_from_links (ops : list op) seen :
  (forall o, In o ops -> exists u v l, o = AddEdge u v l /\ In u seen /\ In v seen) ->
  closed_from seen ops.
Proof.
  induction ops as [|o r IH]; intros Ho; [exact I|].
  destruct (Ho o (or_introl eq_refl)) as (u & v & l & -> & Hu & Hv).
  cbn. repeat split; auto. apply IH. intros o' Ho'. apply Ho. now right.
Qed.

Lemma names_in_kind (kh k : Z) (n : string) (t : option node_type) :
  0 <= kh -> In n (names_of_kind kh k t) -> In n (names (tree_ops kh k)).
Proof.
  intros Hkh Hin. rewrite <- (filter_kind_names kh k t Hkh) in Hin.
  now apply filter_In in Hin.
Qed.

Lemma names_wire_ops (kh k : Z) : names (flat_map (wire_ops kh) (range k)) = [].
Proof.
  unfold names, entries, dict_keys. rewrite flat_map_flat_map.
  rewrite flat_map_nil; [reflexivity|]. intros p _.
  unfold wire_ops, stripe_ops, link_ops. rewrite flat_map_app.
  rewrite !flat_map_flat_map.
  rewrite !flat_map_nil; auto; intros a _; rewrite flat_map_map;
    now apply flat_map_nil.
Qed.

Lemma closed_tree_ops (kh k : Z) : 0 <= kh -> closed_from [] (tree_ops kh k).
Proof.
  intros Hkh. unfold tree_ops. rewrite app_assoc.
  apply closed_from_app.
  - apply closed_from_app; [apply closed_from_nodes|].
    apply closed_from_flat_map. intros p _. unfold pod_ops.
    apply closed_from_app; [apply closed_from_nodes|].
    apply closed_from_flat_map. intros e _. unfold edge_ops. cbn.
    apply closed_from_flat_map. intros h _. cbn. tauto.
  - rewrite app_nil_r. apply closed_from_links. intros o Ho.
    assert (Hseen : names (core_ops (range (kh * kh))
                           ++ flat_map (pod_ops kh) (range k))
                    = names (tree_ops kh k)).
    { unfold tree_ops. rewrite app_assoc, (names_app (_ ++ _)).
      now rewrite names_wire_ops, app_nil_r. }
    rewrite Hseen. clear Hseen.
    apply in_flat_map in Ho. destruct Ho as (p & Hp & Ho).
    unfold wire_ops, stripe_ops, link_ops in Ho. apply in_app_iff in Ho.
    destruct Ho as [Ho|Ho]; in_lists; subst.
    + do 3 eexists. split; [reflexivity|]. split.
      * apply (names_in_kind kh k _ (Some agg) Hkh). cbn.
        apply in_flat_map. exists p. split; [now apply in_range|].
        apply in_map. now apply in_range.
      * apply (names_in_kind kh k _ (Some edge) Hkh). cbn.
        apply in_flat_map. exists p. split; [now apply in_range|].
        apply in_map. now apply in_range.
    + do 3 eexists. split; [reflexivity|]. split.
      * apply (names_in_kind kh k _ (Some agg) Hkh). cbn.
        apply in_flat_map. exists p. split; [now apply in_range|].
        apply in_map. now apply in_range.
      * apply (names_in_kind kh k _ (Some core) Hkh). cbn.
        apply in_map. apply in_range. nia.
Qed.

Lemma tree_ops_wf (kh k : Z) : 0 <= kh -> ops_wf (tree_ops kh k).
Proof.
  intros Hkh. constructor.
  - now apply NoDup_names_tree_ops.
  - now apply NoDup_pairs_tree_ops.
  - apply no_reverse_tree_ops.
  - intros pre u v l post E. pose proof (closed_tree_ops kh k Hkh) as Hc.
    rewrite E in Hc. apply closed_from_split in Hc.
    now rewrite app_nil_r in Hc.
Qed.

(** The tables of the fat tree: the node table holds the entries in the
    order the nodes are added, the row of [w] the links of [w] in the order
    they are made. *)
Lemma fat_tree_tables (k : Z) :
  0 <= k ->
  g_node (fat_tree k) = entries (tree_ops (k / 2) k)
  /\ forall w, row (fat_tree k) w = incident w (tree_ops (k / 2) k).
Proof.
  intros Hk. unfold fat_tree. rewrite fat_tree_ops_eq. apply run_wf.
  apply tree_ops_wf. apply Z.div_pos; lia.
Qed.

(** ** The rows of the fat tree *)

Lemma flat_map_only {B} (f : Z -> list B) (i : Z) (l : list Z) :
  NoDup l -> In i l -> (forall x, In x l -> x <> i -> f x = []) ->
  flat_map f l = f i.
Proof.
  intros Hnd Hin Hf.
  rewrite <- (flat_map_hit f i l Hnd Hin). apply flat_map_ext_in.
  intros x Hx. destruct (Z.eqb_spec x i) as [->|Hxi]; auto.
Qed.

Lemma flat_map_only_range {B} (f : Z -> list B) (i n : Z) :
  0 <= i < n -> (forall x, 0 <= x < n -> x <> i -> f x = []) ->
  flat_map f (range n) = f i.
Proof.
  intros Hi Hf. apply flat_map_only; [apply NoDup_range|now apply in_range|].
  intros x Hx. apply in_range in Hx. auto.
Qed.

(** The row of an aggregation switch: the edge switches of its pod, then
    its block of core switches. *)
Lemma incident_agg (kh k p i : Z) :
  0 <= p < k -> 0 <= i < kh ->
  incident (agg_id p i) (tree_ops kh k) =
    map (fun e => (edge_id p e, Some agg_edge)) (range kh)
    ++ map (fun off => (core_id (i * kh + off), Some agg_core)) (range kh).
Proof.
  intros Hp Hi. unfold incident. rewrite flat_map_tree_ops.
  cbn [op_incident]. rewrite_strat (topdown (hints ids)). cbn [app].
  rewrite_strat (bottomup (hints lists)).
  rewrite (flat_map_only_range _ p k Hp).
  - rewrite Z.eqb_refl. cbn [andb]. f_equal.
    + rewrite (flat_map_only_range _ i kh Hi).
      * rewrite Z.eqb_refl. apply flat_map_single.
      * intros a _ Ha. rewrite (proj2 (Z.eqb_neq i a)) by congruence.
        apply flat_map_const_nil.
    + rewrite (flat_map_only_range _ i kh Hi).
      * rewrite Z.eqb_refl. apply flat_map_single.
      * intros a _ Ha. rewrite (proj2 (Z.eqb_neq i a)) by congruence.
        apply flat_map_const_nil.
  - intros q _ Hq. rewrite (proj2 (Z.eqb_neq p q)) by congruence. cbn [andb].
    now rewrite_strat (bottomup (hints lists)).
Qed.

(** The row of a core switch: one aggregation switch of every pod, the one
    whose position is the block of the core switch. *)
Lemma incident_core (kh k c : Z) :
  0 <= kh -> 0 <= c < kh * kh ->
  incident (core_id c) (tree_ops kh k) =
    map (fun p => (agg_id p (c / kh), Some agg_core)) (range k).
Proof.
  intros Hkh Hc. unfold incident. rewrite flat_map_tree_ops.
  cbn [op_incident]. rewrite_strat (topdown (hints ids)). cbn [app].
  rewrite_strat (bottomup (hints lists)).
  rewrite <- flat_map_single. apply flat_map_ext_in. intros p _.
  etransitivity;
    [exact (flat_map_block
              (fun a x => if c =? x then [(agg_id p a, Some agg_core)] else [])
              kh kh Hkh)|].
  cbv beta. rewrite (flat_map_only_range _ c (kh * kh) Hc).
  - now rewrite Z.eqb_refl.
  - intros x _ Hx. now rewrite (proj2 (Z.eqb_neq c x)) by congruence.
Qed.

(** The row of a host: its edge switch. *)
Lemma incident_host (kh k h : Z) :
  0 <= kh -> 0 <= h < k * kh * kh ->
  incident (host_id h) (tree_ops kh k) =
    [(edge_id (h / kh / kh) (h / kh mod kh), Some edge_host)].
Proof.
  intros Hkh Hh. unfold incident. rewrite flat_map_tree_ops.
  cbn [op_incident]. rewrite_strat (topdown (hints ids)). cbn [app].
  rewrite_strat (bottomup (hints lists)).
  etransitivity;
    [exact (flat_map_hosts
              (fun p e x => if h =? x then [(edge_id p e, Some edge_host)] else [])
              kh k Hkh)|].
  cbv beta. rewrite (flat_map_only_range _ h (k * kh * kh) Hh).
  - now rewrite Z.eqb_refl.
  - intros x _ Hx. now rewrite (proj2 (Z.eqb_neq h x)) by congruence.
Qed.

(** The row of an edge switch: its hosts, then the aggregation switches of
    its pod. *)
Lemma incident_edge (kh k p e : Z) :
  0 <= p < k -> 0 <= e < kh ->
  incident (edge_id p e) (tree_ops kh k) =
    map (fun j => (host_id (host_no kh p e j), Some edge_host)) (range kh)
    ++ map (fun a => (agg_id p a, Some agg_edge)) (range kh).
Proof.
  intros Hp He. unfold incident. rewrite flat_map_tree_ops.
  cbn [op_incident]. rewrite_strat (topdown (hints ids)). cbn [app].
  rewrite_strat (bottomup (hints lists)). f_equal.
  - rewrite (flat_map_only_range _ p k Hp).
    + rewrite (flat_map_only_range _ e kh He).
      * rewrite !Z.eqb_refl. apply flat_map_single.
      * intros x _ Hx. rewrite (proj2 (Z.eqb_neq e x)) by congruence.
        rewrite andb_false_r. apply flat_map_const_nil.
    + intros q _ Hq. rewrite (proj2 (Z.eqb_neq p q)) by congruence.
      cbn [andb]. now rewrite_strat (bottomup (hints lists)).
  - rewrite (flat_map_only_range _ p k Hp).
    + rewrite Z.eqb_refl. cbn [andb]. rewrite <- flat_map_single.
      apply flat_map_ext_in. intros a _.
      rewrite (flat_map_only_range _ e kh He).
      * now rewrite Z.eqb_refl.
      * intros x _ Hx. now rewrite (proj2 (Z.eqb_neq e x)) by congruence.
    + intros q _ Hq. rewrite (proj2 (Z.eqb_neq p q)) by congruence.
      cbn [andb]. now rewrite_strat (bottomup (hints lists)).
Qed.

(** ** Nodes, attributes and neighbours of the fat tree *)

(** [G.nodes[n]['pod']]. *)
Definition node_pod (G : Graph) (n : string) : option Z :=
  match dict_get (g_node G) n with
  | Some a => attr_pod a
  | None => None
  end.

(** [G.nodes[n]['edge_anchor']]. *)
Definition node_edge_anchor (G : Graph) (n : string) : option string :=
  match dict_get (g_node G) n with
  | Some a => attr_edge_anchor a
  | None => None
  end.

(** [G[u][v]['layer']], when [u] and [v] are linked. *)
Definition link_layer (G : Graph) (u v : string) : option layer :=
  match dict_get (adj_row (g_adj G) u) v with
  | Some l => l
  | None => None
  end.

Lemma tree_ops_in_iff (kh k : Z) (o : op) :
  In o (tree_ops kh k) <-> tree_op kh k o.
Proof.
  split; [apply tree_ops_in|].
  rewrite <- (flat_map_id (tree_ops kh k)), flat_map_tree_ops.
  rewrite !in_app_iff, !in_flat_map.
  intros [c Hc|p a Hp Ha|p e Hp He|p e j Hp He Hj|p e j Hp He Hj
         |p a e Hp Ha He|p a off Hp Ha Hoff].
  - left. exists c. split; [now apply in_range|now left].
  - right. left. exists p. split; [now apply in_range|].
    apply in_app_iff. left. apply in_flat_map.
    exists a. split; [now apply in_range|now left].
  - right. left. exists p. split; [now apply in_range|].
    apply in_app_iff. right. apply in_flat_map.
    exists e. split; [now apply in_range|now left].
  - right. left. exists p. split; [now apply in_range|].
    apply in_app_iff. right. apply in_flat_map.
    exists e. split; [now apply in_range|]. right. apply in_flat_map.
    exists j. split; [now apply in_range|now left].
  - right. left. exists p. split; [now apply in_range|].
    apply in_app_iff. right. apply in_flat_map.
    exists e. split; [now apply in_range|]. right. apply in_flat_map.
    exists j. split; [now apply in_range|right; now left].
  - right. right. exists p. split; [now apply in_range|].
    apply in_app_iff. left. apply in_flat_map.
    exists a. split; [now apply in_range|]. apply in_flat_map.
    exists e. split; [now apply in_range|now left].
  - right. right. exists p. split; [now apply in_range|].
    apply in_app_iff. right. apply in_flat_map.
    exists a. split; [now apply in_range|]. apply in_flat_map.
    exists off. split; [now apply in_range|now left].
Qed.

Lemma entries_in (ops : list op) (n : string) (a : node_attrs) :
  In (n, a) (entries ops) <-> In (AddNode n a) ops.
Proof.
  unfold entries. rewrite in_flat_map. split.
  - intros ([n' a'|u v l] & Ho & Hin); cbn in Hin; [|contradiction].
    destruct Hin as [[= -> ->]|[]]. exact Ho.
  - intros Ho. eexists. split; [exact Ho|now left].
Qed.

Section FatTree.
Variable k : Z.
Hypothesis Hk : 0 <= k.

Let kh := k / 2.

Lemma kh_nonneg : 0 <= kh.
Proof. subst kh. apply Z.div_pos; lia. Qed.

(** The attributes of a node are those it was added with. *)
Lemma fat_tree_node (n : string) (a : node_attrs) :
  tree_op kh k (AddNode n a) -> dict_get (g_node (fat_tree k)) n = Some a.
Proof.
  intros Hop. destruct (fat_tree_tables k Hk) as [Hn _]. rewrite Hn.
  apply dict_get_NoDup_In.
  - apply (NoDup_names_tree_ops (k / 2) k). apply kh_nonneg.
  - apply entries_in. now apply tree_ops_in_iff.
Qed.

Lemma fat_tree_nodes : nodes (fat_tree k) = names (tree_ops kh k).
Proof.
  unfold nodes. destruct (fat_tree_tables k Hk) as [Hn _]. now rewrite Hn.
Qed.

Lemma fat_tree_neighbors (w : string) :
  neighbors (fat_tree k) w = dict_keys (incident w (tree_ops kh k)).
Proof.
  unfold neighbors. destruct (fat_tree_tables k Hk) as [_ Hr].
  fold (row (fat_tree k) w). now rewrite Hr.
Qed.

Lemma fat_tree_has_type (t : node_type) (n : string) :
  In n (nodes (fat_tree k)) ->
  has_type (fat_tree k) t n = okind_eqb (kind n) (Some t).
Proof.
  rewrite fat_tree_nodes. unfold names, dict_keys. rewrite in_map_iff.
  intros ([n' a] & <- & Hin). cbn [fst].
  apply entries_in, tree_ops_in in Hin.
  unfold has_type. rewrite (fat_tree_node n' a Hin).
  inversion Hin; subst; reflexivity.
Qed.

(** The nodes of one type, in the order of the node table. *)
Lemma fat_tree_nodes_of_type (t : node_type) :
  nodes_of_type (fat_tree k) t = names_of_kind kh k (Some t).
Proof.
  unfold nodes_of_type.
  rewrite (filter_ext_in _ (fun n => okind_eqb (kind n) (Some t))).
  - rewrite fat_tree_nodes. apply filter_kind_names, kh_nonneg.
  - intros n Hn. now apply fat_tree_has_type.
Qed.

Lemma fat_tree_type_core c t :
  0 <= c < kh * kh -> has_type (fat_tree k) t (core_id c) = node_type_eqb core t.
Proof.
  intros Hc. unfold has_type.
  now rewrite (fat_tree_node _ _ (op_core kh k c Hc)).
Qed.

Lemma fat_tree_type_agg p a t :
  0 <= p < k -> 0 <= a < kh ->
  has_type (fat_tree k) t (agg_id p a) = node_type_eqb agg t.
Proof.
  intros Hp Ha. unfold has_type.
  now rewrite (fat_tree_node _ _ (op_agg kh k p a Hp Ha)).
Qed.

Lemma fat_tree_type_edge p e t :
  0 <= p < k -> 0 <= e < kh ->
  has_type (fat_tree k) t (edge_id p e) = node_type_eqb edge t.
Proof.
  intros Hp He. unfold has_type.
  now rewrite (fat_tree_node _ _ (op_edge kh k p e Hp He)).
Qed.

Lemma fat_tree_pod_agg p a :
  0 <= p < k -> 0 <= a < kh -> node_pod (fat_tree k) (agg_id p a) = Some p.
Proof.
  intros Hp Ha. unfold node_pod.
  now rewrite (fat_tree_node _ _ (op_agg kh k p a Hp Ha)).
Qed.

End FatTree.

(** ** The fat tree that [build_fat_tree] returns *)

Lemma even_half (k : Z) : Z.even k = true -> k = 2 * (k / 2).
Proof.
  intros Hev. apply Z.even_spec in Hev. destruct Hev as [m ->].
  now rewrite Z.mul_comm, Z.div_mul, Z.mul_comm by lia.
Qed.

Lemma total_hosts_eq (k : Z) :
  Z.even k = true -> k ^ 3 / 4 = k * (k / 2) * (k / 2).
Proof.
  intros Hev. pose proof (even_half k Hev) as E.
  set (kh := k / 2) in *. rewrite E at 1.
  replace ((2 * kh) ^ 3) with (2 * kh * kh * kh * 4) by ring.
  rewrite Z.div_mul by lia. rewrite E at 1. ring.
Qed.

Lemma len_flat_map_const {A B} (f : A -> list B) (l : list A) (m : Z) :
  (forall x, In x l -> len (f x) = m) -> len (flat_map f l) = len l * m.
Proof.
  induction l as [|a l IH]; intros Hf; cbn [flat_map].
  - reflexivity.
  - rewrite len_app, (Hf a (or_introl eq_refl)), IH.
    + unfold len. cbn [List.length]. lia.
    + intros x Hx. apply Hf. now right.
Qed.

Lemma filter_all {A} (f : A -> bool) (l : list A) :
  (forall x, In x l -> f x = true) -> filter f l = l.
Proof.
  induction l as [|a l IH]; intros Hf; cbn; [reflexivity|].
  rewrite Hf by now left. f_equal. apply IH. intros x Hx. apply Hf. now right.
Qed.

Lemma filter_none {A} (f : A -> bool) (l : list A) :
  (forall x, In x l -> f x = false) -> filter f l = [].
Proof.
  induction l as [|a l IH]; intros Hf; cbn; [reflexivity|].
  rewrite Hf by now left. apply IH. intros x Hx. apply Hf. now right.
Qed.

Lemma len_names_of_kind (kh k : Z) :
  0 <= kh -> 0 <= k ->
  len (names_of_kind kh k (Some core)) = kh * kh
  /\ len (names_of_kind kh k (Some agg)) = k * kh
  /\ len (names_of_kind kh k (Some edge)) = k * kh
  /\ len (names_of_kind kh k (Some host)) = k * kh * kh.
Proof.
  intros Hkh Hk. cbn [names_of_kind]. repeat split.
  - rewrite len_map, len_range; nia.
  - rewrite (len_flat_map_const _ _ kh), len_range; auto.
    intros p _. now rewrite len_map, len_range.
  - rewrite (len_flat_map_const _ _ kh), len_range; auto.
    intros p _. now rewrite len_map, len_range.
  - rewrite len_map, len_range; nia.
Qed.

(** The graph [build_fat_tree k] returns, with the pod table it carries. *)
Definition built (k : Z) (d : dict Z pod_rec) : Graph :=
  {| g_node := g_node (fat_tree k);
     g_adj := g_adj (fat_tree k);
     g_params := Some {| p_k := k; k_half := k / 2; num_pods := k;
                         num_core_switches := (k / 2) * (k / 2);
                         total_hosts := k ^ 3 / 4 |};
     g_pod_data := Some d |}.

Lemma built_nodes_of_type k d t :
  nodes_of_type (built k d) t = nodes_of_type (fat_tree k) t.
Proof. reflexivity. Qed.

Lemma built_neighbors k d w : neighbors (built k d) w = neighbors (fat_tree k) w.
Proof. reflexivity. Qed.

Lemma built_has_type k d t n : has_type (built k d) t n = has_type (fat_tree k) t n.
Proof. reflexivity. Qed.

Lemma built_link_layer k d u v :
  link_layer (built k d) u v = link_layer (fat_tree k) u v.
Proof. reflexivity. Qed.

Lemma built_node_pod k d n : node_pod (built k d) n = node_pod (fat_tree k) n.
Proof. reflexivity. Qed.

Lemma built_node_edge_anchor k d n :
  node_edge_anchor (built k d) n = node_edge_anchor (fat_tree k) n.
Proof. reflexivity. Qed.

Lemma fat_tree_link_layer (k : Z) (u v : string) :
  0 <= k ->
  link_layer (fat_tree k) u v =
    match dict_get (incident u (tree_ops (k / 2) k)) v with
    | Some l => l
    | None => None
    end.
Proof.
  intros Hk. unfold link_layer. destruct (fat_tree_tables k Hk) as [_ Hr].
  fold (row (fat_tree k) u). now rewrite Hr.
Qed.

(** C2. For every even [k >= 2], [build_fat_tree k] returns a graph whose
    host nodes are, in creation order, [H_0], [H_1], ..., [H_(k^3/4 - 1)];
    it has [k^3/4] hosts, [k * (k/2)] edge switches, [k * (k/2)] aggregation
    switches and [(k/2)^2] core switches; and every host has exactly one
    neighbour, an edge switch, the one its [edge_anchor] names, joined by an
    [edge_host] link. *)
Theorem build_fat_tree_node_counts (k : Z) :
  Z.even k = true -> 2 <= k ->
  exists G,
    build_fat_tree k = Ok G
    /\ nodes_of_type G host = map host_id (range (k ^ 3 / 4))
    /\ len (nodes_of_type G host) = k ^ 3 / 4
    /\ len (nodes_of_type G edge) = k * (k / 2)
    /\ len (nodes_of_type G agg) = k * (k / 2)
    /\ len (nodes_of_type G core) = (k / 2) * (k / 2)
    /\ forall h, 0 <= h < k ^ 3 / 4 ->
         exists e,
           neighbors G (host_id h) = [e]
           /\ has_type G edge e = true
           /\ link_layer G (host_id h) e = Some edge_host
           /\ node_edge_anchor G (host_id h) = Some e.
Proof.
  intros Hev Hk2. assert (Hk : 0 <= k) by lia.
  destruct (build_fat_tree_run k Hev Hk2) as (d & Hb & _).
  exists (built k d). split; [exact Hb|].
  rewrite !built_nodes_of_type, !fat_tree_nodes_of_type by assumption.
  pose proof (kh_nonneg k Hk) as Hkh. cbv zeta in Hkh.
  destruct (len_names_of_kind (k / 2) k Hkh Hk) as (Lc & La & Le & Lh).
  rewrite (total_hosts_eq k Hev).
  repeat split; auto.
  intros h Hh.
  pose proof (host_no_block (k / 2) (h / (k / 2) / (k / 2))
                (h / (k / 2) mod (k / 2)) (h mod (k / 2)) Hkh) as _.
  assert (Hkh1 : 1 <= k / 2) by (apply Z.div_le_lower_bound; lia).
  assert (Hq : 0 <= h / (k / 2) < k * (k / 2)).
  { split; [apply Z.div_pos; lia|]. apply Z.div_lt_upper_bound; nia. }
  assert (Hp : 0 <= h / (k / 2) / (k / 2) < k).
  { split; [apply Z.div_pos; lia|]. apply Z.div_lt_upper_bound; nia. }
  assert (He : 0 <= h / (k / 2) mod (k / 2) < k / 2)
    by (apply Z.mod_pos_bound; lia).
  assert (Hj : 0 <= h mod (k / 2) < k / 2) by (apply Z.mod_pos_bound; lia).
  exists (edge_id (h / (k / 2) / (k / 2)) (h / (k / 2) mod (k / 2))).
  rewrite built_neighbors, built_has_type, built_link_layer,
    built_node_edge_anchor.
  rewrite fat_tree_neighbors, fat_tree_link_layer by assumption.
  rewrite incident_host by assumption. cbn [dict_keys map fst dict_get].
  rewrite String.eqb_refl.
  rewrite fat_tree_type_edge by assumption.
  repeat split.
  unfold node_edge_anchor.
  rewrite (fat_tree_node k Hk (host_id h)
             (attrs host (h / (k / 2) / (k / 2))
                (Some (edge_id (h / (k / 2) / (k / 2)) (h / (k / 2) mod (k / 2)))))).
  - reflexivity.
  - replace h with (host_no (k / 2) (h / (k / 2) / (k / 2))
                      (h / (k / 2) mod (k / 2)) (h mod (k / 2))) at 1.
    + now constructor.
    + apply host_no_div. lia.
Qed.

Lemma build_fat_tree_node_counts_witness :
  exists G,
    build_fat_tree 4 = Ok G
    /\ nodes_of_type G host = map host_id (range (4 ^ 3 / 4))
    /\ len (nodes_of_type G host) = 4 ^ 3 / 4
    /\ len (nodes_of_type G edge) = 4 * (4 / 2)
    /\ len (nodes_of_type G agg) = 4 * (4 / 2)
    /\ len (nodes_of_type G core) = (4 / 2) * (4 / 2)
    /\ forall h, 0 <= h < 4 ^ 3 / 4 ->
         exists e,
           neighbors G (host_id h) = [e]
           /\ has_type G edge e = true
           /\ link_layer G (host_id h) e = Some edge_host
           /\ node_edge_anchor G (host_id h) = Some e.
Proof.
  apply (build_fat_tree_node_counts 4); [reflexivity|lia].
Defined.

Lemma dict_get_map_hit {A V} (f : A -> string) (g : A -> V) (l : list A) (y : A) :
  In y l -> (forall x, In x l -> f x = f y -> x = y) ->
  dict_get (map (fun x => (f x, g x)) l) (f y) = Some (g y).
Proof.
  induction l as [|a l IH]; intros Hin Hinj; [contradiction|]. cbn.
  destruct (String.eqb_spec (f a) (f y)) as [E|E].
  - now rewrite (Hinj a (or_introl eq_refl) E).
  - destruct Hin as [->|Hin]; [contradiction|]. apply IH; auto.
    intros x Hx. apply Hinj. now right.
Qed.

Lemma nth_error_map_range {A} (f : Z -> A) (n i : Z) :
  0 <= i < n -> nth_error (map f (range n)) (Z.to_nat i) = Some (f i).
Proof.
  intros Hi. unfold range. rewrite map_map, nth_error_map, nth_error_seq.
  destruct (Nat.ltb_spec (Z.to_nat i) (Z.to_nat n)) as [_|Hge]; [|lia].
  cbn. now rewrite Z2Nat.id by lia.
Qed.

(** C1. For every even [k >= 2], in the graph [build_fat_tree k] returns:
    the core switches are [C_0 .. C_((k/2)^2 - 1)] in creation order; the
    [i]-th aggregation switch of pod [p] (position [i] of the pod's list in
    [G.graph['pod_data']]) is joined by an [agg_core] link to exactly the
    core switches [C_c] with [i * (k/2) <= c < (i+1) * (k/2)], these are its
    only core neighbours and there are [k/2] of them; and the neighbours of
    the core switch [C_c] are aggregation switches, [k] of them, one of every
    pod [0 .. k-1]. *)
Theorem build_fat_tree_striping (k : Z) :
  Z.even k = true -> 2 <= k ->
  exists G d,
    build_fat_tree k = Ok G
    /\ g_pod_data G = Some d
    /\ nodes_of_type G core = map core_id (range (k / 2 * (k / 2)))
    /\ (forall p i, 0 <= p < k -> 0 <= i < k / 2 ->
          (exists pd, dict_get d p = Some pd
                      /\ nth_error (pod_agg pd) (Z.to_nat i) = Some (agg_id p i))
          /\ (forall n, link_layer G (agg_id p i) n = Some agg_core <->
                        exists c, n = core_id c
                                  /\ i * (k / 2) <= c < (i + 1) * (k / 2))
          /\ filter (has_type G core) (neighbors G (agg_id p i))
             = map (fun off => core_id (i * (k / 2) + off)) (range (k / 2))
          /\ len (filter (has_type G core) (neighbors G (agg_id p i))) = k / 2)
    /\ (forall c, 0 <= c < k / 2 * (k / 2) ->
          neighbors G (core_id c) = map (fun p => agg_id p (c / (k / 2))) (range k)
          /\ filter (has_type G agg) (neighbors G (core_id c))
             = neighbors G (core_id c)
          /\ map (node_pod G) (neighbors G (core_id c)) = map Some (range k)
          /\ len (neighbors G (core_id c)) = k).
Proof.
  intros Hev Hk2. assert (Hk : 0 <= k) by lia.
  destruct (build_fat_tree_run k Hev Hk2) as (d & Hb & Hpods).
  exists (built k d), d. split; [exact Hb|]. split; [reflexivity|].
  pose proof (kh_nonneg k Hk) as Hkh. cbv zeta in Hkh.
  assert (Hkh1 : 1 <= k / 2) by (apply Z.div_le_lower_bound; lia).
  remember (k / 2) as kh eqn:Ekh.
  split; [|split].
  - rewrite built_nodes_of_type, fat_tree_nodes_of_type by assumption.
    rewrite <- Ekh. reflexivity.
  - intros p i Hp Hi.
    rewrite built_neighbors, fat_tree_neighbors by assumption.
    rewrite <- ?Ekh. rewrite (incident_agg kh k p i Hp Hi).
    unfold dict_keys. rewrite map_app, !map_map. cbn [fst].
    split; [|split; [|split]].
    + destruct (Hpods p Hp) as [h2e Hd]. eexists. split; [exact Hd|].
      cbn [pod_agg]. unfold pod_aggs. now apply nth_error_map_range.
    + intros n. rewrite built_link_layer, fat_tree_link_layer by assumption.
      rewrite <- ?Ekh. rewrite (incident_agg kh k p i Hp Hi). split.
      * destruct (dict_get _ n) as [l|] eqn:E; [|discriminate].
        intros ->. apply dict_get_In, in_app_iff in E.
        destruct E as [E|E]; apply in_map_iff in E;
          destruct E as (x & E & Hx); apply in_range in Hx.
        -- apply (f_equal snd) in E. discriminate.
        -- apply (f_equal fst) in E. cbn in E. subst n.
           exists (i * kh + x). split; [reflexivity|lia].
      * intros (c & -> & Hc). rewrite dict_get_app. unfold edge_attrs.
        match goal with
        | |- context [match dict_get ?l ?x with _ => _ end] =>
            destruct (dict_get l x) eqn:E1
        end.
        { apply dict_get_In in E1. in_lists. apply (f_equal fst) in H.
          discriminate. }
        match goal with
        | |- context [dict_get ?l (core_id c)] =>
            assert (E2 : dict_get l (core_id c) = Some (Some agg_core))
        end.
        { replace c with (i * kh + (c - i * kh)) by lia.
          apply (dict_get_map_hit (fun off => core_id (i * kh + off))
                   (fun _ => Some agg_core)).
          - apply in_range. lia.
          - intros x _ E. cbv beta in E. inj_ids.
            now apply Z.add_cancel_l in E. }
        now rewrite E2.
    + rewrite filter_app, filter_none, filter_all; [reflexivity| |].
      * intros n Hn. in_lists. subst n.
        rewrite built_has_type, fat_tree_type_core
          by (rewrite <- ?Ekh; try assumption; nia).
        reflexivity.
      * intros n Hn. in_lists. subst n.
        rewrite built_has_type, fat_tree_type_edge
          by (rewrite <- ?Ekh; assumption).
        reflexivity.
    + rewrite filter_app, filter_none, filter_all.
      * cbn [app]. now rewrite len_map, len_range.
      * intros n Hn. in_lists. subst n.
        rewrite built_has_type, fat_tree_type_core
          by (rewrite <- ?Ekh; try assumption; nia).
        reflexivity.
      * intros n Hn. in_lists. subst n.
        rewrite built_has_type, fat_tree_type_edge
          by (rewrite <- ?Ekh; assumption).
        reflexivity.
  - intros c Hc.
    rewrite built_neighbors, fat_tree_neighbors by assumption.
    rewrite <- ?Ekh. rewrite (incident_core kh k c Hkh Hc).
    unfold dict_keys. rewrite map_map. cbn [fst].
    assert (Ha : 0 <= c / kh < kh).
    { split; [apply Z.div_pos; lia|apply Z.div_lt_upper_bound; lia]. }
    split; [reflexivity|]. split; [|split].
    + apply filter_all. intros n Hn. in_lists. subst n.
      rewrite built_has_type, fat_tree_type_agg
        by (rewrite <- ?Ekh; assumption).
      reflexivity.
    + rewrite map_map. apply map_ext_in. intros p Hp. apply in_range in Hp.
      cbv beta.
      rewrite built_node_pod, fat_tree_pod_agg
        by (rewrite <- ?Ekh; assumption).
      reflexivity.
    + now rewrite len_map, len_range.
Qed.

Lemma build_fat_tree_striping_witness :
  exists G d,
    build_fat_tree 4 = Ok G
    /\ g_pod_data G = Some d
    /\ nodes_of_type G core = map core_id (range (4 / 2 * (4 / 2)))
    /\ (forall p i, 0 <= p < 4 -> 0 <= i < 4 / 2 ->
          (exists pd, dict_get d p = Some pd
                      /\ nth_error (pod_agg pd) (Z.to_nat i) = Some (agg_id p i))
          /\ (forall n, link_layer G (agg_id p i) n = Some agg_core <->
                        exists c, n = core_id c
                                  /\ i * (4 / 2) <= c < (i + 1) * (4 / 2))
          /\ filter (has_type G core) (neighbors G (agg_id p i))
             = map (fun off => core_id (i * (4 / 2) + off)) (range (4 / 2))
          /\ len (filter (has_type G core) (neighbors G (agg_id p i))) = 4 / 2)
    /\ (forall c, 0 <= c < 4 / 2 * (4 / 2) ->
          neighbors G (core_id c) = map (fun p => agg_id p (c / (4 / 2))) (range 4)
          /\ filter (has_type G agg) (neighbors G (core_id c))
             = neighbors G (core_id c)
          /\ map (node_pod G) (neighbors G (core_id c)) = map Some (range 4)
          /\ len (neighbors G (core_id c)) = 4).
Proof.
  apply (build_fat_tree_striping 4); [reflexivity|lia].
Defined.

(** ** A concrete random source *)

(** A small generator to run the program on: a linear congruential state,
    and a sample that draws a position below the length of what is left of
    the population and takes the element out, [k] times. *)
Definition lcg_next (s : Z) : Z := (s * 1103515245 + 12345) mod 2147483648.

Fixpoint draw_sample {A} (k : nat) (pool : list A) (s : Z) : list A * Z :=
  match k with
  | O => ([], s)
  | S k' =>
      let j := Z.to_nat (s mod Z.of_nat (List.length pool)) in
      match nth_error pool j with
      | Some x =>
          let '(r, s') :=
            draw_sample k' (firstn j pool ++ skipn (S j) pool) (lcg_next s) in
          (x :: r, s')
      | None => ([], s)
      end
  end.

Lemma draw_sample_spec {A} (k : nat) (pool : list A) (s : Z) :
  (k <= List.length pool)%nat ->
  List.length (fst (draw_sample k pool s)) = k
  /\ exists rest, Permutation (fst (draw_sample k pool s) ++ rest) pool.
Proof.
  revert pool s. induction k as [|k IH]; intros pool s Hk; cbn [draw_sample].
  - split; [reflexivity|]. exists pool. reflexivity.
  - set (j := Z.to_nat (s mod Z.of_nat (List.length pool))).
    assert (Hj : (j < List.length pool)%nat).
    { subst j. pose proof (Z.mod_pos_bound s (Z.of_nat (List.length pool))). lia. }
    destruct (nth_error pool j) as [x|] eqn:Ex.
    2:{ apply nth_error_None in Ex. lia. }
    destruct (nth_error_split pool j Ex) as (l1 & l2 & Hpool & Hl1).
    assert (Hrem : firstn j pool ++ skipn (S j) pool = l1 ++ l2).
    { rewrite Hpool, <- Hl1. rewrite firstn_app, firstn_all, Nat.sub_diag.
      cbn [firstn]. rewrite app_nil_r.
      replace (S (List.length l1)) with (List.length (l1 ++ [x]))
        by (rewrite length_app; cbn; lia).
      replace (l1 ++ x :: l2) with ((l1 ++ [x]) ++ l2)
        by (now rewrite <- app_assoc).
      rewrite skipn_app, skipn_all, Nat.sub_diag. reflexivity. }
    rewrite Hrem.
    destruct (IH (l1 ++ l2) (lcg_next s)) as [Hlen (rest & Hperm)].
    { rewrite Hpool, length_app in Hk. cbn in Hk. rewrite length_app. lia. }
    destruct (draw_sample k (l1 ++ l2) (lcg_next s)) as [r s'].
    cbn [fst] in *. split; [cbn; now rewrite Hlen|].
    exists rest. rewrite Hpool. cbn [app].
    rewrite <- Permutation_middle. now constructor.
Qed.

#[global] Instance lcg_source : RandomSource := {|
  rng := Z;
  seed := fun n => n;
  sample := fun A pop k s => draw_sample k pop s;
  sample_length := fun A pop k s H => proj1 (draw_sample_spec k pop s H);
  sample_without_replacement :=
    fun A pop k s H => proj2 (draw_sample_spec k pop s H)
|}.

(** ** Well-formed graphs and their list of links *)

Fixpoint nodupb (l : list string) : bool :=
  match l with
  | [] => true
  | x :: r => negb (mem x r) && nodupb r
  end.

(** What the library keeps true of every graph: the adjacency table has one
    row per key, a row has one entry per neighbour, and a link is stored
    under both of its ends. *)
Definition wf_graph (G : Graph) : bool :=
  nodupb (dict_keys (g_adj G))
  && forallb
       (fun urow =>
          nodupb (dict_keys (snd urow))
          && forallb (fun v => has_edge G v (fst urow)) (dict_keys (snd urow)))
       (g_adj G).

(** Two pairs that name the same link. *)
Definition same_link (e e' : string * string) : bool :=
  (String.eqb (fst e) (fst e') && String.eqb (snd e) (snd e'))
  || (String.eqb (fst e) (snd e') && String.eqb (snd e) (fst e')).

Lemma nodupb_NoDup (l : list string) : nodupb l = true <-> NoDup l.
Proof.
  induction l as [|x r IH]; cbn.
  - split; [constructor|reflexivity].
  - rewrite andb_true_iff, negb_true_iff, mem_false, IH. split.
    + intros [Hx Hr]. now constructor.
    + intros Hnd. inversion Hnd; subst. tauto.
Qed.

Lemma has_edge_row (G : Graph) (u v : string) :
  has_edge G u v = dict_mem (adj_row (g_adj G) u) v.
Proof.
  unfold has_edge, adj_row. now destruct (dict_get (g_adj G) u).
Qed.

Section WfGraph.
Variable G : Graph.
Hypothesis Hwf : wf_graph G = true.

Lemma wf_keys : NoDup (dict_keys (g_adj G)).
Proof.
  unfold wf_graph in Hwf. apply andb_true_iff in Hwf.
  now apply nodupb_NoDup.
Qed.

Lemma wf_row_in (u : string) row :
  In (u, row) (g_adj G) ->
  NoDup (dict_keys row)
  /\ forall v, In v (dict_keys row) -> has_edge G v u = true.
Proof.
  intros Hin. unfold wf_graph in Hwf. apply andb_true_iff in Hwf.
  destruct Hwf as [_ Hall]. rewrite forallb_forall in Hall.
  specialize (Hall _ Hin). cbn [fst snd] in Hall.
  apply andb_true_iff in Hall. destruct Hall as [Hnd Hsym].
  split; [now apply nodupb_NoDup|]. now rewrite forallb_forall in Hsym.
Qed.

Lemma wf_row (u : string) : NoDup (dict_keys (adj_row (g_adj G) u)).
Proof.
  unfold adj_row. destruct (dict_get (g_adj G) u) as [row|] eqn:E.
  - apply dict_get_In in E. now apply wf_row_in in E.
  - constructor.
Qed.

Lemma wf_sym (u v : string) : has_edge G u v = true -> has_edge G v u = true.
Proof.
  unfold has_edge at 1. destruct (dict_get (g_adj G) u) as [row|] eqn:E;
    [|discriminate].
  intros Hv. apply dict_get_In in E. apply wf_row_in in E.
  apply E. now apply dict_mem_true.
Qed.

End WfGraph.

Lemma in_edges_from adj seen (u v : string) :
  In (u, v) (edges_from adj seen) <->
  exists pre row post,
    adj = pre ++ (u, row) :: post
    /\ In v (dict_keys row) /\ ~ In v seen /\ ~ In v (dict_keys pre).
Proof.
  revert seen. induction adj as [|[n nbrs] rest IH]; intros seen; cbn [edges_from].
  - split; [intros []|]. intros (pre & row & post & E & _). now destruct pre.
  - rewrite in_app_iff, in_map_iff, IH. split.
    + intros [(x & [= <- <-] & Hx)|(pre & row & post & E & Hv & Hs & Hp)].
      * apply filter_In in Hx. destruct Hx as [Hx Hm].
        apply negb_true_iff, mem_false in Hm.
        exists [], nbrs, rest. repeat split; auto.
      * exists ((n, nbrs) :: pre), row, post. subst rest.
        repeat split; auto.
        -- intros Hin. apply Hs. now right.
        -- cbn. intros [->|Hin]; [apply Hs; now left|contradiction].
    + intros (pre & row & post & E & Hv & Hs & Hp).
      destruct pre as [|[n' nbrs'] pre]; cbn in E.
      * injection E as <- <- <-. left. exists v. split; [reflexivity|].
        apply filter_In. split; [assumption|].
        now apply negb_true_iff, mem_false.
      * injection E as <- <- ->. right. exists pre, row, post.
        cbn in Hp. repeat split; auto. intros [->|Hin]; tauto.
Qed.

Lemma dict_get_split {V} (pre post : dict string V) (u : string) (row : V) :
  NoDup (dict_keys (pre ++ (u, row) :: post)) ->
  dict_get (pre ++ (u, row) :: post) u = Some row.
Proof.
  intros Hnd. apply dict_get_NoDup_In; [assumption|].
  apply in_or_app. right. now left.
Qed.

Section EdgesFacts.
Variable G : Graph.
Hypothesis Hwf : wf_graph G = true.

(** A reported link is stored under both of its ends. *)
Lemma edges_has_edge (u v : string) :
  In (u, v) (edges G) -> has_edge G u v = true /\ has_edge G v u = true.
Proof.
  unfold edges. rewrite in_edges_from.
  intros (pre & row & post & E & Hv & _).
  assert (Huv : has_edge G u v = true).
  { unfold has_edge. pose proof (wf_keys G Hwf) as Hnd. rewrite E in *.
    rewrite dict_get_split by assumption. now apply dict_mem_true. }
  split; [assumption|now apply wf_sym].
Qed.

Lemma split_order {V} (pre pre' post post' : dict string V) u v r r' :
  pre ++ (u, r) :: post = pre' ++ (v, r') :: post' -> u <> v ->
  In u (dict_keys pre') \/ In v (dict_keys pre).
Proof.
  revert pre'. induction pre as [|a pre IH]; intros [|a' pre'] E Huv; cbn in E.
  - injection E as E _. contradiction.
  - injection E as <- _. left. now left.
  - injection E as -> _. right. now left.
  - injection E as <- E. destruct (IH pre' E Huv) as [H|H].
    + left. now right.
    + right. now right.
Qed.

(** A link is reported from one end only. *)
Lemma edges_no_reverse (u v : string) :
  In (u, v) (edges G) -> u <> v -> ~ In (v, u) (edges G).
Proof.
  unfold edges. rewrite !in_edges_from.
  intros (pre & row & post & E & Hv & _ & Hp) Huv
         (pre' & row' & post' & E' & Hu & _ & Hp').
  rewrite E' in E. symmetry in E.
  destruct (split_order _ _ _ _ _ _ _ _ E Huv); contradiction.
Qed.

Lemma NoDup_edges_from adj seen :
  NoDup (dict_keys adj) ->
  (forall u row, In (u, row) adj -> NoDup (dict_keys row)) ->
  NoDup (edges_from adj seen).
Proof.
  revert seen. induction adj as [|[n nbrs] rest IH]; intros seen Hk Hr;
    cbn [edges_from]; [constructor|].
  cbn in Hk. inversion Hk as [|? ? Hn Hk']; subst.
  apply NoDup_app.
  - apply NoDup_map_inj; [intros x y _ _ [= ->]; reflexivity|].
    apply NoDup_filter. apply (Hr n). now left.
  - apply IH; [assumption|]. intros u row Hin. apply (Hr u). now right.
  - intros [a b] Ha Hb. apply in_map_iff in Ha.
    destruct Ha as (x & [= <- <-] & _). apply in_edges_from in Hb.
    destruct Hb as (pre & row & post & -> & _). apply Hn.
    unfold dict_keys. rewrite map_app. apply in_or_app. right. now left.
Qed.

(** Every link is reported once. *)
Lemma NoDup_edges : NoDup (edges G).
Proof.
  apply NoDup_edges_from; [now apply wf_keys|].
  intros u row Hin. now apply (wf_row_in G Hwf u row).
Qed.

End EdgesFacts.

(** ** Removing a link *)

Lemma wf_graph_iff (G : Graph) :
  wf_graph G = true <->
  NoDup (dict_keys (g_adj G))
  /\ forall u row, In (u, row) (g_adj G) ->
       NoDup (dict_keys row)
       /\ forall v, In v (dict_keys row) -> has_edge G v u = true.
Proof.
  split.
  - intros Hwf. split; [now apply wf_keys|]. intros u row. now apply wf_row_in.
  - intros [Hk Hr]. unfold wf_graph. apply andb_true_iff. split.
    + now apply nodupb_NoDup.
    + apply forallb_forall. intros [u row] Hin. cbn [fst snd].
      destruct (Hr u row Hin) as [Hnd Hsym]. apply andb_true_iff. split.
      * now apply nodupb_NoDup.
      * now apply forallb_forall.
Qed.

Lemma dict_keys_del {V} (d : dict string V) (k : string) :
  NoDup (dict_keys d) ->
  dict_keys (dict_del d k) = filter (fun x => negb (String.eqb k x)) (dict_keys d).
Proof.
  unfold dict_keys.
  induction d as [|[k' v'] d IH]; intros Hnd; cbn [dict_del map fst filter];
    [reflexivity|].
  cbn in Hnd. inversion Hnd as [|? ? Hni Hnd']; subst.
  rewrite (String.eqb_sym k k'). cbn [keqb Key_string].
  destruct (String.eqb_spec k' k) as [->|Hk]; cbn [negb map fst].
  - symmetry. apply filter_all. intros x Hx. apply negb_true_iff.
    apply String.eqb_neq. intros <-. contradiction.
  - now rewrite IH.
Qed.

Lemma dict_mem_del {V} (d : dict string V) (k y : string) :
  NoDup (dict_keys d) ->
  dict_mem (dict_del d k) y = dict_mem d y && negb (String.eqb k y).
Proof.
  intros Hnd.
  destruct (dict_mem (dict_del d k) y) eqn:E1, (dict_mem d y) eqn:E2,
    (String.eqb_spec k y) as [->|Hk]; cbn; try reflexivity; exfalso.
  - apply dict_mem_true in E1. rewrite dict_keys_del in E1 by assumption.
    apply filter_In in E1. destruct E1 as [_ E1].
    now rewrite String.eqb_refl in E1.
  - apply dict_mem_true in E1. rewrite dict_keys_del in E1 by assumption.
    apply filter_In in E1. destruct E1 as [E1 _].
    apply dict_mem_true in E1. congruence.
  - apply dict_mem_true in E1. rewrite dict_keys_del in E1 by assumption.
    apply filter_In in E1. destruct E1 as [E1 _].
    apply dict_mem_true in E1. congruence.
  - apply dict_mem_true in E2.
    assert (In y (dict_keys (dict_del d k))).
    { rewrite dict_keys_del by assumption. apply filter_In. split; auto.
      apply negb_true_iff. now apply String.eqb_neq. }
    apply dict_mem_true in H. congruence.
Qed.

Lemma dict_set_map {V} (d : dict string V) (k : string) (v : V) :
  In k (dict_keys d) -> NoDup (dict_keys d) ->
  dict_set d k v =
    map (fun kv => if String.eqb (fst kv) k then (fst kv, v) else kv) d.
Proof.
  induction d as [|[k' v'] d IH]; intros Hin Hnd; [contradiction|].
  cbn in *. inversion Hnd as [|? ? Hni Hnd']; subst.
  destruct (String.eqb_spec k' k) as [->|Hk].
  - f_equal. symmetry. rewrite <- (map_id d) at 2. apply map_ext_in.
    intros [x y] Hx. cbn. destruct (String.eqb_spec x k) as [->|]; auto.
    exfalso. apply Hni. change k with (fst (k, y)). now apply in_map.
  - f_equal. destruct Hin as [->|Hin]; [contradiction|]. now apply IH.
Qed.

(** The row of [n] once the link between [u] and [v] is gone. *)
Definition unlink_row (u v n : string) (row : dict string edge_attrs)
  : dict string edge_attrs :=
  let r1 := if String.eqb n u then dict_del row v else row in
  if String.eqb n v then dict_del r1 u else r1.

Definition unlink_adj (u v : string) (adj : dict string (dict string edge_attrs))
  : dict string (dict string edge_attrs) :=
  map (fun nr => (fst nr, unlink_row u v (fst nr) (snd nr))) adj.

Lemma dict_del_absent {V} (d : dict string V) (k : string) :
  ~ In k (dict_keys d) -> dict_del d k = d.
Proof.
  induction d as [|[k' v'] d IH]; intros Hni; cbn; [reflexivity|].
  cbn in Hni. destruct (String.eqb_spec k' k) as [->|Hk]; [tauto|].
  f_equal. apply IH. tauto.
Qed.

Lemma NoDup_keys_del {V} (d : dict string V) (k : string) :
  NoDup (dict_keys d) -> NoDup (dict_keys (dict_del d k)).
Proof.
  intros Hnd. rewrite dict_keys_del by assumption. now apply NoDup_filter.
Qed.

Lemma filter_twice {A} (f g : A -> bool) (l : list A) :
  filter f (filter g l) = filter (fun x => g x && f x) l.
Proof.
  induction l as [|a l IH]; cbn; [reflexivity|].
  destruct (g a); cbn; [destruct (f a)|]; now rewrite IH.
Qed.

Lemma unlink_row_keys (u v n : string) row :
  NoDup (dict_keys row) ->
  dict_keys (unlink_row u v n row)
  = filter (fun y => negb (same_link (u, v) (n, y))) (dict_keys row).
Proof.
  intros Hnd. unfold unlink_row, same_link. cbn [fst snd].
  rewrite (String.eqb_sym u n), (String.eqb_sym v n).
  destruct (String.eqb n u) eqn:Eu, (String.eqb n v) eqn:Ev.
  - rewrite !dict_keys_del by auto using NoDup_keys_del.
    rewrite filter_twice. apply filter_ext. intros y.
    destruct (String.eqb v y), (String.eqb u y); reflexivity.
  - rewrite dict_keys_del by assumption. apply filter_ext. intros y.
    destruct (String.eqb v y), (String.eqb u y); reflexivity.
  - rewrite dict_keys_del by assumption. apply filter_ext. intros y.
    destruct (String.eqb v y), (String.eqb u y); reflexivity.
  - symmetry. apply filter_all. intros y _.
    destruct (String.eqb v y), (String.eqb u y); reflexivity.
Qed.

Lemma unlink_adj_keys u v adj : dict_keys (unlink_adj u v adj) = dict_keys adj.
Proof. unfold unlink_adj, dict_keys. rewrite map_map. reflexivity. Qed.

Lemma unlink_adj_get u v adj (n : string) :
  dict_get (unlink_adj u v adj) n = option_map (unlink_row u v n) (dict_get adj n).
Proof.
  induction adj as [|[k row] adj IH]; cbn; [reflexivity|].
  destruct (String.eqb_spec k n) as [->|]; [reflexivity|apply IH].
Qed.

Lemma remove_edge_unlink (G : Graph) (u v : string) :
  wf_graph G = true -> has_edge G u v = true ->
  remove_edge G u v =
    Ok (with_tables G (g_node G) (unlink_adj u v (g_adj G))).
Proof.
  intros Hwf Huv. pose proof (wf_sym G Hwf u v Huv) as Hvu.
  pose proof (wf_keys G Hwf) as Hk.
  unfold remove_edge. unfold has_edge in Huv, Hvu.
  destruct (dict_get (g_adj G) u) as [ru|] eqn:Eu; [|discriminate].
  rewrite Huv.
  assert (Hinu : In u (dict_keys (g_adj G))).
  { apply dict_get_In in Eu. change u with (fst (u, ru)). now apply in_map. }
  assert (Hru : NoDup (dict_keys ru)).
  { apply dict_get_In in Eu. now apply (wf_row_in G Hwf u ru). }
  destruct (String.eqb_spec u v) as [<-|Hne].
  - do 2 f_equal. rewrite dict_set_map by assumption.
    unfold unlink_adj. apply map_ext_in. intros [n row] Hin. cbn [fst snd].
    unfold unlink_row. destruct (String.eqb_spec n u) as [->|]; [|reflexivity].
    assert (row = ru).
    { apply dict_get_NoDup_In in Hin; [|assumption]. congruence. }
    subst row. f_equal. symmetry. apply dict_del_absent.
    rewrite dict_keys_del by assumption. intros Hin'.
    apply filter_In in Hin'. destruct Hin' as [_ Hin'].
    now rewrite String.eqb_refl in Hin'.
  - destruct (dict_get (g_adj G) v) as [rv|] eqn:Ev; [|discriminate].
    rewrite dict_get_set_neq, Ev, Hvu by assumption.
    assert (Hinv : In v (dict_keys (g_adj G))).
    { apply dict_get_In in Ev. change v with (fst (v, rv)). now apply in_map. }
    do 2 f_equal. rewrite (dict_set_map (g_adj G)) by assumption.
    rewrite dict_set_map.
    + unfold unlink_adj. rewrite map_map. apply map_ext_in.
      intros [n row] Hin. cbn [fst snd]. unfold unlink_row.
      pose proof (dict_get_NoDup_In _ _ _ Hk Hin) as Hrow.
      destruct (String.eqb_spec n u) as [->|Hnu]; cbn [fst snd].
      * rewrite (proj2 (String.eqb_neq u v) Hne). congruence.
      * destruct (String.eqb_spec n v) as [->|Hnv]; [|reflexivity]. congruence.
    + unfold dict_keys. rewrite map_map.
      rewrite (map_ext _ fst); [assumption|].
      intros [n row]. cbn. now destruct (String.eqb n u).
    + unfold dict_keys. rewrite map_map.
      rewrite (map_ext _ fst); [assumption|].
      intros [n row]. cbn. now destruct (String.eqb n u).
Qed.

(** The graph once the link between [u] and [v] is gone. *)
Definition unlink (G : Graph) (u v : string) : Graph :=
  with_tables G (g_node G) (unlink_adj u v (g_adj G)).

Lemma dict_mem_keys {V} (d : dict string V) (y : string) :
  dict_mem d y = mem y (dict_keys d).
Proof.
  destruct (mem y (dict_keys d)) eqn:E.
  - apply dict_mem_true. now apply mem_true in E.
  - destruct (dict_mem d y) eqn:E'; [|reflexivity].
    apply dict_mem_true, mem_true in E'. congruence.
Qed.

Lemma mem_filter (P : string -> bool) (l : list string) (y : string) :
  mem y (filter P l) = mem y l && P y.
Proof.
  destruct (mem y (filter P l)) eqn:E.
  - apply mem_true, filter_In in E. destruct E as [E1 E2].
    apply mem_true in E1. now rewrite E1, E2.
  - destruct (mem y l) eqn:E1, (P y) eqn:E2; try reflexivity.
    apply mem_true in E1.
    assert (In y (filter P l)) by (apply filter_In; now split).
    apply mem_true in H. congruence.
Qed.

Lemma unlink_row_nil (u v n : string) : unlink_row u v n [] = [].
Proof.
  unfold unlink_row. now destruct (String.eqb n u), (String.eqb n v).
Qed.

Lemma unlink_adj_row u v adj (n : string) :
  adj_row (unlink_adj u v adj) n = unlink_row u v n (adj_row adj n).
Proof.
  unfold adj_row. rewrite unlink_adj_get.
  destruct (dict_get adj n); cbn; [reflexivity|].
  symmetry. apply unlink_row_nil.
Qed.

Lemma same_link_swap (e : string * string) (x y : string) :
  same_link e (y, x) = same_link e (x, y).
Proof.
  unfold same_link. cbn [fst snd].
  destruct (String.eqb (fst e) x), (String.eqb (fst e) y),
    (String.eqb (snd e) x), (String.eqb (snd e) y); reflexivity.
Qed.

Section Unlink.
Variable G : Graph.
Hypothesis Hwf : wf_graph G = true.
Variables u v : string.

Lemma unlink_has_edge (x y : string) :
  has_edge (unlink G u v) x y
  = has_edge G x y && negb (same_link (u, v) (x, y)).
Proof.
  rewrite !has_edge_row. unfold unlink. cbn [with_tables g_adj].
  rewrite unlink_adj_row, !dict_mem_keys.
  rewrite unlink_row_keys by now apply wf_row.
  apply mem_filter.
Qed.

Lemma unlink_wf : wf_graph (unlink G u v) = true.
Proof.
  apply wf_graph_iff. pose proof (wf_keys G Hwf) as Hk.
  assert (Hk' : NoDup (dict_keys (g_adj (unlink G u v)))).
  { unfold unlink. cbn [with_tables g_adj]. now rewrite unlink_adj_keys. }
  split; [exact Hk'|].
  intros n row' Hin.
  assert (Hget : dict_get (g_adj (unlink G u v)) n = Some row')
    by now apply dict_get_NoDup_In.
  unfold unlink in Hin. cbn [with_tables g_adj] in Hin.
  unfold unlink_adj in Hin. apply in_map_iff in Hin.
  destruct Hin as ([n0 row] & [= -> <-] & Hin). cbn [fst snd] in *.
  destruct (wf_row_in G Hwf n row Hin) as [Hnd Hsym].
  split.
  - rewrite unlink_row_keys by assumption. now apply NoDup_filter.
  - intros y Hy. rewrite unlink_has_edge.
    rewrite unlink_row_keys in Hy by assumption.
    apply filter_In in Hy. destruct Hy as [Hy Hl].
    rewrite (Hsym y Hy). cbn [andb]. now rewrite same_link_swap.
Qed.

Lemma unlink_edges_from adj seen :
  (forall n row, In (n, row) adj -> NoDup (dict_keys row)) ->
  edges_from (unlink_adj u v adj) seen
  = filter (fun e => negb (same_link (u, v) e)) (edges_from adj seen).
Proof.
  revert seen. induction adj as [|[n row] adj IH]; intros seen Hr;
    cbn [unlink_adj map edges_from fst snd]; [reflexivity|].
  rewrite filter_app. f_equal.
  - rewrite unlink_row_keys by (apply (Hr n); now left).
    rewrite filter_twice.
    rewrite (filter_ext _ (fun y => negb (mem y seen)
                             && negb (same_link (u, v) (n, y))))
      by (intros y; apply andb_comm).
    rewrite <- filter_twice.
    generalize (filter (fun nbr => negb (mem nbr seen)) (dict_keys row)).
    intros l. induction l as [|a l IHl]; cbn; [reflexivity|].
    destruct (same_link (u, v) (n, a)); cbn; now rewrite IHl.
  - apply IH. intros n' row' Hin. apply (Hr n'). now right.
Qed.

(** The links reported once the link between [u] and [v] is gone. *)
Lemma unlink_edges :
  edges (unlink G u v)
  = filter (fun e => negb (same_link (u, v) e)) (edges G).
Proof.
  unfold edges, unlink. cbn [with_tables g_adj].
  apply unlink_edges_from. intros n row Hin.
  now apply (wf_row_in G Hwf n row).
Qed.

End Unlink.

(** ** The link-failure model *)

Definition unlink_all (G : Graph) (L : list (string * string)) : Graph :=
  fold_left (fun G e => unlink G (fst e) (snd e)) L G.

(** No two pairs of the list name the same link. *)
Definition links_distinct (L : list (string * string)) : Prop :=
  ForallOrdPairs (fun e e' => same_link e e' = false) L.

Lemma unlink_all_spec (L : list (string * string)) (G : Graph) :
  wf_graph G = true ->
  wf_graph (unlink_all G L) = true
  /\ g_node (unlink_all G L) = g_node G
  /\ (forall x y, has_edge (unlink_all G L) x y
                  = has_edge G x y
                    && negb (existsb (fun e => same_link e (x, y)) L))
  /\ edges (unlink_all G L)
     = filter (fun x => negb (existsb (fun e => same_link e x) L)) (edges G).
Proof.
  revert G. induction L as [|[u v] L IH]; intros G Hwf; cbn [unlink_all fold_left].
  - repeat split; auto.
    + intros x y. cbn. now rewrite andb_true_r.
    + cbn. symmetry. now apply filter_all.
  - fold (unlink_all (unlink G (fst (u, v)) (snd (u, v))) L). cbn [fst snd].
    destruct (IH (unlink G u v) (unlink_wf G Hwf u v)) as (Hw & Hn & He & Hl).
    repeat split; auto.
    + intros x y. rewrite He, unlink_has_edge by assumption. cbn [existsb].
      rewrite negb_orb. now rewrite andb_assoc.
    + rewrite Hl, unlink_edges by assumption. rewrite filter_twice.
      apply filter_ext. intros x. cbn [existsb]. now rewrite negb_orb.
Qed.

Lemma NoDup_app_disjoint {A} (l l' : list A) (x : A) :
  NoDup (l ++ l') -> In x l -> In x l' -> False.
Proof.
  induction l as [|a l IH]; intros Hnd Hl Hl'; [contradiction|].
  cbn in Hnd. inversion Hnd as [|? ? Hni Hnd']; subst.
  destruct Hl as [->|Hl]; [|now apply IH].
  apply Hni. apply in_or_app. now right.
Qed.

Lemma ForallOrdPairs_NoDup {A} (R : A -> A -> Prop) (l : list A) :
  NoDup l -> (forall a b, In a l -> In b l -> a <> b -> R a b) ->
  ForallOrdPairs R l.
Proof.
  induction l as [|a l IH]; intros Hnd HR; constructor.
  - inversion Hnd; subst. apply Forall_forall. intros b Hb.
    apply HR; [now left|now right|]. intros ->. contradiction.
  - inversion Hnd; subst. apply IH; auto.
    intros x y Hx Hy. apply HR; now right.
Qed.

Lemma same_link_edges (G : Graph) (e e' : string * string) :
  wf_graph G = true -> In e (edges G) -> In e' (edges G) ->
  same_link e e' = true -> e = e'.
Proof.
  intros Hwf He He'. destruct e as [a b], e' as [c d].
  unfold same_link. cbn [fst snd]. intros H. apply orb_true_iff in H.
  destruct H as [H|H]; apply andb_true_iff in H; destruct H as [H1 H2];
    apply String.eqb_eq in H1, H2; subst; [reflexivity|].
  destruct (String.eqb_spec d c) as [->|Hne]; [reflexivity|].
  exfalso. now apply (edges_no_reverse G d c He).
Qed.

Lemma same_link_refl (e : string * string) : same_link e e = true.
Proof. unfold same_link. now rewrite !String.eqb_refl. Qed.

Section FailureModel.
Context {RS : RandomSource}.

Definition removal_body (_ : unit) (uv : string * string) : M unit :=
  bindM (gets (fun G => has_edge G (fst uv) (snd uv))) (fun b =>
  if b then G_remove_edge (fst uv) (snd uv) else ret tt).

(** The loop of lines 103-105 removes every link of a list of distinct
    links of the graph. *)
Lemma removal_loop (L : list (string * string)) (G : Graph) (s : rng) :
  wf_graph G = true ->
  (forall e, In e L -> has_edge G (fst e) (snd e) = true) ->
  links_distinct L ->
  for_eachM L removal_body tt {| w_G := G; w_random := s |}
  = (Ok tt, {| w_G := unlink_all G L; w_random := s |}).
Proof.
  revert G. induction L as [|e L IH]; intros G Hwf Hin Hd.
  - reflexivity.
  - inversion Hd as [|? ? Hhd Htl]; subst. cbn [for_eachM].
    unfold bindM at 1. unfold removal_body at 1, bindM, gets, G_remove_edge.
    cbn [w_G w_random]. rewrite (Hin e (or_introl eq_refl)).
    rewrite remove_edge_unlink by auto using in_eq.
    cbn [unlink_all fold_left].
    apply (IH (unlink G (fst e) (snd e))).
    + now apply unlink_wf.
    + intros e' He'. rewrite unlink_has_edge by assumption.
      rewrite (Hin e' (or_intror He')). cbn [andb].
      rewrite Forall_forall in Hhd. specialize (Hhd e' He').
      destruct e as [a b], e' as [c d]. cbn [fst snd] in *. now rewrite Hhd.
    + assumption.
Qed.

(** What a sample of the links of a well-formed graph is made of. *)
Lemma sample_edges (G : Graph) (k : nat) (s : rng) :
  wf_graph G = true -> (k <= List.length (edges G))%nat ->
  forall L, L = fst (sample (edges G) k s) ->
  List.length L = k
  /\ NoDup L
  /\ incl L (edges G)
  /\ links_distinct L
  /\ List.length (filter (fun x => negb (existsb (fun e => same_link e x) L))
                    (edges G))
     = (List.length (edges G) - k)%nat.
Proof.
  intros Hwf Hk L HL. pose proof (NoDup_edges G Hwf) as Hnd.
  pose proof (sample_length _ (edges G) k s Hk) as Hlen.
  destruct (sample_without_replacement _ (edges G) k s Hk) as [rest Hperm].
  rewrite <- HL in Hlen, Hperm. clear HL.
  assert (HndLR : NoDup (L ++ rest))
    by (eapply Permutation_NoDup; [symmetry; exact Hperm|exact Hnd]).
  assert (HndL : NoDup L) by (now apply NoDup_app_remove_r in HndLR).
  assert (Hincl : incl L (edges G)).
  { intros e He. eapply Permutation_in; [exact Hperm|].
    apply in_or_app. now left. }
  split; [exact Hlen|]. split; [exact HndL|]. split; [exact Hincl|]. split.
  - apply ForallOrdPairs_NoDup; [exact HndL|].
    intros a b Ha Hb Hab. destruct (same_link a b) eqn:E; [|reflexivity].
    exfalso. apply Hab. apply (same_link_edges G); auto.
  - assert (Hf : forall x, In x (edges G) ->
                 negb (existsb (fun e => same_link e x) L) = true <-> ~ In x L).
    { intros x Hx. rewrite negb_true_iff. split.
      - intros Hex Hin.
        assert (existsb (fun e => same_link e x) L = true); [|congruence].
        apply existsb_exists. exists x. split; [exact Hin|apply same_link_refl].
      - intros Hni. destruct (existsb _ L) eqn:Hex; [|reflexivity].
        apply existsb_exists in Hex. destruct Hex as (e & He & Hs).
        apply (same_link_edges G e x Hwf (Hincl e He) Hx) in Hs. now subst. }
    assert (Hrest : Permutation
                      (filter (fun x => negb (existsb (fun e => same_link e x) L))
                         (edges G)) rest).
    { apply NoDup_Permutation.
      - now apply NoDup_filter.
      - now apply NoDup_app_remove_l in HndLR.
      - intros x. rewrite filter_In. split.
        + intros [Hx Hb]. apply Hf in Hb; [|exact Hx].
          apply (Permutation_in _ (Permutation_sym Hperm)) in Hx.
          apply in_app_or in Hx. tauto.
        + intros Hx.
          assert (Hxe : In x (edges G)).
          { eapply Permutation_in; [exact Hperm|]. apply in_or_app. now right. }
          split; [exact Hxe|]. apply Hf; [exact Hxe|].
          intros HxL. exact (NoDup_app_disjoint _ _ x HndLR HxL Hx). }
    rewrite (Permutation_length Hrest).
    apply Permutation_length in Hperm. rewrite length_app in Hperm. lia.
Qed.

End FailureModel.


Section FailureTheorems.
Context {RS : RandomSource}.

Definition at_world (G : Graph) (s : rng) : world :=
  {| w_G := G; w_random := s |}.

(** C5. For every graph and every failure rate [r <= 0],
    [model_link_failures] returns the empty list and leaves the graph (and
    the generator) exactly as they were. *)
Theorem model_link_failures_nonpositive (G : Graph) (s : rng) (rate : float) :
  (rate <=? 0)%float = true ->
  model_link_failures rate (at_world G s) = (Ok [], at_world G s).
Proof.
  intros Hr. unfold model_link_failures. now rewrite Hr.
Qed.

Lemma model_link_failures_unfold (G : Graph) (s : rng) (rate : float) (n : Z) :
  (rate <=? 0)%float = false ->
  num_to_fail_of (len (edges G)) rate = Ok n ->
  model_link_failures rate (at_world G s) =
    bindM (random_sample (edges G) n) (fun edges_to_remove =>
    bindM (for_eachM edges_to_remove removal_body tt) (fun _ =>
    ret edges_to_remove)) (at_world G s).
Proof.
  intros Hr Hn. unfold model_link_failures. rewrite Hr.
  unfold bindM at 1. unfold gets at 1. cbn [at_world w_G].
  unfold bindM at 1. unfold lift at 1. rewrite Hn. reflexivity.
Qed.

(** C4, as the code has it. When the number of links to fail exceeds the
    number of links, as it does for rates above 100 on a graph with links,
    [model_link_failures] does not clamp it: [random.sample] raises
    [ValueError] and the graph is left as it was. *)
Theorem model_link_failures_oversized
    (G : Graph) (s : rng) (rate : float) (n : Z) :
  (rate <=? 0)%float = false ->
  num_to_fail_of (len (edges G)) rate = Ok n ->
  len (edges G) < n ->
  model_link_failures rate (at_world G s) =
    (Raise (ValueError "Sample larger than population or is negative"),
     at_world G s).
Proof.
  intros Hr Hn Hlt. rewrite (model_link_failures_unfold G s rate n Hr Hn).
  unfold bindM at 1. unfold random_sample.
  assert (E : (n <? 0) || (len (edges G) <? n) = true).
  { apply orb_true_iff. right. now apply Z.ltb_lt. }
  now rewrite E.
Qed.


End FailureTheorems.

(** ** The failure model on concrete graphs *)

(** [build_fat_tree 4] and [build_fat_tree 2], evaluated. *)
Definition G4 : Graph :=
  Eval vm_compute in
    match build_fat_tree 4 with Ok G => G | Raise _ => empty_graph end.

Definition G2 : Graph :=
  Eval vm_compute in
    match build_fat_tree 2 with Ok G => G | Raise _ => empty_graph end.


(** What one call of [model_link_failures] does, in numbers: how many links
    it returns and how many the graph has afterwards. *)
Definition failure_counts (G : Graph) (rate : float) (s : Z) : outcome (Z * Z) :=
  match @model_link_failures lcg_source rate (at_world G s) with
  | (Ok L, w') => Ok (len L, len (edges (w_G w')))
  | (Raise e, _) => Raise e
  end.

Lemma build_fat_tree_4 : build_fat_tree 4 = Ok G4.
Proof. vm_compute. reflexivity. Qed.

Lemma build_fat_tree_2 : build_fat_tree 2 = Ok G2.
Proof. vm_compute. reflexivity. Qed.

Lemma model_link_failures_nonpositive_witness :
  @model_link_failures lcg_source 0 (at_world G4 0) = (Ok [], at_world G4 0)
  /\ @model_link_failures lcg_source (-2.5) (at_world G4 7)
     = (Ok [], at_world G4 7).
Proof.
  split.
  - apply (@model_link_failures_nonpositive lcg_source G4 0 0). reflexivity.
  - apply (@model_link_failures_nonpositive lcg_source G4 7 (-2.5)).
    reflexivity.
Defined.

Lemma model_link_failures_oversized_witness :
  @model_link_failures lcg_source 150 (at_world G2 0)
  = (Raise (ValueError "Sample larger than population or is negative"),
     at_world G2 0).
Proof.
  apply (@model_link_failures_oversized lcg_source G2 0 150 9).
  - reflexivity.
  - vm_compute. reflexivity.
  - vm_compute. reflexivity.
Defined.

(** On the fat tree for [k = 2] (6 links) a rate of 150 percent asks for 9
    links: the call fails with [ValueError] instead of removing the 6 links,
    and no link is removed. *)
Lemma model_link_failures_does_not_clamp :
  build_fat_tree 2 = Ok G2
  /\ len (edges G2) = 6
  /\ (100 <? 150)%float = true
  /\ num_to_fail_of 6 150 = Ok 9
  /\ failure_counts G2 150 0
     = Raise (ValueError "Sample larger than population or is negative")
  /\ snd (@model_link_failures lcg_source 150 (at_world G2 0)) = at_world G2 0.
Proof. repeat split; vm_compute; reflexivity. Qed.



(** ** Breadth-first search measures shortest walks *)

(** A walk of [n] links from one node to another. *)
Inductive walk (G : Graph) : string -> string -> nat -> Prop :=
| walk_here u : walk G u u 0
| walk_link u v w n :
    has_edge G u v = true -> walk G v w n -> walk G u w (S n).

(** [n] is the number of links of a shortest walk from [s] to [t]. *)
Definition distance (G : Graph) (s t : string) (n : nat) : Prop :=
  walk G s t n /\ forall m, walk G s t m -> (n <= m)%nat.

(** The library keeps one adjacency row per node, in the order of the node
    table. *)
Definition tables_agree (G : Graph) : Prop :=
  dict_keys (g_adj G) = dict_keys (g_node G).

Lemma in_neighbors (G : Graph) (u v : string) :
  In v (neighbors G u) <-> has_edge G u v = true.
Proof.
  unfold neighbors. rewrite has_edge_row. symmetry. apply dict_mem_true.
Qed.

Lemma walk_snoc (G : Graph) (s u v : string) (n : nat) :
  walk G s u n -> has_edge G u v = true -> walk G s v (S n).
Proof.
  induction 1 as [u|a b c n Hab Hbc IH]; intros He.
  - apply (walk_link G u v v 0 He). constructor.
  - apply (walk_link G a b v (S n) Hab). now apply IH.
Qed.

Lemma walk_unsnoc (G : Graph) (s v : string) (n : nat) :
  walk G s v (S n) -> exists u, walk G s u n /\ has_edge G u v = true.
Proof.
  revert s. induction n as [|n IH]; intros s H;
    inversion H as [|a b c m Hab Hbc]; subst.
  - inversion Hbc; subst. exists s. split; [constructor|assumption].
  - apply IH in Hbc. destruct Hbc as (u & Hu & He).
    exists u. split; [|assumption]. now apply (walk_link G s b u n).
Qed.

Lemma walk_zero (G : Graph) (s v : string) : walk G s v 0 -> v = s.
Proof. intros H. now inversion H. Qed.

(** One row of [next_level]: the neighbours not reached before are added,
    each once. *)
Lemma visit_row_in (V nbrs acc : list string) (x : string) :
  In x (fold_left
          (fun acc v => if mem v V || mem v acc then acc else acc ++ [v])
          nbrs acc)
  <-> In x acc \/ (In x nbrs /\ ~ In x V).
Proof.
  revert acc. induction nbrs as [|v nbrs IH]; intros acc; cbn [fold_left].
  - split; [now left|]. intros [H|[[] _]]. exact H.
  - rewrite IH. destruct (mem v V) eqn:EV; cbn [orb].
    + apply mem_true in EV. split.
      * intros [H|[H1 H2]]; [now left|]. right. split; [now right|assumption].
      * intros [H|[[->|H1] H2]]; [now left|contradiction|]. right. now split.
    + apply mem_false in EV. destruct (mem v acc) eqn:EA.
      * apply mem_true in EA. split.
        -- intros [H|[H1 H2]]; [now left|]. right. split; [now right|assumption].
        -- intros [H|[[->|H1] H2]]; [now left|now left|]. right. now split.
      * rewrite in_app_iff. cbn [In]. split.
        -- intros [[H|[H|[]]]|[H1 H2]].
           ++ now left.
           ++ subst x. right. split; [now left|assumption].
           ++ right. split; [now right|assumption].
        -- intros [H|[[->|H1] H2]].
           ++ left. now left.
           ++ left. right. now left.
           ++ right. now split.
Qed.

Lemma visit_row_NoDup (V nbrs acc : list string) :
  NoDup acc ->
  NoDup (fold_left
           (fun acc v => if mem v V || mem v acc then acc else acc ++ [v])
           nbrs acc).
Proof.
  revert acc. induction nbrs as [|v nbrs IH]; intros acc Hnd; cbn [fold_left];
    [assumption|].
  apply IH. destruct (mem v V); cbn [orb]; [assumption|].
  destruct (mem v acc) eqn:EA; [assumption|].
  apply mem_false in EA. apply NoDup_app; [assumption|repeat constructor; auto|].
  intros x Hx [->|[]]. contradiction.
Qed.

Lemma next_level_from (G : Graph) (F V acc : list string) (x : string) :
  In x (fold_left
          (fun acc u =>
             fold_left
               (fun acc v => if mem v V || mem v acc then acc else acc ++ [v])
               (neighbors G u) acc)
          F acc)
  <-> In x acc
      \/ ((exists u, In u F /\ has_edge G u x = true) /\ ~ In x V).
Proof.
  revert acc. induction F as [|u F IH]; intros acc; cbn [fold_left].
  - split; [now left|]. intros [H|[(u & [] & _) _]]. exact H.
  - rewrite IH, visit_row_in, in_neighbors. split.
    + intros [[H|[H1 H2]]|[(w & Hw & He) H2]].
      * now left.
      * right. split; [|assumption]. exists u. split; [now left|assumption].
      * right. split; [|assumption]. exists w. split; [now right|assumption].
    + intros [H|[(w & [->|Hw] & He) H2]].
      * left. now left.
      * left. right. now split.
      * right. split; [|assumption]. now exists w.
Qed.

Lemma next_level_in (G : Graph) (F V : list string) (x : string) :
  In x (next_level G F V)
  <-> (exists u, In u F /\ has_edge G u x = true) /\ ~ In x V.
Proof.
  unfold next_level. rewrite next_level_from. split; [|now right].
  intros [[]|H]. exact H.
Qed.

Lemma next_level_NoDup (G : Graph) (F V : list string) :
  NoDup (next_level G F V).
Proof.
  unfold next_level.
  assert (H : forall acc, NoDup acc ->
            NoDup (fold_left
              (fun acc u =>
                 fold_left
                   (fun acc v =>
                      if mem v V || mem v acc then acc else acc ++ [v])
                   (neighbors G u) acc)
              F acc)).
  { induction F as [|u F IH]; intros acc Hnd; cbn [fold_left];
      [assumption|]. apply IH. now apply visit_row_NoDup. }
  apply H. constructor.
Qed.

Section Bfs.
Variables (G : Graph) (s t : string).
Hypothesis Hwf : wf_graph G = true.
Hypothesis Hkeys : tables_agree G.
Hypothesis Hs : has_node G s = true.

(** What holds each time [bfs] is entered: the frontier is made of nodes
    [d] links from [s], the visited list is made of the nodes at most [d]
    links from [s], and the target is not nearer than [d]. *)
Record bfs_inv (F V : list string) (d : nat) : Prop := {
  inv_frontier : forall v, In v F -> walk G s v d;
  inv_visited : forall v,
      In v V -> In v F \/ exists m, (m < d)%nat /\ walk G s v m;
  inv_within : forall v m, walk G s v m -> (m <= d)%nat -> In v V;
  inv_target : forall m, (m < d)%nat -> ~ walk G s t m;
  inv_nodup : NoDup V;
  inv_nodes : incl V (dict_keys (g_adj G))
}.

Lemma has_edge_key (u v : string) :
  has_edge G u v = true -> In u (dict_keys (g_adj G)).
Proof.
  unfold has_edge. destruct (dict_get (g_adj G) u) as [row|] eqn:E;
    [|discriminate].
  intros _. apply dict_get_In in E. unfold dict_keys.
  apply in_map_iff. now exists (u, row).
Qed.

Lemma bfs_inv_init : bfs_inv [s] [s] 0.
Proof.
  split.
  - intros v [<-|[]]. constructor.
  - intros v Hv. now left.
  - intros v m Hw Hm. assert (m = 0%nat) by lia. subst m.
    apply walk_zero in Hw. now left.
  - intros m Hm. lia.
  - repeat constructor. intros [].
  - intros v [<-|[]]. unfold tables_agree in Hkeys. rewrite Hkeys.
    now apply dict_mem_true.
Qed.

Lemma target_not_visited (F V : list string) (d : nat) :
  bfs_inv F V d -> mem t F = false -> ~ In t V.
Proof.
  intros I Ht Hin. apply mem_false in Ht.
  destruct (inv_visited F V d I t Hin) as [HF|(m & Hm & Hw)];
    [contradiction|]. exact (inv_target F V d I m Hm Hw).
Qed.

Lemma bfs_inv_step (F V : list string) (d : nat) :
  bfs_inv F V d -> mem t F = false ->
  bfs_inv (next_level G F V) (V ++ next_level G F V) (S d).
Proof.
  intros I Ht. split.
  - intros v Hv. apply next_level_in in Hv.
    destruct Hv as [(u & Hu & He) _].
    apply (walk_snoc G s u v d); [|assumption].
    exact (inv_frontier F V d I u Hu).
  - intros v Hv. apply in_app_or in Hv. destruct Hv as [Hv|Hv]; [|now left].
    right. destruct (inv_visited F V d I v Hv) as [HF|(m & Hm & Hw)].
    + exists d. split; [lia|]. exact (inv_frontier F V d I v HF).
    + exists m. split; [lia|assumption].
  - intros v m Hw Hm. apply in_or_app.
    destruct (in_dec string_dec v V) as [Hin|Hout]; [now left|].
    right. destruct (Nat.le_gt_cases m d) as [Hle|Hgt].
    { exfalso. apply Hout. exact (inv_within F V d I v m Hw Hle). }
    assert (m = S d) by lia. subst m.
    apply walk_unsnoc in Hw. destruct Hw as (u & Hu & He).
    apply next_level_in. split; [|assumption].
    assert (HuV : In u V) by exact (inv_within F V d I u d Hu (le_n d)).
    destruct (inv_visited F V d I u HuV) as [HF|(m & Hlt & Hw')].
    + now exists u.
    + exfalso. apply Hout.
      apply (inv_within F V d I v (S m)); [|lia].
      now apply (walk_snoc G s u v m).
  - intros m Hm Hw. destruct (Nat.eq_dec m d) as [->|Hne].
    + apply (target_not_visited F V d I Ht).
      exact (inv_within F V d I t d Hw (le_n d)).
    + apply (inv_target F V d I m); [lia|assumption].
  - apply NoDup_app.
    + exact (inv_nodup F V d I).
    + apply next_level_NoDup.
    + intros x Hx Hx'. apply next_level_in in Hx'. now destruct Hx'.
  - intros v Hv. apply in_app_or in Hv. destruct Hv as [Hv|Hv].
    + exact (inv_nodes F V d I v Hv).
    + apply next_level_in in Hv. destruct Hv as [(u & _ & He) _].
      apply (wf_sym G Hwf) in He. exact (has_edge_key v u He).
Qed.

(** When the frontier has no new neighbour, every node that can be reached
    was visited: the target, not among them, cannot be reached. *)
Lemma bfs_exhausted (F V : list string) (d : nat) :
  bfs_inv F V d -> mem t F = false -> next_level G F V = [] ->
  forall m, ~ walk G s t m.
Proof.
  intros I Ht Hnext.
  assert (Hall : forall m v, walk G s v m -> In v V).
  { induction m as [|m IH]; intros v Hw.
    - apply (inv_within F V d I v 0 Hw). lia.
    - apply walk_unsnoc in Hw. destruct Hw as (u & Hu & He).
      specialize (IH u Hu).
      destruct (in_dec string_dec v V) as [Hin|Hout]; [assumption|].
      exfalso.
      destruct (inv_visited F V d I u IH) as [HF|(m' & Hlt & Hw')].
      + assert (Hv : In v (next_level G F V)).
        { apply next_level_in. split; [|assumption]. now exists u. }
        rewrite Hnext in Hv. exact Hv.
      + apply Hout. apply (inv_within F V d I v (S m')); [|lia].
        now apply (walk_snoc G s u v m'). }
  intros m Hw. apply (target_not_visited F V d I Ht). exact (Hall m t Hw).
Qed.

Lemma visited_bound (F V : list string) (d : nat) :
  bfs_inv F V d -> (List.length V <= List.length (g_adj G))%nat.
Proof.
  intros I.
  replace (List.length (g_adj G)) with (List.length (dict_keys (g_adj G)))
    by (unfold dict_keys; apply length_map).
  apply NoDup_incl_length.
  - exact (inv_nodup F V d I).
  - exact (inv_nodes F V d I).
Qed.

(** With fuel for one more level than there are unvisited nodes, [bfs]
    returns the distance of the target, or [None] when no walk leads to
    it. *)
Lemma bfs_distance (fuel : nat) :
  forall F V d,
    bfs_inv F V d ->
    (List.length (g_adj G) < List.length V + fuel)%nat ->
    (exists n, bfs fuel G t F V (Z.of_nat d) = Some (Z.of_nat n)
               /\ distance G s t n)
    \/ (bfs fuel G t F V (Z.of_nat d) = None /\ forall m, ~ walk G s t m).
Proof.
  induction fuel as [|fuel IH]; intros F V d I Hfuel.
  - pose proof (visited_bound F V d I). lia.
  - cbn [bfs]. destruct (mem t F) eqn:Ht.
    + left. exists d. split; [reflexivity|]. split.
      * apply (inv_frontier F V d I). now apply mem_true.
      * intros m Hw. destruct (Nat.le_gt_cases d m) as [Hle|Hgt];
          [assumption|]. exfalso. exact (inv_target F V d I m Hgt Hw).
    + destruct (next_level G F V) as [|x next] eqn:Hnext.
      * right. split; [reflexivity|].
        exact (bfs_exhausted F V d I Ht Hnext).
      * pose proof (bfs_inv_step F V d I Ht) as I'. rewrite Hnext in I'.
        replace (Z.of_nat d + 1) with (Z.of_nat (S d)) by lia.
        apply IH; [exact I'|]. rewrite length_app. cbn [List.length]. lia.
Qed.

End Bfs.

(** What [nx.shortest_path_length] returns between two nodes of a graph:
    the number of links of a shortest walk, or [NetworkXNoPath] when there
    is no walk. *)
Lemma shortest_path_length_distance (G : Graph) (s t : string) :
  wf_graph G = true -> tables_agree G ->
  has_node G s = true -> has_node G t = true ->
  (exists n, shortest_path_length G s t = Ok (Z.of_nat n)
             /\ distance G s t n)
  \/ (shortest_path_length G s t = Raise NetworkXNoPath
      /\ forall m, ~ walk G s t m).
Proof.
  intros Hwf Hkeys Hs Ht. unfold shortest_path_length.
  rewrite Hs, Ht. cbn [negb orb].
  assert (Hlen : List.length (g_adj G) = List.length (g_node G)).
  { unfold tables_agree, dict_keys in Hkeys.
    apply (f_equal (@List.length string)) in Hkeys.
    now rewrite !length_map in Hkeys. }
  destruct (bfs_distance G s t Hwf (S (List.length (g_node G)))
              [s] [s] 0%nat (bfs_inv_init G s t Hkeys Hs))
    as [(n & E & Hd)|[E Hno]].
  - cbn [List.length]. lia.
  - left. exists n. change (Z.of_nat 0) with 0 in E. rewrite E. now split.
  - right. change (Z.of_nat 0) with 0 in E. rewrite E. now split.
Qed.

(** ** Host-to-host distances in the fat tree for [k = 4] *)

Definition option_eqb {A} (eqb : A -> A -> bool) (x y : option A) : bool :=
  match x, y with
  | Some a, Some b => eqb a b
  | None, None => true
  | _, _ => false
  end.

Lemma option_eqb_spec {A} (eqb : A -> A -> bool)
    (H : forall a b, eqb a b = true <-> a = b) (x y : option A) :
  option_eqb eqb x y = true <-> x = y.
Proof.
  destruct x as [a|], y as [b|]; cbn; try (split; congruence).
  rewrite H. split; congruence.
Qed.

(** The number of links between two hosts of a fat tree, by where they
    sit: the same host, two hosts under one edge switch, two hosts of one
    pod, two hosts of different pods. *)
Definition host_hops (G : Graph) (h1 h2 : string) : Z :=
  if String.eqb h1 h2 then 0
  else if option_eqb String.eqb (node_edge_anchor G h1) (node_edge_anchor G h2)
  then 2
  else if option_eqb Z.eqb (node_pod G h1) (node_pod G h2) then 4
  else 6.

Definition hops_as_expected (G : Graph) (h1 h2 : string) : bool :=
  match shortest_path_length G h1 h2 with
  | Ok d => d =? host_hops G h1 h2
  | Raise _ => false
  end.

Lemma G4_hops :
  forallb (fun h1 => forallb (hops_as_expected G4 h1) (nodes_of_type G4 host))
    (nodes_of_type G4 host) = true.
Proof. vm_compute. reflexivity. Qed.

Lemma G4_host_distance (h1 h2 : string) :
  In h1 (nodes_of_type G4 host) -> In h2 (nodes_of_type G4 host) ->
  shortest_path_length G4 h1 h2 = Ok (host_hops G4 h1 h2).
Proof.
  intros H1 H2.
  pose proof G4_hops as H.
  rewrite forallb_forall in H. specialize (H h1 H1).
  rewrite forallb_forall in H. specialize (H h2 H2).
  unfold hops_as_expected in H.
  destruct (shortest_path_length G4 h1 h2) as [d|e]; [|discriminate].
  apply Z.eqb_eq in H. congruence.
Qed.

Lemma nodes_of_type_has_node (G : Graph) (ty : node_type) (n : string) :
  In n (nodes_of_type G ty) -> has_node G n = true.
Proof.
  intros H. apply dict_mem_true. apply filter_In in H. exact (proj1 H).
Qed.

Lemma G4_wf : wf_graph G4 = true.
Proof. vm_compute. reflexivity. Qed.

Lemma G4_tables_agree : tables_agree G4.
Proof. vm_compute. reflexivity. Qed.

Lemma G4_connected (h1 h2 : string) :
  In h1 (nodes_of_type G4 host) -> In h2 (nodes_of_type G4 host) ->
  exists n, shortest_path_length G4 h1 h2 = Ok (Z.of_nat n)
            /\ distance G4 h1 h2 n.
Proof.
  intros H1 H2.
  destruct (shortest_path_length_distance G4 h1 h2 G4_wf G4_tables_agree
              (nodes_of_type_has_node G4 host h1 H1)
              (nodes_of_type_has_node G4 host h2 H2))
    as [Hyes|[Hno _]]; [exact Hyes|].
  rewrite (G4_host_distance h1 h2 H1 H2) in Hno. discriminate.
Qed.

(** C8 (as amended): [build_fat_tree 4] returns a graph with 16 hosts, 8
    edge switches, 8 aggregation switches and 4 core switches; every host
    is reachable from every host, [nx.shortest_path_length] returning the
    number of links of a shortest walk between them; two hosts in different
    pods are exactly 6 links apart, two hosts of one pod under different
    edge switches exactly 4, and two distinct hosts under one edge switch
    exactly 2. *)
Theorem build_fat_tree_4_distances :
  exists G,
    build_fat_tree 4 = Ok G
    /\ len (nodes_of_type G host) = 16
    /\ len (nodes_of_type G edge) = 8
    /\ len (nodes_of_type G agg) = 8
    /\ len (nodes_of_type G core) = 4
    /\ forall h1 h2,
         In h1 (nodes_of_type G host) -> In h2 (nodes_of_type G host) ->
         (exists n, shortest_path_length G h1 h2 = Ok (Z.of_nat n)
                    /\ distance G h1 h2 n)
         /\ (node_pod G h1 <> node_pod G h2 ->
             shortest_path_length G h1 h2 = Ok 6)
         /\ (node_pod G h1 = node_pod G h2 ->
             node_edge_anchor G h1 <> node_edge_anchor G h2 ->
             shortest_path_length G h1 h2 = Ok 4)
         /\ (h1 <> h2 -> node_edge_anchor G h1 = node_edge_anchor G h2 ->
             shortest_path_length G h1 h2 = Ok 2).
Proof.
  exists G4. split; [exact build_fat_tree_4|].
  do 4 (split; [vm_compute; reflexivity|]).
  intros h1 h2 H1 H2.
  pose proof (G4_host_distance h1 h2 H1 H2) as Hd.
  split; [exact (G4_connected h1 h2 H1 H2)|].
  assert (Hap : node_edge_anchor G4 h1 = node_edge_anchor G4 h2 ->
                node_pod G4 h1 = node_pod G4 h2).
  { assert (Hall : forallb (fun a => forallb (fun b =>
               implb (option_eqb String.eqb (node_edge_anchor G4 a)
                        (node_edge_anchor G4 b))
                     (option_eqb Z.eqb (node_pod G4 a) (node_pod G4 b)))
               (nodes_of_type G4 host)) (nodes_of_type G4 host) = true)
      by (vm_compute; reflexivity).
    rewrite forallb_forall in Hall. specialize (Hall h1 H1).
    rewrite forallb_forall in Hall. specialize (Hall h2 H2).
    intros Ea. apply (option_eqb_spec String.eqb String.eqb_eq) in Ea.
    rewrite Ea in Hall. cbn [implb] in Hall.
    now apply (option_eqb_spec Z.eqb Z.eqb_eq) in Hall. }
  rewrite Hd. unfold host_hops.
  destruct (String.eqb_spec h1 h2) as [Heq|Hne].
  { subst h2. split; [|split]; intros; exfalso; auto. }
  destruct (option_eqb String.eqb (node_edge_anchor G4 h1)
              (node_edge_anchor G4 h2)) eqn:Ea.
  { apply (option_eqb_spec String.eqb String.eqb_eq) in Ea.
    split; [|split]; intros; try reflexivity; exfalso; auto. }
  assert (Hna : node_edge_anchor G4 h1 <> node_edge_anchor G4 h2).
  { intros E. apply (option_eqb_spec String.eqb String.eqb_eq) in E.
    rewrite E in Ea. discriminate. }
  destruct (option_eqb Z.eqb (node_pod G4 h1) (node_pod G4 h2)) eqn:Ep.
  - apply (option_eqb_spec Z.eqb Z.eqb_eq) in Ep.
    split; [|split]; intros; try reflexivity; exfalso; auto.
  - assert (Hnp : node_pod G4 h1 <> node_pod G4 h2).
    { intros E. apply (option_eqb_spec Z.eqb Z.eqb_eq) in E.
      rewrite E in Ep. discriminate. }
    split; [|split]; intros; try reflexivity; exfalso; auto.
Qed.

(** In the fat tree for [k = 4] the hosts [H_0] (pod 0) and [H_15] (pod 3)
    are 6 links apart, not 4: a path between pods climbs to a core switch
    and comes down again. *)
Lemma build_fat_tree_4_inter_pod_hops :
  build_fat_tree 4 = Ok G4
  /\ has_type G4 host "H_0" = true /\ has_type G4 host "H_15" = true
  /\ node_pod G4 "H_0" = Some 0 /\ node_pod G4 "H_15" = Some 3
  /\ shortest_path_length G4 "H_0" "H_15" = Ok 6.
Proof. repeat split; vm_compute; reflexivity. Qed.

(** ** [calculate_avg_path_length] *)

(** The lengths [nx.shortest_path_length] returns for the pairs of a list
    that are connected, in the order of the list. *)
Definition reachable_lengths (G : Graph) (pairs : list (string * string))
  : list Z :=
  flat_map
    (fun p => match shortest_path_length G (fst p) (snd p) with
              | Ok d => [d]
              | Raise _ => []
              end)
    pairs.

Definition sum_Z (l : list Z) : Z := fold_right Z.add 0 l.

Definition ends_are_nodes (G : Graph) (pairs : list (string * string)) : Prop :=
  forall p, In p pairs ->
    has_node G (fst p) = true /\ has_node G (snd p) = true.

Lemma shortest_path_length_outcome (G : Graph) (s t : string) :
  has_node G s = true -> has_node G t = true ->
  (exists d, shortest_path_length G s t = Ok d)
  \/ shortest_path_length G s t = Raise NetworkXNoPath.
Proof.
  intros Hs Ht. unfold shortest_path_length. rewrite Hs, Ht. cbn [negb orb].
  destruct (bfs _ G t [s] [s] 0) as [d|]; [left; now exists d|now right].
Qed.

Section Analysis.
Context {RS : RandomSource}.

(** The loop over the pairs leaves the graph and the generator as they
    are, whatever comes out of it. *)
Lemma pair_body_world acc p (w : world) : snd (pair_body acc p w) = w.
Proof.
  unfold pair_body, except_NoPath, bindM, G_shortest_path_length, ret.
  destruct (shortest_path_length (w_G w) (fst p) (snd p)) as [d|e];
    [reflexivity|]. now destruct e.
Qed.

Lemma pairs_loop_world pairs acc (w : world) :
  snd (for_eachM pairs pair_body acc w) = w.
Proof.
  revert acc. induction pairs as [|p pairs IH]; intros acc;
    cbn [for_eachM]; [reflexivity|].
  unfold bindM. pose proof (pair_body_world acc p w) as Hw.
  destruct (pair_body acc p w) as [[acc'|e] w']; cbn [snd] in Hw; subst w'.
  - apply IH.
  - reflexivity.
Qed.

(** The loop adds up the lengths of the connected pairs and counts them. *)
Lemma pairs_loop_sums pairs acc (w : world) :
  ends_are_nodes (w_G w) pairs ->
  for_eachM pairs pair_body acc w =
    (Ok (fst acc + sum_Z (reachable_lengths (w_G w) pairs),
         snd acc + len (reachable_lengths (w_G w) pairs)), w).
Proof.
  revert acc. induction pairs as [|p pairs IH]; intros acc Hends.
  - cbn. unfold ret. rewrite !Z.add_0_r. now destruct acc.
  - assert (Hp : has_node (w_G w) (fst p) = true
                 /\ has_node (w_G w) (snd p) = true)
      by (apply Hends; now left).
    assert (Hrest : ends_are_nodes (w_G w) pairs)
      by (intros q Hq; apply Hends; now right).
    cbn [for_eachM reachable_lengths flat_map]. unfold bindM at 1.
    unfold pair_body, except_NoPath, bindM, G_shortest_path_length, ret.
    destruct (shortest_path_length_outcome (w_G w) (fst p) (snd p)
                (proj1 Hp) (proj2 Hp)) as [[d E]|E]; rewrite E.
    + rewrite (IH _ Hrest). cbn [fst snd app].
      fold (reachable_lengths (w_G w) pairs).
      change (sum_Z (d :: reachable_lengths (w_G w) pairs))
        with (d + sum_Z (reachable_lengths (w_G w) pairs)).
      replace (len (d :: reachable_lengths (w_G w) pairs))
        with (1 + len (reachable_lengths (w_G w) pairs))
        by (unfold len; cbn [List.length]; lia).
      now rewrite !Z.add_assoc.
    + rewrite (IH _ Hrest). cbn [app]. reflexivity.
Qed.

End Analysis.

Section AnalysisTheorems.
Context {RS : RandomSource}.

(** X5: [calculate_avg_path_length] only reads the graph: whatever the
    pair list is and however the call ends, the graph afterwards (node
    table with its attributes, adjacency table with the link attributes,
    graph attributes) is the graph before, and so is the generator. *)
Theorem calculate_avg_path_length_observes
    (host_pairs : list (string * string)) (w : world) :
  snd (calculate_avg_path_length host_pairs w) = w
  /\ g_node (w_G (snd (calculate_avg_path_length host_pairs w))) = g_node (w_G w)
  /\ g_adj (w_G (snd (calculate_avg_path_length host_pairs w))) = g_adj (w_G w)
  /\ nodes (w_G (snd (calculate_avg_path_length host_pairs w))) = nodes (w_G w)
  /\ edges (w_G (snd (calculate_avg_path_length host_pairs w))) = edges (w_G w).
Proof.
  assert (H : snd (calculate_avg_path_length host_pairs w) = w).
  { unfold calculate_avg_path_length.
    destruct (len host_pairs =? 0); [reflexivity|].
    unfold bindM at 1.
    pose proof (pairs_loop_world host_pairs (0, 0) w) as Hw.
    destruct (for_eachM host_pairs pair_body (0, 0) w) as [[acc|e] w'];
      cbn [snd] in Hw; subst w'; [|reflexivity].
    destruct (snd acc =? 0); [reflexivity|].
    unfold bindM, lift, ret.
    destruct (int_truediv (fst acc) (snd acc)); [|reflexivity].
    now destruct (int_truediv (snd acc) (len host_pairs)). }
  rewrite H. repeat split; reflexivity.
Qed.

End AnalysisTheorems.

(* ================================================================== *)
(** * Part III: further properties of the program *)
(* ================================================================== *)

(** ** Rounding to binary64 *)

(** The facts about [binary_round_aux] the divisions and the product of
    [calculate_avg_path_length] need: a non-negative quantity that lies
    below a representable number is rounded to zero or to a positive number
    not above it. Exponents are those of binary64: [fexp e] is
    [max (e - 53) (-1074)]. *)

Lemma fexp_eq (e : Z) : fexp prec emax e = Z.max (e - 53) (-1074).
Proof. reflexivity. Qed.

Lemma digits2_pos_size (p : positive) : digits2_pos p = Pos.size p.
Proof. induction p; cbn; congruence. Qed.

Lemma Zdigits2_log2 (m : Z) : 0 < m -> Zdigits2 m = Z.log2 m + 1.
Proof.
  destruct m as [|p|p]; try lia. intros _. cbn [Zdigits2].
  rewrite digits2_pos_size. destruct p; cbn; lia.
Qed.

Lemma Zdigits2_bounds (m : Z) :
  0 < m -> 2 ^ (Zdigits2 m - 1) <= m < 2 ^ Zdigits2 m.
Proof.
  intros Hm. rewrite (Zdigits2_log2 m Hm).
  replace (Z.log2 m + 1 - 1) with (Z.log2 m) by lia.
  apply (Z.log2_spec m Hm).
Qed.

Lemma Zdigits2_pos (m : Z) : 0 < m -> 0 < Zdigits2 m.
Proof.
  intros Hm. rewrite (Zdigits2_log2 m Hm). pose proof (Z.log2_nonneg m). lia.
Qed.

Lemma Zdigits2_unique (m d : Z) :
  0 < m -> 2 ^ (d - 1) <= m < 2 ^ d -> Zdigits2 m = d.
Proof.
  intros Hm Hd. rewrite (Zdigits2_log2 m Hm).
  assert (0 < d).
  { destruct (Z.le_gt_cases d 0) as [Hle|]; [|assumption].
    assert (2 ^ d <= 2 ^ 0) by (apply Z.pow_le_mono_r; lia). cbn in *. lia. }
  rewrite (Z.log2_unique m (d - 1)); [lia|lia|].
  replace (Z.succ (d - 1)) with d by lia. exact Hd.
Qed.

Lemma Zdigits2_lt_pow (m d : Z) : 0 < m -> m < 2 ^ d -> Zdigits2 m <= d.
Proof.
  intros Hm Hd. destruct (Z.le_gt_cases (Zdigits2 m) d) as [|Hgt]; [assumption|].
  pose proof (Zdigits2_bounds m Hm) as [Hlo _].
  assert (2 ^ d <= 2 ^ (Zdigits2 m - 1)).
  { apply Z.pow_le_mono_r; [lia|]. lia. }
  lia.
Qed.

Lemma Zdigits2_ge_pow (m d : Z) : 0 <= d -> 2 ^ d <= m -> d + 1 <= Zdigits2 m.
Proof.
  intros Hd Hm. assert (0 < m) by (pose proof (Z.pow_pos_nonneg 2 d); lia).
  destruct (Z.le_gt_cases (d + 1) (Zdigits2 m)) as [|Hlt]; [assumption|].
  pose proof (Zdigits2_bounds m H) as [_ Hhi].
  assert (2 ^ Zdigits2 m <= 2 ^ d).
  { apply Z.pow_le_mono_r; lia. }
  lia.
Qed.

(** Shifting right. *)
Lemma shr_1_m (mrs : shr_record) :
  0 <= shr_m mrs -> shr_m (shr_1 mrs) = shr_m mrs / 2.
Proof.
  destruct mrs as [m r s]. cbn [shr_m]. intros Hm.
  destruct m as [|[p|p|]|p]; cbn [shr_1 shr_m]; try lia; try reflexivity.
  - rewrite Pos2Z.inj_xI. apply (Z.div_unique _ 2 _ 1); lia.
  - rewrite Pos2Z.inj_xO. apply (Z.div_unique _ 2 _ 0); lia.
Qed.

Lemma iter_shr_1_m (p : positive) :
  forall mrs, 0 <= shr_m mrs ->
    shr_m (iter_pos shr_1 p mrs) = shr_m mrs / 2 ^ Zpos p.
Proof.
  induction p as [p IH|p IH|]; intros mrs Hm; cbn [iter_pos].
  - assert (H1 : 0 <= shr_m (shr_1 mrs))
      by (rewrite shr_1_m by assumption; apply Z.div_pos; lia).
    assert (H2 : 0 <= shr_m (iter_pos shr_1 p (shr_1 mrs)))
      by (rewrite IH by assumption; apply Z.div_pos;
          [assumption|apply Z.pow_pos_nonneg; lia]).
    rewrite IH by assumption. rewrite IH by assumption.
    rewrite shr_1_m by assumption.
    rewrite (Pos2Z.inj_xI p).
    replace (2 * Z.pos p + 1) with (1 + Z.pos p + Z.pos p) by lia.
    rewrite !Z.pow_add_r by lia. change (2 ^ 1) with 2.
    rewrite !Z.div_div; try lia; try (apply Z.pow_pos_nonneg; lia).
    f_equal. ring.
  - assert (H2 : 0 <= shr_m (iter_pos shr_1 p mrs))
      by (rewrite IH by assumption; apply Z.div_pos;
          [assumption|apply Z.pow_pos_nonneg; lia]).
    rewrite IH by assumption. rewrite IH by assumption.
    rewrite (Pos2Z.inj_xO p).
    replace (2 * Z.pos p) with (Z.pos p + Z.pos p) by lia.
    rewrite Z.pow_add_r by lia.
    rewrite Z.div_div; try lia; apply Z.pow_pos_nonneg; lia.
  - now apply shr_1_m.
Qed.

Lemma shr_record_of_loc_m (m : Z) (l : location) :
  shr_m (shr_record_of_loc m l) = m.
Proof. destruct l as [|[| |]]; reflexivity. Qed.

Lemma shr_fexp_spec (m e : Z) (l : location) :
  0 <= m -> e <= fexp prec emax (Zdigits2 m + e) ->
  shr_m (fst (shr_fexp prec emax m e l))
    = m / 2 ^ (fexp prec emax (Zdigits2 m + e) - e)
  /\ snd (shr_fexp prec emax m e l) = fexp prec emax (Zdigits2 m + e).
Proof.
  intros Hm He. unfold shr_fexp, shr.
  destruct (fexp prec emax (Zdigits2 m + e) - e) as [|p|p] eqn:Ek;
    cbn [fst snd]; try lia.
  - rewrite shr_record_of_loc_m. cbn. rewrite Z.div_1_r. split; lia.
  - rewrite iter_shr_1_m by (now rewrite shr_record_of_loc_m).
    rewrite shr_record_of_loc_m. split; [reflexivity|lia].
Qed.

Lemma round_nearest_even_bounds (m : Z) (l : location) :
  m <= round_nearest_even m l <= m + 1.
Proof.
  destruct l as [|[| |]]; cbn [round_nearest_even]; try lia.
  destruct (Z.even m); lia.
Qed.

Lemma bounded_spec (m : positive) (e : Z) :
  bounded prec emax m e = true <->
  fexp prec emax (Zdigits2 (Zpos m) + e) = e /\ e <= 971.
Proof.
  unfold bounded, canonical_mantissa.
  rewrite andb_true_iff, Z.eqb_eq, Z.leb_le. reflexivity.
Qed.

Lemma pow2_pos (k : Z) : 0 <= k -> 0 < 2 ^ k.
Proof. intros. apply Z.pow_pos_nonneg; lia. Qed.

Lemma pow2_split (a b : Z) : 0 <= a -> 0 <= b -> 2 ^ (a + b) = 2 ^ a * 2 ^ b.
Proof. intros. apply Z.pow_add_r; assumption. Qed.

Lemma pow2_lt_inv (a b : Z) : 0 <= b -> 2 ^ a < 2 ^ b -> a < b.
Proof.
  intros Hb H. destruct (Z.le_gt_cases b a) as [Hle|]; [|assumption].
  assert (2 ^ b <= 2 ^ a) by (apply Z.pow_le_mono_r; lia). lia.
Qed.

Section RoundBelow.
Variables (mx ex : Z) (lx : location) (T : positive) (eT : Z).
Hypothesis Hmx : 0 <= mx.
Hypothesis Hex : ex <= fexp prec emax (Zdigits2 mx + ex).
Hypothesis HT : bounded prec emax T eT = true.
Hypothesis HeT : ex <= eT.
Hypothesis Hbelow : mx + 1 <= Zpos T * 2 ^ (eT - ex).

Let e1 := fexp prec emax (Zdigits2 mx + ex).
Let m1 := mx / 2 ^ (e1 - ex).

Lemma T_facts :
  Zdigits2 (Zpos T) <= 53 /\ -1074 <= eT /\ eT <= 971 /\ Zpos T < 2 ^ 53
  /\ eT = Z.max (Zdigits2 (Zpos T) + eT - 53) (-1074).
Proof.
  apply bounded_spec in HT. destruct HT as [Hc Hle]. rewrite fexp_eq in Hc.
  assert (Hd : Zdigits2 (Zpos T) <= 53) by lia.
  repeat split; try lia.
  pose proof (Zdigits2_bounds (Zpos T) eq_refl) as [_ Hhi].
  assert (2 ^ Zdigits2 (Z.pos T) <= 2 ^ 53) by (apply Z.pow_le_mono_r; lia).
  lia.
Qed.

Lemma e1_le_eT : e1 <= eT.
Proof.
  destruct T_facts as (HdT & HeT1 & _ & _ & HeTeq).
  unfold e1. rewrite fexp_eq.
  destruct (Z.eq_dec mx 0) as [->|Hne].
  - cbn [Zdigits2]. lia.
  - assert (Hpos : 0 < mx) by lia.
    pose proof (Zdigits2_bounds (Zpos T) eq_refl) as [_ Hhi].
    assert (H2 : 0 < 2 ^ (eT - ex)) by (apply pow2_pos; lia).
    assert (Hlt : mx < 2 ^ (Zdigits2 (Zpos T) + (eT - ex))).
    { rewrite pow2_split; [|pose proof (Zdigits2_pos (Zpos T) eq_refl); lia|lia].
      nia. }
    pose proof (Zdigits2_lt_pow mx _ Hpos Hlt). lia.
Qed.

Lemma e1_ge_ex : ex <= e1.
Proof. exact Hex. Qed.

Lemma m1_nonneg : 0 <= m1.
Proof.
  unfold m1. apply Z.div_pos; [assumption|].
  apply pow2_pos. pose proof e1_ge_ex. lia.
Qed.

Lemma m1_below : m1 + 1 <= Zpos T * 2 ^ (eT - e1).
Proof.
  pose proof e1_le_eT as H1. pose proof e1_ge_ex as H2.
  assert (Hq : m1 < Zpos T * 2 ^ (eT - e1)).
  { unfold m1. apply Z.div_lt_upper_bound; [apply pow2_pos; lia|].
    replace (eT - ex) with ((e1 - ex) + (eT - e1)) in Hbelow by lia.
    rewrite pow2_split in Hbelow by lia. nia. }
  lia.
Qed.

(** The shifted mantissa has at most 53 digits; it has exactly 53 unless
    the exponent is the least one. *)
Lemma m1_digits :
  m1 < 2 ^ 53 /\ (e1 = -1074 \/ 2 ^ 52 <= m1).
Proof.
  pose proof e1_ge_ex as H2.
  assert (He1 : e1 = Z.max (Zdigits2 mx + ex - 53) (-1074))
    by (unfold e1; now rewrite fexp_eq).
  destruct (Z.eq_dec mx 0) as [E|Hne].
  - unfold m1. rewrite E in *. cbn [Zdigits2] in He1.
    rewrite Z.div_0_l by (pose proof (pow2_pos (e1 - ex)); lia).
    split; [reflexivity|]. left. lia.
  - assert (Hpos : 0 < mx) by lia.
    pose proof (Zdigits2_bounds mx Hpos) as [Hlo Hhi].
    pose proof (Zdigits2_pos mx Hpos) as Hd.
    assert (Hk : 0 < 2 ^ (e1 - ex)) by (apply pow2_pos; lia).
    split.
    + unfold m1. apply Z.div_lt_upper_bound; [assumption|].
      rewrite <- pow2_split by lia.
      apply Z.lt_le_trans with (1 := Hhi).
      apply Z.pow_le_mono_r; lia.
    + destruct (Z.eq_dec e1 (-1074)) as [|Hn]; [now left|right].
      assert (E : e1 - ex = Zdigits2 mx - 53) by lia.
      unfold m1. apply Z.div_le_lower_bound; [assumption|].
      rewrite <- pow2_split by lia.
      replace (e1 - ex + 52) with (Zdigits2 mx - 1) by lia. exact Hlo.
Qed.

Lemma finite_leb (m : positive) (e : Z) :
  e <= eT -> (e = eT -> Zpos m <= Zpos T) ->
  SFleb (S754_finite false m e) (S754_finite false T eT) = true.
Proof.
  intros Hle Hm. unfold SFleb, SFcompare.
  destruct (Z.compare_spec e eT) as [E|E|E]; try reflexivity; [|lia].
  specialize (Hm E). change (Pos.compare_cont Eq m T) with (Pos.compare m T).
  destruct (Pos.compare_spec m T); try reflexivity. lia.
Qed.

(** Rounding a non-negative quantity that lies below a representable
    number gives zero or a positive number that is representable and not
    above that number. *)
Lemma binary_round_aux_below :
  valid_binary (binary_round_aux prec emax false mx ex lx) = true
  /\ SFleb (binary_round_aux prec emax false mx ex lx)
       (S754_finite false T eT) = true
  /\ SFleb (S754_zero false) (binary_round_aux prec emax false mx ex lx)
     = true.
Proof.
  unfold binary_round_aux.
  destruct (shr_fexp_spec mx ex lx Hmx Hex) as [Hs1 Hs2].
  destruct (shr_fexp prec emax mx ex lx) as [mrs1 e1'].
  cbn [fst snd] in Hs1, Hs2.
  change (shr_m mrs1 = m1) in Hs1. change (e1' = e1) in Hs2. subst e1'.
  pose proof (round_nearest_even_bounds (shr_m mrs1) (loc_of_shr_record mrs1))
    as Hr.
  remember (round_nearest_even (shr_m mrs1) (loc_of_shr_record mrs1))
    as m2 eqn:Em2. clear Em2. rewrite Hs1 in Hr. clear Hs1.
  pose proof m1_nonneg as H0. pose proof m1_below as Hb.
  destruct m1_digits as [Hlt Hnorm]. pose proof e1_le_eT as Hle.
  destruct T_facts as (HdT & HeTlo & HeThi & HTlt & _).
  assert (He1lo : -1074 <= e1) by (unfold e1; rewrite fexp_eq; lia).
  assert (Hm2 : 0 <= m2) by lia.
  assert (Hpow : 0 < 2 ^ (eT - e1)) by (apply pow2_pos; lia).
  destruct (Z.eq_dec m2 0) as [Z2|N2].
  - (* the result is zero *)
    assert (He1 : e1 = -1074) by (destruct Hnorm; lia).
    assert (Hex2 : e1 <= fexp prec emax (Zdigits2 m2 + e1))
      by (rewrite fexp_eq; lia).
    destruct (shr_fexp_spec m2 e1 loc_Exact Hm2 Hex2) as [Hs3 _].
    destruct (shr_fexp prec emax m2 e1 loc_Exact) as [mrs3 e3].
    cbn [fst] in Hs3. rewrite Hs3, Z2.
    rewrite Z.div_0_l; [repeat split|].
    apply Z.pow_nonzero; [lia|]. cbn [Zdigits2]. rewrite fexp_eq. lia.
  - destruct (Z.eq_dec m2 (2 ^ 53)) as [Z2|N3].
    + (* the mantissa overflowed to [2^53]: one more shift *)
      assert (Hd2 : Zdigits2 m2 = 54)
        by (apply Zdigits2_unique; rewrite Z2; cbn; lia).
      assert (Hex2 : e1 <= fexp prec emax (Zdigits2 m2 + e1))
        by (rewrite fexp_eq; lia).
      destruct (shr_fexp_spec m2 e1 loc_Exact Hm2 Hex2) as [Hs3 Hs4].
      destruct (shr_fexp prec emax m2 e1 loc_Exact) as [mrs3 e3].
      cbn [fst snd] in Hs3, Hs4. rewrite Hs3, Hs4, Hd2, fexp_eq.
      replace (Z.max (54 + e1 - 53) (-1074)) with (e1 + 1) by lia.
      replace (e1 + 1 - e1) with 1 by lia. rewrite Z2.
      change (2 ^ 53 / 2 ^ 1) with (Zpos (2 ^ 52)).
      assert (Hgap : e1 + 1 <= eT).
      { destruct (Z.eq_dec e1 eT) as [E|]; [|lia].
        rewrite E, Z.sub_diag in Hb. cbn in Hb. lia. }
      assert (Hfit : (e1 + 1 <=? emax - prec) = true)
        by (apply Z.leb_le; change (emax - prec) with 971; lia).
      rewrite Hfit. split; [|split].
      * apply bounded_spec. split; [|lia]. rewrite fexp_eq. cbn [Zdigits2].
        change (Z.pos (digits2_pos (2 ^ 52))) with 53. lia.
      * apply finite_leb; [assumption|]. intros E.
        replace (eT - e1) with 1 in Hb by lia. cbn in Hb |- *. lia.
      * reflexivity.
    + (* no further shift *)
      assert (Hd2 : Zdigits2 m2 <= 53) by (apply Zdigits2_lt_pow; lia).
      assert (Hc2 : fexp prec emax (Zdigits2 m2 + e1) = e1).
      { rewrite fexp_eq. destruct Hnorm as [E|H52]; [lia|].
        assert (53 <= Zdigits2 m2) by (apply (Zdigits2_ge_pow m2 52); lia).
        lia. }
      assert (Hex2 : e1 <= fexp prec emax (Zdigits2 m2 + e1)) by lia.
      destruct (shr_fexp_spec m2 e1 loc_Exact Hm2 Hex2) as [Hs3 Hs4].
      destruct (shr_fexp prec emax m2 e1 loc_Exact) as [mrs3 e3].
      cbn [fst snd] in Hs3, Hs4. rewrite Hs3, Hs4, Hc2.
      rewrite Z.sub_diag. change (2 ^ 0) with 1. rewrite Z.div_1_r.
      destruct m2 as [|p|p]; try lia.
      assert (Hfit : (e1 <=? emax - prec) = true)
        by (apply Z.leb_le; change (emax - prec) with 971; lia).
      rewrite Hfit. split; [|split].
      * apply bounded_spec. split; [exact Hc2|lia].
      * apply finite_leb; [assumption|]. intros E.
        rewrite E, Z.sub_diag in Hb. change (2 ^ 0) with 1 in Hb. lia.
      * reflexivity.
Qed.

End RoundBelow.

Lemma div_eucl_div_mod (a b : Z) : Z.div_eucl a b = (a / b, a mod b).
Proof. unfold Z.div, Z.modulo. now destruct (Z.div_eucl a b). Qed.

(** The quotient, exponent and location the division hands to the rounding. *)
Lemma SFdiv_core_binary_spec (a b : Z) :
  0 < a -> 0 < b ->
  let e := Z.min (fexp prec emax (Zdigits2 a - Zdigits2 b)) 0 in
  SFdiv_core_binary prec emax a 0 b 0
  = (a * 2 ^ (- e) / b, e, new_location b (a * 2 ^ (- e) mod b)).
Proof.
  intros Ha Hb e. unfold SFdiv_core_binary.
  replace (Zdigits2 a + 0 - (Zdigits2 b + 0)) with (Zdigits2 a - Zdigits2 b)
    by lia.
  change (0 - 0) with 0. fold e.
  assert (He : e <= 0) by (unfold e; lia).
  replace (0 - e) with (- e) by lia.
  assert (Hm : match - e with
               | 0 => a
               | Z.pos _ => Z.shiftl a (- e)
               | Z.neg _ => 0
               end = a * 2 ^ (- e)).
  { destruct (- e) as [|p|p] eqn:E; try lia.
    rewrite Z.shiftl_mul_pow2 by lia. reflexivity. }
  rewrite Hm, div_eucl_div_mod. reflexivity.
Qed.

Lemma int_truediv_below (a b K : Z) :
  0 < a -> 0 < b -> 0 <= K <= 1023 -> a < b * 2 ^ K ->
  exists r, int_truediv a b = Ok r
    /\ SFleb (S754_zero false) (Prim2SF r) = true
    /\ SFleb (Prim2SF r) (S754_finite false 4503599627370496 (K - 52)) = true.
Proof.
  intros Ha Hb HK Hlt. unfold int_truediv.
  rewrite (proj2 (Z.eqb_neq b 0)) by lia.
  rewrite (proj2 (Z.eqb_neq a 0)) by lia.
  rewrite (proj2 (Z.ltb_ge a 0)) by lia.
  rewrite (proj2 (Z.ltb_ge b 0)) by lia.
  rewrite (Z.abs_eq a), (Z.abs_eq b) by lia. cbn [xorb].
  pose proof (SFdiv_core_binary_spec a b Ha Hb) as El. cbv zeta in El.
  rewrite El. clear El.
  generalize (new_location b
                (a * 2 ^ (- Z.min (fexp prec emax (Zdigits2 a - Zdigits2 b)) 0)
                 mod b)).
  intros l.
  set (d1 := Zdigits2 a) in *. set (d2 := Zdigits2 b) in *.
  remember (Z.min (fexp prec emax (d1 - d2)) 0) as e eqn:Ee.
  rewrite fexp_eq in Ee.
  remember (a * 2 ^ (- e) / b) as q eqn:Eq.
  pose proof (Zdigits2_bounds a Ha) as [Ha1 Ha2]. fold d1 in Ha1, Ha2.
  pose proof (Zdigits2_bounds b Hb) as [Hb1 Hb2]. fold d2 in Hb1, Hb2.
  pose proof (Zdigits2_pos a Ha) as Hd1. fold d1 in Hd1.
  pose proof (Zdigits2_pos b Hb) as Hd2. fold d2 in Hd2.
  assert (He0 : e <= 0) by lia.
  assert (Hs : 0 < 2 ^ (- e)) by (apply pow2_pos; lia).
  assert (Hq0 : 0 <= q).
  { subst q. apply Z.div_pos; [|assumption]. nia. }
  assert (Hd12 : d1 <= d2 + K).
  { apply Zdigits2_lt_pow; [assumption|].
    rewrite pow2_split by lia.
    assert (0 < 2 ^ K) by (apply pow2_pos; lia). nia. }
  assert (HeK : e <= K - 52) by lia.
  assert (Hcanon : e <= fexp prec emax (Zdigits2 q + e)).
  { rewrite fexp_eq.
    destruct (Z.le_gt_cases 0 (d1 - 1 - e - d2)) as [Hge|Hneg]; [|lia].
    assert (Hqlo : 2 ^ (d1 - 1 - e - d2) <= q).
    { subst q. apply Z.div_le_lower_bound; [assumption|].
      apply Z.le_trans with (2 ^ d2 * 2 ^ (d1 - 1 - e - d2)); [nia|].
      rewrite <- pow2_split by lia.
      replace (d2 + (d1 - 1 - e - d2)) with ((d1 - 1) + (- e)) by lia.
      rewrite pow2_split by lia. nia. }
    pose proof (Zdigits2_ge_pow q _ Hge Hqlo). lia. }
  assert (Hbelow : q + 1 <= Zpos 4503599627370496 * 2 ^ (K - 52 - e)).
  { change (Zpos 4503599627370496) with (2 ^ 52). rewrite <- pow2_split by lia.
    replace (52 + (K - 52 - e)) with (K + (- e)) by lia.
    rewrite pow2_split by lia.
    assert (q < 2 ^ K * 2 ^ (- e)); [|lia].
    subst q. apply Z.div_lt_upper_bound; [assumption|].
    assert (0 < 2 ^ K) by (apply pow2_pos; lia). nia. }
  assert (HT : bounded prec emax 4503599627370496 (K - 52) = true).
  { apply bounded_spec. rewrite fexp_eq. cbn [Zdigits2].
    change (Z.pos (digits2_pos 4503599627370496)) with 53. lia. }
  destruct (binary_round_aux_below q e l 4503599627370496 (K - 52)
              Hq0 Hcanon HT HeK Hbelow) as (Hv & Hle & Hge).
  destruct (binary_round_aux prec emax false q e l) as [s|s| |s m e'] eqn:Er.
  - eexists. split; [reflexivity|]. now rewrite Prim2SF_SF2Prim.
  - destruct s; discriminate.
  - discriminate.
  - eexists. split; [reflexivity|]. now rewrite Prim2SF_SF2Prim.
Qed.

Lemma int_truediv_same (a : Z) : 0 < a -> int_truediv a a = Ok 1%float.
Proof.
  intros Ha. unfold int_truediv.
  rewrite (proj2 (Z.eqb_neq a 0)) by lia.
  rewrite (proj2 (Z.ltb_ge a 0)) by lia.
  rewrite (Z.abs_eq a) by lia. cbn [xorb].
  pose proof (SFdiv_core_binary_spec a a Ha Ha) as El. cbv zeta in El.
  rewrite Z.sub_diag in El.
  change (Z.min (fexp prec emax 0) 0) with (-53) in El.
  rewrite (Z.mul_comm a), Z.div_mul, Z.mod_mul in El by lia.
  assert (Hl : new_location a 0 = loc_Exact).
  { unfold new_location. now destruct (Z.even a). }
  rewrite Hl in El. rewrite El. vm_compute. reflexivity.
Qed.

Lemma Prim2SF_0 : Prim2SF 0 = S754_zero false.
Proof. reflexivity. Qed.

Lemma Prim2SF_1 : Prim2SF 1 = S754_finite false 4503599627370496 (-52).
Proof. reflexivity. Qed.

Lemma Prim2SF_100 : Prim2SF 100 = S754_finite false 7036874417766400 (-46).
Proof. reflexivity. Qed.

Lemma percent_of_one :
  SFleb (S754_zero false)
    (SF64mul (S754_finite false 4503599627370496 (-52))
       (S754_finite false 7036874417766400 (-46))) = true
  /\ SFleb
       (SF64mul (S754_finite false 4503599627370496 (-52))
          (S754_finite false 7036874417766400 (-46)))
       (S754_finite false 7036874417766400 (-46)) = true.
Proof. split; vm_compute; reflexivity. Qed.

Lemma percent_of_less (m : positive) (e : Z) :
  bounded prec emax m e = true -> e < -52 ->
  SFleb (S754_zero false)
    (SF64mul (S754_finite false m e)
       (S754_finite false 7036874417766400 (-46))) = true
  /\ SFleb
       (SF64mul (S754_finite false m e)
          (S754_finite false 7036874417766400 (-46)))
       (S754_finite false 7036874417766400 (-46)) = true.
Proof.
  intros Hv E. apply bounded_spec in Hv.
  destruct Hv as [Hc _]. rewrite fexp_eq in Hc.
  pose proof (Zdigits2_bounds (Zpos m) eq_refl) as [Hlo Hhi].
  unfold SF64mul, SFmul. cbn [xorb].
  assert (Hd : Zdigits2 (Zpos m) <= 53) by lia.
  assert (Hm : Zpos m < 2 ^ 53).
  { apply Z.lt_le_trans with (1 := Hhi). apply Z.pow_le_mono_r; lia. }
  assert (Hme : Zpos m + 1 <= 2 ^ (- e)).
  { assert (2 ^ 53 <= 2 ^ (- e)) by (apply Z.pow_le_mono_r; lia). lia. }
  assert (Hq0 : 0 <= Zpos (m * 7036874417766400)) by lia.
  assert (Hcanon : e + -46 <=
            fexp prec emax (Zdigits2 (Zpos (m * 7036874417766400))
                            + (e + -46))).
  { rewrite fexp_eq.
    assert (Hdm : 0 < Zdigits2 (Zpos m)) by (now apply Zdigits2_pos).
    assert (Hp : 2 ^ (Zdigits2 (Zpos m) - 1 + 52)
                 <= Zpos (m * 7036874417766400)).
    { rewrite pow2_split by lia. rewrite Pos2Z.inj_mul.
      change (2 ^ 52) with 4503599627370496. nia. }
    assert (Hge : 0 <= Zdigits2 (Zpos m) - 1 + 52) by lia.
    pose proof (Zdigits2_ge_pow _ _ Hge Hp). lia. }
  assert (HT : bounded prec emax 7036874417766400 (-46) = true)
    by reflexivity.
  assert (HeT : e + -46 <= -46) by lia.
  assert (Hbelow : Zpos (m * 7036874417766400) + 1
                   <= Zpos 7036874417766400 * 2 ^ (-46 - (e + -46))).
  { replace (-46 - (e + -46)) with (- e) by lia.
    rewrite Pos2Z.inj_mul. nia. }
  destruct (binary_round_aux_below _ _ loc_Exact _ _
              Hq0 Hcanon HT HeT Hbelow) as (_ & Hle & Hge).
  split; assumption.
Qed.

(** A float not above 1.0 is 1.0 itself or has a smaller exponent. *)
Lemma leb_one_cases (m : positive) (e : Z) :
  bounded prec emax m e = true ->
  SFleb (S754_finite false m e) (S754_finite false 4503599627370496 (-52))
  = true ->
  (e = -52 /\ m = 4503599627370496%positive) \/ e < -52.
Proof.
  intros Hv. unfold SFleb, SFcompare.
  destruct (Z.compare_spec e (-52)) as [E|E|E].
  - apply bounded_spec in Hv. destruct Hv as [Hc _].
    rewrite fexp_eq in Hc.
    pose proof (Zdigits2_bounds (Zpos m) eq_refl) as [Hlo _].
    assert (Hd : Zdigits2 (Zpos m) = 53) by lia.
    rewrite Hd in Hlo. change (2 ^ (53 - 1)) with 4503599627370496 in Hlo.
    destruct (Pos.compare_cont Eq m 4503599627370496) eqn:Ec.
    + intros _. left. split; [assumption|]. now apply Pos.compare_eq.
    + intros _. exfalso.
      pose proof (proj1 (Pos.compare_lt_iff m 4503599627370496) Ec) as Hm.
      apply Pos2Z.pos_lt_pos in Hm. clear - Hm Hlo. lia.
    + intros H1. discriminate H1.
  - intros _. now right.
  - intros H1. discriminate H1.
Qed.

(** A ratio between 0 and 1, taken to percent, lies between 0 and 100. *)
Lemma percent_range (r : float) :
  SFleb (S754_zero false) (Prim2SF r) = true ->
  SFleb (Prim2SF r) (S754_finite false 4503599627370496 (-52)) = true ->
  (0 <=? r * 100)%float = true /\ (r * 100 <=? 100)%float = true.
Proof.
  intros H0 H1. rewrite !leb_spec, mul_spec, Prim2SF_0, Prim2SF_100.
  pose proof (Prim2SF_valid r) as Hv.
  destruct (Prim2SF r) as [s|s| |s m e].
  - destruct s; split; reflexivity.
  - destruct s; discriminate.
  - discriminate.
  - destruct s; [discriminate H0|].
    destruct (leb_one_cases m e Hv H1) as [[-> ->]|E].
    + exact percent_of_one.
    + now apply percent_of_less.
Qed.

(** ** What [calculate_avg_path_length] returns *)

Lemma bfs_range (fuel : nat) (G : Graph) (t : string) :
  forall F V d r,
    bfs fuel G t F V d = Some r -> d <= r < d + Z.of_nat fuel.
Proof.
  induction fuel as [|fuel IH]; intros F V d r; cbn [bfs]; [discriminate|].
  destruct (mem t F).
  - intros [= <-]. lia.
  - destruct (next_level G F V) as [|x next]; [discriminate|].
    intros H. apply IH in H. lia.
Qed.

(** A path never has more links than the graph has nodes. *)
Lemma shortest_path_length_range (G : Graph) (s t : string) (d : Z) :
  shortest_path_length G s t = Ok d -> 0 <= d <= len (nodes G).
Proof.
  unfold shortest_path_length.
  destruct (negb (has_node G s) || negb (has_node G t)); [discriminate|].
  destruct (bfs _ G t [s] [s] 0) as [r|] eqn:E; [|discriminate].
  intros [= <-]. apply bfs_range in E.
  unfold len, nodes, dict_keys. rewrite length_map. lia.
Qed.

Lemma reachable_lengths_range (G : Graph) (pairs : list (string * string)) :
  0 <= sum_Z (reachable_lengths G pairs)
       <= len (reachable_lengths G pairs) * len (nodes G)
  /\ len (reachable_lengths G pairs) <= len pairs.
Proof.
  assert (HN : 0 <= len (nodes G)) by (unfold len; lia).
  induction pairs as [|p pairs IH]; cbn [reachable_lengths flat_map].
  - cbn. lia.
  - fold (reachable_lengths G pairs).
    destruct (shortest_path_length G (fst p) (snd p)) as [d|e] eqn:E.
    + apply shortest_path_length_range in E. cbn [app].
      change (sum_Z (d :: reachable_lengths G pairs))
        with (d + sum_Z (reachable_lengths G pairs)).
      unfold len in *. cbn [List.length]. nia.
    + cbn [app]. unfold len in *. cbn [List.length]. lia.
Qed.

Lemma int_truediv_zero (b : Z) : 0 < b -> int_truediv 0 b = Ok 0%float.
Proof.
  intros Hb. unfold int_truediv.
  rewrite (proj2 (Z.eqb_neq b 0)) by lia. cbn [Z.eqb].
  now rewrite (proj2 (Z.ltb_ge b 0)) by lia.
Qed.

(** The quotient of a count by a larger count, taken to percent. *)
Lemma percent_of_counts (c n : Z) :
  0 < c <= n ->
  exists ratio, int_truediv c n = Ok ratio
    /\ (0 <=? ratio * 100)%float = true
    /\ (ratio * 100 <=? 100)%float = true
    /\ (c = n -> (ratio * 100)%float = 100%float).
Proof.
  intros Hc. destruct (Z.eq_dec c n) as [->|Hne].
  - exists 1%float. rewrite int_truediv_same by lia.
    repeat split; reflexivity.
  - destruct (int_truediv_below c n 0) as (r & Er & H0 & H1); try lia.
    exists r. split; [exact Er|].
    destruct (percent_range r H0 H1) as [Hlo Hhi].
    repeat split; try assumption. intros E. contradiction.
Qed.

(** The mean of lengths that are bounded by [2^1000] is a float. *)
Lemma mean_is_float (total count : Z) :
  0 < count -> 0 <= total < count * 2 ^ 1000 ->
  exists avg, int_truediv total count = Ok avg.
Proof.
  intros Hc Ht. destruct (Z.eq_dec total 0) as [->|Hne].
  - exists 0%float. now apply int_truediv_zero.
  - destruct (int_truediv_below total count 1000) as (r & Er & _); try lia.
    now exists r.
Qed.

Section AnalysisResult.
Context {RS : RandomSource}.

Lemma calculate_avg_path_length_unfold (G : Graph) (s : rng)
    (pairs : list (string * string)) :
  ends_are_nodes G pairs ->
  calculate_avg_path_length pairs (at_world G s) =
    (let lens := reachable_lengths G pairs in
     if (len pairs =? 0) || (len lens =? 0) then Ok (0%float, 0%float)
     else bind (int_truediv (sum_Z lens) (len lens)) (fun avg =>
          bind (int_truediv (len lens) (len pairs)) (fun ratio =>
          Ok (avg, (ratio * 100)%float))),
     at_world G s).
Proof.
  intros Hends. unfold calculate_avg_path_length. cbv zeta.
  destruct (len pairs =? 0); [reflexivity|]. cbn [orb].
  unfold bindM at 1.
  rewrite (pairs_loop_sums pairs (0, 0) (at_world G s) Hends).
  cbn [fst snd w_G at_world]. rewrite !Z.add_0_l.
  destruct (len (reachable_lengths G pairs) =? 0); [reflexivity|].
  unfold bindM, lift, ret, bind.
  destruct (int_truediv (sum_Z (reachable_lengths G pairs))
              (len (reachable_lengths G pairs))); [|reflexivity].
  now destruct (int_truediv (len (reachable_lengths G pairs)) (len pairs)).
Qed.

End AnalysisResult.

Section AnalysisExtras.
Context {RS : RandomSource}.

(** X1: on a graph with fewer than [2^1000] nodes and a list of pairs of
    its nodes, [calculate_avg_path_length] returns, and leaves the graph as
    it is. With [lens] the lengths [nx.shortest_path_length] gives for the
    connected pairs: both results are [0.0] when no pair is connected (or
    the list is empty); otherwise the first is the float quotient
    [sum(lens) / len(lens)] and the second the float quotient
    [len(lens) / len(pairs)] times [100.0]. The second result always lies
    between [0.0] and [100.0], and it is [100.0] when every pair is
    connected. *)
Theorem calculate_avg_path_length_result (G : Graph) (s : rng)
    (pairs : list (string * string)) :
  ends_are_nodes G pairs -> len (nodes G) < 2 ^ 1000 ->
  exists avg reach,
    calculate_avg_path_length pairs (at_world G s)
      = (Ok (avg, reach), at_world G s)
    /\ (reachable_lengths G pairs = [] -> avg = 0%float /\ reach = 0%float)
    /\ (reachable_lengths G pairs <> [] ->
        int_truediv (sum_Z (reachable_lengths G pairs))
          (len (reachable_lengths G pairs)) = Ok avg
        /\ exists ratio,
             int_truediv (len (reachable_lengths G pairs)) (len pairs)
               = Ok ratio
             /\ reach = (ratio * 100)%float)
    /\ (0 <=? reach)%float = true
    /\ (reach <=? 100)%float = true
    /\ (len (reachable_lengths G pairs) = len pairs -> pairs <> [] ->
        reach = 100%float).
Proof.
  intros Hends HN. rewrite (calculate_avg_path_length_unfold G s pairs Hends).
  cbv zeta. destruct (reachable_lengths_range G pairs) as [Hsum Hlen].
  remember (reachable_lengths G pairs) as lens eqn:El.
  destruct lens as [|d lens'].
  - exists 0%float, 0%float. change (len (@nil Z) =? 0) with true.
    rewrite orb_true_r.
    split; [reflexivity|]. split; [now split|].
    split; [intros Hx; now contradiction Hx|].
    split; [reflexivity|]. split; [reflexivity|].
    intros Hx Hne. destruct pairs; [now contradiction Hne|].
    unfold len in Hx. cbn [List.length] in Hx. lia.
  - assert (Hc : 0 < len (d :: lens'))
      by (unfold len; cbn [List.length]; lia).
    rewrite (proj2 (Z.eqb_neq (len pairs) 0)) by lia.
    rewrite (proj2 (Z.eqb_neq (len (d :: lens')) 0)) by lia. cbn [orb].
    assert (HN0 : 0 <= len (nodes G)) by (unfold len; lia).
    destruct (mean_is_float (sum_Z (d :: lens')) (len (d :: lens')) Hc)
      as [avg Eavg]; [nia|].
    destruct (percent_of_counts (len (d :: lens')) (len pairs))
      as (ratio & Er & Hlo & Hhi & Hfull); [lia|].
    exists avg, (ratio * 100)%float. rewrite Eavg, Er. cbn [bind].
    split; [reflexivity|]. split; [intros Hx; discriminate Hx|].
    split; [intros _; split; [reflexivity|now exists ratio]|].
    split; [assumption|]. split; [assumption|].
    intros Hx _. now apply Hfull.
Qed.

(** X2: an end that is no node of the graph is fatal. When some pair of the
    list names a node the graph does not have, [calculate_avg_path_length]
    ends with [NodeNotFound], the exception [nx.shortest_path_length]
    raises and the [except nx.NetworkXNoPath] clause does not catch; the
    graph is left as it is. *)
Theorem calculate_avg_path_length_unknown_node (G : Graph) (s : rng)
    (pairs : list (string * string)) :
  (exists p, In p pairs
             /\ (has_node G (fst p) = false \/ has_node G (snd p) = false)) ->
  calculate_avg_path_length pairs (at_world G s)
    = (Raise NodeNotFound, at_world G s).
Proof.
  intros Hbad.
  assert (Hloop : forall acc,
            for_eachM pairs pair_body acc (at_world G s)
            = (Raise NodeNotFound, at_world G s)).
  { induction pairs as [|q pairs IH]; intros acc.
    - destruct Hbad as (p & [] & _).
    - cbn [for_eachM]. unfold bindM at 1.
      unfold pair_body, except_NoPath, bindM, G_shortest_path_length, ret.
      cbn [w_G at_world].
      destruct (has_node G (fst q) && has_node G (snd q)) eqn:Eq.
      + apply andb_true_iff in Eq. destruct Eq as [H1 H2].
        assert (Hrest : exists p, In p pairs
                  /\ (has_node G (fst p) = false
                      \/ has_node G (snd p) = false)).
        { destruct Hbad as (p & [<-|Hin] & Hp).
          - destruct Hp; congruence.
          - now exists p. }
        destruct (shortest_path_length_outcome G (fst q) (snd q) H1 H2)
          as [[d E]|E]; rewrite E; apply (IH Hrest).
      + unfold shortest_path_length.
        assert (E : negb (has_node G (fst q)) || negb (has_node G (snd q))
                    = true).
        { apply andb_false_iff in Eq. destruct Eq as [->| ->];
            [reflexivity|apply orb_true_r]. }
        rewrite E. reflexivity. }
  unfold calculate_avg_path_length.
  assert (Hne : (len pairs =? 0) = false).
  { apply Z.eqb_neq. destruct Hbad as (p & Hin & _).
    destruct pairs; [contradiction|]. unfold len. cbn [List.length]. lia. }
  rewrite Hne. unfold bindM at 1. now rewrite Hloop.
Qed.

End AnalysisExtras.

Lemma calculate_avg_path_length_result_witness :
  exists avg reach,
    @calculate_avg_path_length lcg_source [("H_0", "H_15"); ("H_0", "H_1")]
      (at_world G4 0)
      = (Ok (avg, reach), at_world G4 0)
    /\ (reachable_lengths G4 [("H_0", "H_15"); ("H_0", "H_1")] = [] ->
        avg = 0%float /\ reach = 0%float)
    /\ (reachable_lengths G4 [("H_0", "H_15"); ("H_0", "H_1")] <> [] ->
        int_truediv
          (sum_Z (reachable_lengths G4 [("H_0", "H_15"); ("H_0", "H_1")]))
          (len (reachable_lengths G4 [("H_0", "H_15"); ("H_0", "H_1")]))
          = Ok avg
        /\ exists ratio,
             int_truediv
               (len (reachable_lengths G4 [("H_0", "H_15"); ("H_0", "H_1")]))
               (len [("H_0", "H_15"); ("H_0", "H_1")])
               = Ok ratio
             /\ reach = (ratio * 100)%float)
    /\ (0 <=? reach)%float = true
    /\ (reach <=? 100)%float = true
    /\ (len (reachable_lengths G4 [("H_0", "H_15"); ("H_0", "H_1")])
          = len [("H_0", "H_15"); ("H_0", "H_1")] ->
        [("H_0", "H_15"); ("H_0", "H_1")] <> [] ->
        reach = 100%float).
Proof.
  apply (@calculate_avg_path_length_result lcg_source G4 0
           [("H_0", "H_15"); ("H_0", "H_1")]).
  - intros p [<-|[<-|[]]]; split; vm_compute; reflexivity.
  - vm_compute. reflexivity.
Defined.

Lemma calculate_avg_path_length_unknown_node_witness :
  @calculate_avg_path_length lcg_source [("H_0", "H_1"); ("H_0", "H_16")]
    (at_world G4 0)
  = (Raise NodeNotFound, at_world G4 0).
Proof.
  apply (@calculate_avg_path_length_unknown_node lcg_source G4 0
           [("H_0", "H_1"); ("H_0", "H_16")]).
  exists ("H_0", "H_16"). split; [right; now left|].
  right. vm_compute. reflexivity.
Defined.

(** ** The tables of a graph made by adding nodes and links *)

Lemma dict_keys_set {V} (d : dict string V) (k : string) (v : V) :
  dict_keys (dict_set d k v)
  = if dict_mem d k then dict_keys d else dict_keys d ++ [k].
Proof.
  destruct (dict_mem d k) eqn:E.
  - apply dict_keys_set_old. now apply dict_mem_true.
  - unfold dict_mem in E. destruct (dict_get d k) eqn:Eg; [discriminate|].
    rewrite (dict_set_new d k v Eg). unfold dict_keys. now rewrite map_app.
Qed.

Lemma tables_agree_mem (G : Graph) (n : string) :
  tables_agree G -> dict_mem (g_adj G) n = has_node G n.
Proof.
  intros H. unfold has_node. rewrite !dict_mem_keys. now rewrite H.
Qed.

Lemma tables_agree_add_node (G : Graph) (n : string) (a : node_attrs) :
  tables_agree G -> tables_agree (add_node G n a).
Proof.
  intros H. pose proof (tables_agree_mem G n H) as Hm.
  unfold tables_agree, add_node, has_node, dict_mem in *.
  destruct (dict_get (g_node G) n) eqn:E; cbn [with_tables g_node g_adj].
  - rewrite dict_keys_set. unfold dict_mem. now rewrite E.
  - rewrite !dict_keys_set. unfold dict_mem. rewrite E.
    destruct (dict_get (g_adj G) n); [discriminate|]. now rewrite H.
Qed.

Lemma tables_agree_ensure_node (G : Graph) (u : string) :
  tables_agree G ->
  tables_agree (ensure_node G u) /\ has_node (ensure_node G u) u = true
  /\ forall w, has_node G w = true -> has_node (ensure_node G u) w = true.
Proof.
  intros H. pose proof (tables_agree_mem G u H) as Hm.
  unfold ensure_node. fold (has_node G u).
  destruct (has_node G u) eqn:E; [now repeat split|].
  unfold tables_agree, has_node. cbn [with_tables g_node g_adj]. split.
  - rewrite !dict_keys_set. fold (has_node G u). rewrite Hm, E. now rewrite H.
  - split.
    + unfold dict_mem. now rewrite dict_get_set_eq.
    + intros w Hw. unfold dict_mem.
      destruct (String.eqb_spec u w) as [->|Hne].
      * now rewrite dict_get_set_eq.
      * rewrite dict_get_set_neq by assumption. exact Hw.
Qed.

Lemma tables_agree_add_edge (G : Graph) (u v : string) (a : edge_attrs) :
  tables_agree G -> tables_agree (add_edge G u v a).
Proof.
  intros H. unfold add_edge.
  destruct (tables_agree_ensure_node G u H) as (H1 & Hu & _).
  destruct (tables_agree_ensure_node (ensure_node G u) v H1) as (H2 & Hv & Hk).
  specialize (Hk u Hu).
  set (G1 := ensure_node (ensure_node G u) v) in *.
  cbv zeta. unfold tables_agree. cbn [with_tables g_node g_adj].
  rewrite dict_keys_set.
  assert (Hmu : dict_mem (g_adj G1) u = true)
    by (now rewrite (tables_agree_mem G1 u H2)).
  assert (Hmv : dict_mem (g_adj G1) v = true)
    by (now rewrite (tables_agree_mem G1 v H2)).
  match goal with
  | |- (if dict_mem ?d v then _ else _) = _ =>
      assert (Hm : dict_mem d v = true)
  end.
  { rewrite dict_mem_keys, dict_keys_set, Hmu, <- dict_mem_keys. exact Hmv. }
  rewrite Hm, dict_keys_set, Hmu. exact H2.
Qed.

Lemma tables_agree_run (ops : list op) (G : Graph) :
  tables_agree G -> tables_agree (run ops G).
Proof.
  revert G. induction ops as [|o ops IH]; intros G H; [exact H|].
  rewrite run_cons. apply IH. destruct o as [n a|u v l]; cbn [apply_op].
  - now apply tables_agree_add_node.
  - now apply tables_agree_add_edge.
Qed.

(** The neighbours a list of operations gives a node are the other ends of
    the pairs it links the node in. *)
Lemma in_incident (ops : list op) (u v : string) :
  In v (dict_keys (incident u ops))
  <-> In (u, v) (pairs ops) \/ In (v, u) (pairs ops).
Proof.
  unfold incident, pairs, dict_keys.
  induction ops as [|o ops IH]; cbn [flat_map map].
  - tauto.
  - rewrite map_app, !in_app_iff, IH.
    destruct o as [n a|a b l]; cbn [op_incident op_pairs map In].
    + tauto.
    + destruct (String.eqb_spec u a) as [->|Hua];
        [|destruct (String.eqb_spec u b) as [->|Hub]];
        cbn [map fst In]; intuition congruence.
Qed.

Lemma NoDup_incident (ops : list op) (u : string) :
  NoDup (pairs ops) ->
  (forall a b, In (a, b) (pairs ops) -> ~ In (b, a) (pairs ops)) ->
  NoDup (dict_keys (incident u ops)).
Proof.
  induction ops as [|o ops IH]; intros Hnd Hrev; [constructor|].
  unfold incident, pairs, dict_keys in *. cbn [flat_map] in *.
  rewrite map_app.
  destruct o as [n a|a b l]; cbn [op_incident op_pairs app map] in *.
  - now apply IH.
  - inversion Hnd as [|? ? Hni Hnd']; subst.
    assert (Hrev' : forall x y,
              In (x, y) (flat_map op_pairs ops) ->
              ~ In (y, x) (flat_map op_pairs ops)).
    { intros x y Hxy Hyx. apply (Hrev x y); now right. }
    specialize (IH Hnd' Hrev').
    assert (Hab : ~ In (b, a) (flat_map op_pairs ops)).
    { intros H. apply (Hrev a b); [now left|now right]. }
    destruct (String.eqb_spec u a) as [->|Hua]; cbn [map fst app].
    + constructor; [|exact IH]. intros Hin.
      apply (in_incident ops a b) in Hin. destruct Hin; contradiction.
    + destruct (String.eqb_spec u b) as [->|Hub]; cbn [map fst app].
      * constructor; [|exact IH]. intros Hin.
        apply (in_incident ops b a) in Hin. destruct Hin; contradiction.
      * exact IH.
Qed.

(** A graph made by well-formed operations is a well-formed graph. *)
Lemma run_wf_graph (ops : list op) :
  ops_wf ops ->
  wf_graph (run ops empty_graph) = true /\ tables_agree (run ops empty_graph).
Proof.
  intros Hwf. destruct (run_wf ops Hwf) as [Hn Hr].
  assert (Ht : tables_agree (run ops empty_graph))
    by (apply tables_agree_run; reflexivity).
  split; [|exact Ht]. apply wf_graph_iff.
  assert (Hk : NoDup (dict_keys (g_adj (run ops empty_graph)))).
  { rewrite Ht, Hn. exact (wf_names ops Hwf). }
  split; [exact Hk|]. intros u r Hin.
  assert (Er : r = incident u ops).
  { rewrite <- Hr. unfold row, adj_row.
    now rewrite (dict_get_NoDup_In _ u r Hk Hin). }
  subst r. split.
  - apply NoDup_incident; [exact (wf_pairs ops Hwf)|].
    exact (wf_no_reverse ops Hwf).
  - intros v Hv. rewrite has_edge_row. fold (row (run ops empty_graph) v).
    rewrite Hr. apply dict_mem_true. apply in_incident.
    apply in_incident in Hv. tauto.
Qed.

(** ** Links and walks of the fat tree *)

Lemma fat_tree_wf (k : Z) :
  0 <= k -> wf_graph (fat_tree k) = true /\ tables_agree (fat_tree k).
Proof.
  intros Hk. unfold fat_tree. rewrite fat_tree_ops_eq.
  apply run_wf_graph, tree_ops_wf. apply Z.div_pos; lia.
Qed.

Lemma fat_tree_has_edge (k : Z) (u v : string) :
  0 <= k ->
  has_edge (fat_tree k) u v = true
  <-> In v (dict_keys (incident u (tree_ops (k / 2) k))).
Proof.
  intros Hk. rewrite <- in_neighbors. now rewrite fat_tree_neighbors.
Qed.

Section FatTreeLinks.
Variable k : Z.
Hypothesis Hk2 : 2 <= k.

Lemma half_pos : 1 <= k / 2.
Proof. apply Z.div_le_lower_bound; lia. Qed.

Lemma host_place (h : Z) :
  0 <= h < k * (k / 2) * (k / 2) ->
  0 <= h / (k / 2) / (k / 2) < k
  /\ 0 <= h / (k / 2) mod (k / 2) < k / 2
  /\ 0 <= h mod (k / 2) < k / 2.
Proof.
  intros Hh. pose proof half_pos as Hkh.
  split; [|split]; try (apply Z.mod_pos_bound; lia).
  split; [apply Z.div_pos; [apply Z.div_pos|]; lia|].
  apply Z.div_lt_upper_bound; [lia|].
  apply Z.div_lt_upper_bound; [lia|]. nia.
Qed.

Lemma link_host_edge (h : Z) :
  0 <= h < k * (k / 2) * (k / 2) ->
  has_edge (fat_tree k) (host_id h)
    (edge_id (h / (k / 2) / (k / 2)) (h / (k / 2) mod (k / 2))) = true.
Proof.
  intros Hh. pose proof half_pos. apply fat_tree_has_edge; [lia|].
  rewrite incident_host by lia. now left.
Qed.

Lemma link_edge_agg (p e a : Z) :
  0 <= p < k -> 0 <= e < k / 2 -> 0 <= a < k / 2 ->
  has_edge (fat_tree k) (edge_id p e) (agg_id p a) = true.
Proof.
  intros Hp He Ha. apply fat_tree_has_edge; [lia|].
  rewrite incident_edge by assumption.
  unfold dict_keys. rewrite map_app, in_app_iff. right.
  rewrite map_map. cbn [fst]. apply in_map. now apply in_range.
Qed.

Lemma link_agg_core (p a off : Z) :
  0 <= p < k -> 0 <= a < k / 2 -> 0 <= off < k / 2 ->
  has_edge (fat_tree k) (agg_id p a) (core_id (a * (k / 2) + off)) = true.
Proof.
  intros Hp Ha Hoff. apply fat_tree_has_edge; [lia|].
  rewrite incident_agg by assumption.
  unfold dict_keys. rewrite map_app, in_app_iff. right.
  rewrite map_map. cbn [fst].
  apply (in_map (fun off => core_id (a * (k / 2) + off))).
  now apply in_range.
Qed.

Lemma fat_tree_sym (u v : string) :
  has_edge (fat_tree k) u v = true -> has_edge (fat_tree k) v u = true.
Proof.
  apply wf_sym. apply fat_tree_wf. lia.
Qed.

(** Up from a host to the first core switch, in three links. *)
Lemma climb (h : Z) :
  0 <= h < k * (k / 2) * (k / 2) ->
  walk (fat_tree k) (host_id h) (core_id 0) 3.
Proof.
  intros Hh. destruct (host_place h Hh) as (Hp & He & _).
  pose proof half_pos as Hkh.
  apply (walk_link _ _ _ _ _ (link_host_edge h Hh)).
  apply (walk_link _ _ (agg_id (h / (k / 2) / (k / 2)) 0) _ _).
  { apply link_edge_agg; [assumption|assumption|lia]. }
  apply (walk_link _ _ (core_id 0) _ _); [|constructor].
  change 0 with (0 * (k / 2) + 0) at 2.
  apply link_agg_core; [assumption|lia|lia].
Qed.

Lemma walk_app (G : Graph) (a b c : string) (n m : nat) :
  walk G a b n -> walk G b c m -> walk G a c (n + m).
Proof.
  induction 1 as [u|u v w n Huv Hvw IH]; intros Hc; [exact Hc|].
  cbn [Nat.add]. apply (walk_link G u v c _ Huv). now apply IH.
Qed.

Lemma walk_rev (G : Graph) (a b : string) (n : nat) :
  (forall u v, has_edge G u v = true -> has_edge G v u = true) ->
  walk G a b n -> walk G b a n.
Proof.
  intros Hsym. induction 1 as [u|u v w n Huv Hvw IH]; [constructor|].
  apply (walk_snoc G w v u n IH). now apply Hsym.
Qed.

Lemma hosts_walk (a b : Z) :
  0 <= a < k * (k / 2) * (k / 2) -> 0 <= b < k * (k / 2) * (k / 2) ->
  walk (fat_tree k) (host_id a) (host_id b) 6.
Proof.
  intros Ha Hb. change 6%nat with (3 + 3)%nat.
  apply (walk_app _ _ (core_id 0)); [now apply climb|].
  apply walk_rev; [exact fat_tree_sym|now apply climb].
Qed.

Lemma host_is_node (h : Z) :
  0 <= h < k * (k / 2) * (k / 2) -> has_node (fat_tree k) (host_id h) = true.
Proof.
  intros Hh. apply (nodes_of_type_has_node _ host).
  rewrite fat_tree_nodes_of_type by lia. cbn [names_of_kind].
  apply in_map. now apply in_range.
Qed.

(** Two hosts are at most six links apart, and two different hosts at
    least two. *)
Lemma hosts_distance (a b : Z) :
  0 <= a < k * (k / 2) * (k / 2) -> 0 <= b < k * (k / 2) * (k / 2) ->
  exists n,
    shortest_path_length (fat_tree k) (host_id a) (host_id b) = Ok (Z.of_nat n)
    /\ distance (fat_tree k) (host_id a) (host_id b) n
    /\ (n <= 6)%nat
    /\ (a <> b -> (2 <= n)%nat).
Proof.
  intros Ha Hb. destruct (fat_tree_wf k) as [Hwf Ht]; [lia|].
  destruct (shortest_path_length_distance (fat_tree k) (host_id a) (host_id b)
              Hwf Ht (host_is_node a Ha) (host_is_node b Hb))
    as [(n & E & Hd)|[_ Hno]].
  - exists n. split; [exact E|]. split; [exact Hd|]. split.
    + apply (proj2 Hd). now apply hosts_walk.
    + intros Hab. destruct Hd as [Hw _].
      destruct n as [|[|n]]; [| |lia]; exfalso.
      * apply walk_zero in Hw. apply host_id_inj in Hw. congruence.
      * inversion Hw as [|u v w m Huv Hv0]; subst.
        apply walk_zero in Hv0. subst v.
        apply fat_tree_has_edge in Huv; [|lia].
        pose proof half_pos.
        rewrite incident_host in Huv by lia. cbn in Huv.
        destruct Huv as [E'|[]].
        apply (f_equal (fun x => String.eqb x (host_id b))) in E'.
        rewrite edge_host_eqb, String.eqb_refl in E'. discriminate.
  - exfalso. apply (Hno 6%nat). now apply hosts_walk.
Qed.

End FatTreeLinks.

Lemma all_reachable (G : Graph) (B : Z) (pairs : list (string * string)) :
  (forall p, In p pairs ->
     exists d, shortest_path_length G (fst p) (snd p) = Ok d /\ 0 <= d <= B) ->
  len (reachable_lengths G pairs) = len pairs
  /\ Forall (fun d => 0 <= d <= B) (reachable_lengths G pairs)
  /\ 0 <= sum_Z (reachable_lengths G pairs) <= B * len pairs.
Proof.
  induction pairs as [|p pairs IH]; intros H.
  - cbn. repeat split; try constructor; lia.
  - destruct (H p (or_introl eq_refl)) as (d & E & Hd).
    destruct IH as (Hl & Hf & Hs); [intros q Hq; apply H; now right|].
    cbn [reachable_lengths flat_map]. rewrite E. cbn [app].
    fold (reachable_lengths G pairs).
    change (sum_Z (d :: reachable_lengths G pairs))
      with (d + sum_Z (reachable_lengths G pairs)).
    unfold len in *. cbn [List.length]. split; [lia|].
    split; [now constructor|lia].
Qed.

Lemma built_has_edge k d u v :
  has_edge (built k d) u v = has_edge (fat_tree k) u v.
Proof. reflexivity. Qed.

(** The search reads the node table and the adjacency table only. *)
Lemma bfs_same_adj (G G' : Graph) (t : string) (fuel : nat) :
  g_adj G = g_adj G' ->
  forall F V d, bfs fuel G t F V d = bfs fuel G' t F V d.
Proof.
  intros Hadj. induction fuel as [|fuel IH]; intros F V d; [reflexivity|].
  cbn [bfs]. unfold next_level, neighbors. rewrite Hadj.
  destruct (mem t F); [reflexivity|].
  match goal with |- match ?x with _ => _ end = _ => destruct x end;
    [reflexivity|apply IH].
Qed.

Lemma shortest_path_length_same_tables (G G' : Graph) (s t : string) :
  g_node G = g_node G' -> g_adj G = g_adj G' ->
  shortest_path_length G s t = shortest_path_length G' s t.
Proof.
  intros Hn Ha. unfold shortest_path_length, has_node. rewrite Hn.
  now rewrite (bfs_same_adj G G' t _ Ha).
Qed.

Lemma built_shortest_path_length k d s t :
  shortest_path_length (built k d) s t = shortest_path_length (fat_tree k) s t.
Proof. now apply shortest_path_length_same_tables. Qed.

Lemma walk_same_links (G G' : Graph) (a b : string) (n : nat) :
  (forall u v, has_edge G u v = has_edge G' u v) ->
  walk G a b n -> walk G' a b n.
Proof.
  intros Hsame. induction 1 as [u|u v w n Huv Hvw IH]; [constructor|].
  apply (walk_link G' u v w n); [now rewrite <- Hsame|exact IH].
Qed.

Lemma built_distance k d a b n :
  distance (fat_tree k) a b n -> distance (built k d) a b n.
Proof.
  intros [Hw Hmin]. split.
  - apply (walk_same_links (fat_tree k)); [reflexivity|exact Hw].
  - intros m Hm. apply Hmin.
    apply (walk_same_links (built k d)); [reflexivity|exact Hm].
Qed.

(** X3: in the graph [build_fat_tree k] returns, for every even [k >= 2],
    any two hosts are connected: [nx.shortest_path_length] returns the
    length of a shortest walk between them, which is at most 6 links, and at
    least 2 links when the hosts differ. *)
Theorem build_fat_tree_hosts_connected (k : Z) :
  Z.even k = true -> 2 <= k ->
  exists G,
    build_fat_tree k = Ok G
    /\ forall a b, 0 <= a < k ^ 3 / 4 -> 0 <= b < k ^ 3 / 4 ->
         exists n,
           shortest_path_length G (host_id a) (host_id b) = Ok (Z.of_nat n)
           /\ distance G (host_id a) (host_id b) n
           /\ (n <= 6)%nat
           /\ (a <> b -> (2 <= n)%nat).
Proof.
  intros Hev Hk2. destruct (build_fat_tree_run k Hev Hk2) as (d & Hb & _).
  exists (built k d). split; [exact Hb|]. intros a b Ha Hb'.
  rewrite (total_hosts_eq k Hev) in Ha, Hb'.
  destruct (hosts_distance k Hk2 a b Ha Hb') as (n & E & Hd & Hn).
  exists n. rewrite built_shortest_path_length.
  split; [exact E|]. split; [now apply built_distance|exact Hn].
Qed.

Lemma build_fat_tree_hosts_connected_witness :
  exists G,
    build_fat_tree 2 = Ok G
    /\ forall a b, 0 <= a < 2 ^ 3 / 4 -> 0 <= b < 2 ^ 3 / 4 ->
         exists n,
           shortest_path_length G (host_id a) (host_id b) = Ok (Z.of_nat n)
           /\ distance G (host_id a) (host_id b) n
           /\ (n <= 6)%nat
           /\ (a <> b -> (2 <= n)%nat).
Proof.
  apply (build_fat_tree_hosts_connected 2); [reflexivity|lia].
Defined.

Section IntactTree.
Context {RS : RandomSource}.

(** X4: without failures every pair counts. On the graph
    [build_fat_tree k] returns (even [k >= 2]) and a non-empty list of
    pairs of its hosts, [calculate_avg_path_length] returns a
    reachability of exactly [100.0]; every pair is connected, by at most 6
    links, and the average is the float quotient of the sum of the lengths
    by the number of pairs. *)
Theorem intact_fat_tree_reachability (k : Z) (s : rng)
    (pairs : list (string * string)) :
  Z.even k = true -> 2 <= k -> pairs <> [] ->
  (forall p, In p pairs ->
     exists a b, p = (host_id a, host_id b)
                 /\ 0 <= a < k ^ 3 / 4 /\ 0 <= b < k ^ 3 / 4) ->
  exists G avg,
    build_fat_tree k = Ok G
    /\ calculate_avg_path_length pairs (at_world G s)
       = (Ok (avg, 100%float), at_world G s)
    /\ int_truediv (sum_Z (reachable_lengths G pairs)) (len pairs) = Ok avg
    /\ len (reachable_lengths G pairs) = len pairs
    /\ Forall (fun d => 0 <= d <= 6) (reachable_lengths G pairs).
Proof.
  intros Hev Hk2 Hne Hhosts.
  destruct (build_fat_tree_run k Hev Hk2) as (d & Hb & _).
  set (G := built k d).
  assert (Hends : ends_are_nodes G pairs).
  { intros p Hp. destruct (Hhosts p Hp) as (a & b & -> & Ha & Hb').
    rewrite (total_hosts_eq k Hev) in Ha, Hb'. cbn [fst snd].
    split; [exact (host_is_node k Hk2 a Ha)
           |exact (host_is_node k Hk2 b Hb')]. }
  assert (Hreach : forall p, In p pairs ->
            exists l, shortest_path_length G (fst p) (snd p) = Ok l
                      /\ 0 <= l <= 6).
  { intros p Hp. destruct (Hhosts p Hp) as (a & b & -> & Ha & Hb').
    rewrite (total_hosts_eq k Hev) in Ha, Hb'. cbn [fst snd].
    destruct (hosts_distance k Hk2 a b Ha Hb') as (n & E & _ & Hn & _).
    exists (Z.of_nat n). unfold G. rewrite built_shortest_path_length.
    split; [exact E|lia]. }
  destruct (all_reachable G 6 pairs Hreach) as (Hl & Hf & Hs).
  assert (Hc : 0 < len pairs).
  { destruct pairs; [now contradiction Hne|].
    unfold len. cbn [List.length]. lia. }
  destruct (mean_is_float (sum_Z (reachable_lengths G pairs)) (len pairs) Hc)
    as [avg Eavg]; [lia|].
  exists G, avg. split; [exact Hb|].
  rewrite (calculate_avg_path_length_unfold G s pairs Hends). cbv zeta.
  rewrite Hl, (proj2 (Z.eqb_neq (len pairs) 0)) by lia. cbn [orb].
  rewrite Eavg, (int_truediv_same (len pairs) Hc). cbn [bind].
  repeat split; try assumption.
Qed.

End IntactTree.

Lemma intact_fat_tree_reachability_witness :
  exists G avg,
    build_fat_tree 4 = Ok G
    /\ @calculate_avg_path_length lcg_source
         [(host_id 0, host_id 15); (host_id 3, host_id 2)] (at_world G 0)
       = (Ok (avg, 100%float), at_world G 0)
    /\ int_truediv
         (sum_Z (reachable_lengths G
                   [(host_id 0, host_id 15); (host_id 3, host_id 2)]))
         (len [(host_id 0, host_id 15); (host_id 3, host_id 2)]) = Ok avg
    /\ len (reachable_lengths G
              [(host_id 0, host_id 15); (host_id 3, host_id 2)])
       = len [(host_id 0, host_id 15); (host_id 3, host_id 2)]
    /\ Forall (fun d => 0 <= d <= 6)
         (reachable_lengths G
            [(host_id 0, host_id 15); (host_id 3, host_id 2)]).
Proof.
  apply (@intact_fat_tree_reachability lcg_source 4 0
           [(host_id 0, host_id 15); (host_id 3, host_id 2)]).
  - reflexivity.
  - lia.
  - discriminate.
  - intros p [<-|[<-|[]]].
    + exists 0, 15. repeat split; try reflexivity; lia.
    + exists 3, 2. repeat split; try reflexivity; lia.
Defined.

(** ** Counting links *)

(** Every stored link is reported by [G.edges()], from one of its ends. *)
Lemma has_edge_edges (G : Graph) (u v : string) :
  wf_graph G = true -> has_edge G u v = true ->
  In (u, v) (edges G) \/ In (v, u) (edges G).
Proof.
  intros Hwf Huv. pose proof (wf_keys G Hwf) as Hnd.
  pose proof (wf_sym G Hwf u v Huv) as Hvu.
  unfold has_edge in Huv.
  destruct (dict_get (g_adj G) u) as [row|] eqn:Eu; [|discriminate].
  apply dict_mem_true in Huv. apply dict_get_In in Eu.
  destruct (in_split _ _ Eu) as (pre & post & E).
  unfold edges. rewrite !in_edges_from.
  destruct (in_dec string_dec v (dict_keys pre)) as [Hin|Hout].
  - right. unfold dict_keys in Hin. apply in_map_iff in Hin.
    destruct Hin as ([v' row'] & Ev & Hin). cbn [fst] in Ev. subst v'.
    destruct (in_split _ _ Hin) as (pre' & post' & E').
    exists pre', row', (post' ++ (u, row) :: post).
    assert (Eadj : g_adj G = pre' ++ (v, row') :: post' ++ (u, row) :: post).
    { rewrite E, E'. now rewrite <- app_assoc. }
    split; [exact Eadj|].
    assert (Hrow' : dict_get (g_adj G) v = Some row').
    { rewrite Eadj. apply dict_get_split. now rewrite <- Eadj. }
    split; [|split; [tauto|]].
    + unfold has_edge in Hvu. rewrite Hrow' in Hvu. now apply dict_mem_true.
    + intros Hu. rewrite Eadj in Hnd. unfold dict_keys in Hnd, Hu.
      rewrite map_app in Hnd. cbn [map fst] in Hnd. rewrite map_app in Hnd.
      cbn [map fst] in Hnd.
      apply (NoDup_app_disjoint _ _ u Hnd Hu).
      right. apply in_or_app. right. now left.
  - left. exists pre, row, post. repeat split; auto.
Qed.

Definition flip (e : string * string) : string * string := (snd e, fst e).

Lemma pair_eq_dec (x y : string * string) : {x = y} + {x <> y}.
Proof. decide equality; apply string_dec. Qed.

(** A list of links, each named once and from one end, is not longer than
    a list that names all of them. *)
Lemma links_le (L1 L2 : list (string * string)) :
  NoDup L2 ->
  (forall u v, In (u, v) L2 -> ~ In (v, u) L2) ->
  (forall u v, In (u, v) L2 -> In (u, v) L1 \/ In (v, u) L1) ->
  (List.length L2 <= List.length L1)%nat.
Proof.
  intros Hnd Hrev Hcov.
  set (f := fun e => if in_dec pair_eq_dec e L1 then e else flip e).
  rewrite <- (length_map f L2). apply NoDup_incl_length.
  - apply NoDup_map_inj; [|exact Hnd].
    intros [a b] [c d] Hx Hy. unfold f.
    destruct (in_dec pair_eq_dec (a, b) L1), (in_dec pair_eq_dec (c, d) L1);
      unfold flip; cbn [fst snd]; intros [= -> ->]; try reflexivity;
      exfalso; exact (Hrev _ _ Hx Hy).
  - intros e He. apply in_map_iff in He. destruct He as ([a b] & <- & Hin).
    unfold f. destruct (in_dec pair_eq_dec (a, b) L1) as [H|H]; [exact H|].
    destruct (Hcov a b Hin) as [H'|H']; [contradiction|exact H'].
Qed.

(** A graph made by well-formed operations has one link per linking
    operation. *)
Lemma len_edges_run (ops : list op) :
  ops_wf ops -> len (edges (run ops empty_graph)) = len (pairs ops).
Proof.
  intros Hops. destruct (run_wf_graph ops Hops) as [Hwf _].
  destruct (run_wf ops Hops) as [_ Hr].
  set (G := run ops empty_graph) in *.
  assert (Hlink : forall u v, has_edge G u v = true
                    <-> In (u, v) (pairs ops) \/ In (v, u) (pairs ops)).
  { intros u v. rewrite has_edge_row. fold (row G u). rewrite Hr.
    rewrite dict_mem_true. apply in_incident. }
  assert (Hrev1 : forall u v, In (u, v) (edges G) -> ~ In (v, u) (edges G)).
  { intros u v Huv Hvu. destruct (String.eqb_spec u v) as [->|Hne].
    - apply (edges_has_edge G Hwf) in Huv. destruct Huv as [Huv _].
      apply Hlink in Huv.
      destruct Huv as [H|H]; exact (wf_no_reverse ops Hops _ _ H H).
    - exact (edges_no_reverse G u v Huv Hne Hvu). }
  unfold len. f_equal. apply Nat.le_antisymm.
  - apply links_le; [apply (NoDup_edges G Hwf)|exact Hrev1|].
    intros u v Huv. apply Hlink. exact (proj1 (edges_has_edge G Hwf u v Huv)).
  - apply links_le; [exact (wf_pairs ops Hops)|exact (wf_no_reverse ops Hops)|].
    intros u v Huv. apply (has_edge_edges G u v Hwf). apply Hlink. now left.
Qed.

Lemma len_pairs_tree_ops (kh k : Z) :
  0 <= kh -> 0 <= k -> len (pairs (tree_ops kh k)) = 3 * (k * kh * kh).
Proof.
  intros Hkh Hk. unfold pairs. rewrite flat_map_tree_ops. cbn [op_pairs app].
  rewrite !len_app.
  rewrite (len_flat_map_const _ (range (kh * kh)) 0) by reflexivity.
  rewrite (len_flat_map_const _ (range k) (kh * kh)).
  - rewrite (len_flat_map_const _ (range k) (kh * kh + kh * kh)).
    + rewrite !len_range by nia. lia.
    + intros p _. rewrite len_app.
      rewrite (len_flat_map_const _ (range kh) kh).
      * rewrite (len_flat_map_const _ (range kh) kh).
        -- now rewrite len_range.
        -- intros a _. rewrite (len_flat_map_const _ (range kh) 1) by reflexivity.
           rewrite len_range by assumption. lia.
      * intros a _. rewrite (len_flat_map_const _ (range kh) 1) by reflexivity.
        rewrite len_range by assumption. lia.
  - intros p _. rewrite len_app.
    rewrite (len_flat_map_const _ (range kh) 0) by reflexivity.
    rewrite (len_flat_map_const _ (range kh) kh).
    + rewrite len_range by assumption. lia.
    + intros e _. rewrite (len_flat_map_const _ (range kh) 1) by reflexivity.
      rewrite len_range by assumption. lia.
Qed.

(** X6: for every even [k >= 2] the graph [build_fat_tree k] returns has
    exactly [3 * k^3 / 4] links, [G.edges()] listing each of them once:
    as many host links as hosts, and as many links between the edge and
    aggregation layers, and between the aggregation and core layers. *)
Theorem build_fat_tree_link_count (k : Z) :
  Z.even k = true -> 2 <= k ->
  exists G,
    build_fat_tree k = Ok G
    /\ len (edges G) = 3 * (k ^ 3 / 4)
    /\ NoDup (edges G)
    /\ forall u v, In (u, v) (edges G) -> ~ In (v, u) (edges G).
Proof.
  intros Hev Hk2. destruct (build_fat_tree_run k Hev Hk2) as (d & Hb & _).
  exists (built k d). split; [exact Hb|].
  change (edges (built k d)) with (edges (fat_tree k)).
  assert (Hkh : 0 <= k / 2) by (apply Z.div_pos; lia).
  pose proof (tree_ops_wf (k / 2) k Hkh) as Hops.
  destruct (fat_tree_wf k) as [Hwf _]; [lia|].
  split; [|split].
  - unfold fat_tree. rewrite fat_tree_ops_eq, (len_edges_run _ Hops).
    rewrite len_pairs_tree_ops by lia. now rewrite (total_hosts_eq k Hev).
  - exact (NoDup_edges (fat_tree k) Hwf).
  - intros u v Huv Hvu. destruct (String.eqb_spec u v) as [->|Hne].
    + apply (edges_has_edge (fat_tree k) Hwf) in Huv. destruct Huv as [Huv _].
      apply fat_tree_has_edge in Huv; [|lia]. apply in_incident in Huv.
      destruct Huv as [H|H]; exact (no_reverse_tree_ops _ _ _ _ H H).
    + exact (edges_no_reverse (fat_tree k) u v Huv Hne Hvu).
Qed.

Lemma build_fat_tree_link_count_witness :
  exists G,
    build_fat_tree 4 = Ok G
    /\ len (edges G) = 3 * (4 ^ 3 / 4)
    /\ NoDup (edges G)
    /\ forall u v, In (u, v) (edges G) -> ~ In (v, u) (edges G).
Proof.
  apply (build_fat_tree_link_count 4); [reflexivity|lia].
Defined.

(** ** Ports, links and recorded parameters of the fat tree *)

Lemma len_dict_keys {V} (d : dict string V) : len (dict_keys d) = len d.
Proof. unfold dict_keys. apply len_map. Qed.

(** X7: every switch uses all of its [k] ports. In the graph
    [build_fat_tree k] returns (even [k >= 2]) a host has exactly one
    neighbour and every other node, core, aggregation or edge switch, has
    exactly [k]. *)
Theorem build_fat_tree_ports (k : Z) :
  Z.even k = true -> 2 <= k ->
  exists G,
    build_fat_tree k = Ok G
    /\ forall n, In n (nodes G) ->
         len (neighbors G n) = if has_type G host n then 1 else k.
Proof.
  intros Hev Hk2. assert (Hk : 0 <= k) by lia.
  destruct (build_fat_tree_run k Hev Hk2) as (d & Hb & _).
  exists (built k d). split; [exact Hb|]. intros n Hn.
  change (nodes (built k d)) with (nodes (fat_tree k)) in Hn.
  rewrite built_neighbors, built_has_type.
  rewrite fat_tree_nodes in Hn by assumption.
  unfold names, dict_keys in Hn. apply in_map_iff in Hn.
  destruct Hn as ([n' a] & En & Hin). cbn [fst] in En. subst n'.
  apply entries_in, tree_ops_in in Hin.
  rewrite fat_tree_neighbors by assumption.
  pose proof (half_pos k Hk2) as Hkh.
  pose proof (even_half k Hev) as E2.
  inversion Hin as [c Hc|p i Hp Hi|p e Hp He|p e j Hp He Hj| | |]; subst.
  - rewrite fat_tree_type_core by assumption. cbn [node_type_eqb].
    rewrite incident_core by (assumption || lia).
    now rewrite len_dict_keys, len_map, len_range.
  - rewrite fat_tree_type_agg by assumption. cbn [node_type_eqb].
    rewrite incident_agg by assumption.
    rewrite len_dict_keys, len_app, !len_map, len_range by lia. lia.
  - rewrite fat_tree_type_edge by assumption. cbn [node_type_eqb].
    rewrite incident_edge by assumption.
    rewrite len_dict_keys, len_app, !len_map, len_range by lia. lia.
  - assert (Hty : has_type (fat_tree k) host (host_id (host_no (k / 2) p e j))
                  = true).
    { unfold has_type.
      now rewrite (fat_tree_node k Hk _ _ (op_host (k / 2) k p e j Hp He Hj)). }
    rewrite Hty. rewrite incident_host; [reflexivity|lia|].
    unfold host_no. nia.
Qed.

Lemma build_fat_tree_ports_witness :
  exists G,
    build_fat_tree 6 = Ok G
    /\ forall n, In n (nodes G) ->
         len (neighbors G n) = if has_type G host n then 1 else 6.
Proof.
  apply (build_fat_tree_ports 6); [reflexivity|lia].
Defined.

(** The links of a [k]-ary fat tree: a host hangs under its edge switch;
    the edge and aggregation switches of one pod are all linked; the
    aggregation switch [a] of a pod is linked to the core switches
    [a * (k/2) .. a * (k/2) + k/2 - 1]. *)
Inductive fat_tree_link (k : Z) : string -> string -> layer -> Prop :=
| fl_edge_host p e j :
    0 <= p < k -> 0 <= e < k / 2 -> 0 <= j < k / 2 ->
    fat_tree_link k (edge_id p e) (host_id ((p * (k / 2) + e) * (k / 2) + j))
      edge_host
| fl_agg_edge p a e :
    0 <= p < k -> 0 <= a < k / 2 -> 0 <= e < k / 2 ->
    fat_tree_link k (agg_id p a) (edge_id p e) agg_edge
| fl_agg_core p a off :
    0 <= p < k -> 0 <= a < k / 2 -> 0 <= off < k / 2 ->
    fat_tree_link k (agg_id p a) (core_id (a * (k / 2) + off)) agg_core.

Lemma fat_tree_link_op (k : Z) (u v : string) (l : layer) :
  fat_tree_link k u v l <-> tree_op (k / 2) k (AddEdge u v l).
Proof.
  split.
  - intros [p e j Hp He Hj|p a e Hp Ha He|p a off Hp Ha Hoff].
    + now apply (op_edge_host (k / 2) k p e j).
    + now constructor.
    + now constructor.
  - intros H. inversion H; subst.
    + now apply (fl_edge_host k p e j).
    + now constructor.
    + now constructor.
Qed.

Lemma in_incident_layer (ops : list op) (u v : string) (l : layer) :
  In (v, Some l) (incident u ops)
  <-> In (AddEdge u v l) ops \/ In (AddEdge v u l) ops.
Proof.
  unfold incident. rewrite in_flat_map. split.
  - intros ([n a|a b l'] & Ho & Hin); cbn [op_incident] in Hin;
      [contradiction|].
    destruct (String.eqb_spec u a) as [->|Hua].
    + destruct Hin as [[= <- <-]|[]]. now left.
    + destruct (String.eqb_spec u b) as [->|Hub]; [|contradiction].
      destruct Hin as [[= <- <-]|[]]. now right.
  - intros [H|H]; eexists; (split; [exact H|]); cbn [op_incident].
    + rewrite String.eqb_refl. now left.
    + destruct (String.eqb_spec u v) as [->|Hne]; [now left|].
      rewrite String.eqb_refl. now left.
Qed.

(** X8: the graph [build_fat_tree k] returns (even [k >= 2]) has the links
    of a fat tree and no others: [G[u][v]['layer']] is [l] exactly when
    one of [u], [v] is linked to the other by the layout above with layer
    [l]. So every link joins two neighbouring layers, links between
    edge and aggregation switches stay inside one pod, and two nodes are
    linked exactly when the link has a layer. *)
Theorem build_fat_tree_links (k : Z) :
  Z.even k = true -> 2 <= k ->
  exists G,
    build_fat_tree k = Ok G
    /\ (forall u v l, link_layer G u v = Some l
                      <-> fat_tree_link k u v l \/ fat_tree_link k v u l)
    /\ (forall u v, has_edge G u v = true
                    <-> exists l, link_layer G u v = Some l).
Proof.
  intros Hev Hk2. assert (Hk : 0 <= k) by lia.
  destruct (build_fat_tree_run k Hev Hk2) as (d & Hb & _).
  exists (built k d). split; [exact Hb|].
  assert (Hkh : 0 <= k / 2) by (apply Z.div_pos; lia).
  pose proof (tree_ops_wf (k / 2) k Hkh) as Hops.
  assert (Hlayer : forall u v l,
            link_layer (fat_tree k) u v = Some l
            <-> In (v, Some l) (incident u (tree_ops (k / 2) k))).
  { intros u v l. rewrite fat_tree_link_layer by assumption.
    pose proof (NoDup_incident (tree_ops (k / 2) k) u (wf_pairs _ Hops)
                  (wf_no_reverse _ Hops)) as Hnd.
    split.
    - destruct (dict_get (incident u (tree_ops (k / 2) k)) v) as [x|] eqn:E;
        [|discriminate].
      intros ->. now apply dict_get_In.
    - intros Hin. now rewrite (dict_get_NoDup_In _ v (Some l) Hnd Hin). }
  split.
  - intros u v l. rewrite built_link_layer, Hlayer, in_incident_layer.
    now rewrite !tree_ops_in_iff, !fat_tree_link_op.
  - intros u v. rewrite built_has_edge, fat_tree_has_edge by assumption.
    split.
    + intros Hin. unfold dict_keys in Hin. apply in_map_iff in Hin.
      destruct Hin as ([v' x] & Ev & Hin). cbn [fst] in Ev. subst v'.
      assert (Hx : exists l, x = Some l).
      { unfold incident in Hin. apply in_flat_map in Hin.
        destruct Hin as ([n a|a b l] & _ & Hin); cbn [op_incident] in Hin;
          [contradiction|].
        destruct (String.eqb u a);
          [|destruct (String.eqb u b); [|contradiction]];
          destruct Hin as [[= _ <-]|[]]; now exists l. }
      destruct Hx as [l ->]. exists l. rewrite built_link_layer.
      now apply Hlayer.
    + intros [l Hl]. rewrite built_link_layer in Hl. apply Hlayer in Hl.
      unfold dict_keys. apply in_map_iff. now exists (v, Some l).
Qed.

Lemma build_fat_tree_links_witness :
  exists G,
    build_fat_tree 4 = Ok G
    /\ (forall u v l, link_layer G u v = Some l
                      <-> fat_tree_link 4 u v l \/ fat_tree_link 4 v u l)
    /\ (forall u v, has_edge G u v = true
                    <-> exists l, link_layer G u v = Some l).
Proof.
  apply (build_fat_tree_links 4); [reflexivity|lia].
Defined.

Lemma len_names_tree_ops (kh k : Z) :
  0 <= kh -> 0 <= k ->
  len (names (tree_ops kh k)) = kh * kh + 2 * (k * kh) + k * kh * kh.
Proof.
  intros Hkh Hk. unfold names. rewrite len_dict_keys. unfold entries.
  rewrite flat_map_tree_ops. cbn [op_entries app]. rewrite !len_app.
  rewrite (len_flat_map_const _ (range (kh * kh)) 1) by reflexivity.
  rewrite (len_flat_map_const _ (range k) (kh + kh * (1 + kh))).
  - rewrite (len_flat_map_const _ (range k) 0).
    + rewrite !len_range by nia. lia.
    + intros p _. rewrite len_app.
      rewrite (len_flat_map_const _ (range kh) 0); [lia|].
      intros a _. rewrite (len_flat_map_const _ (range kh) 0) by reflexivity.
      lia.
  - intros p _. rewrite len_app.
    rewrite (len_flat_map_const _ (range kh) 1) by reflexivity.
    rewrite (len_flat_map_const _ (range kh) (1 + kh)).
    + rewrite len_range by assumption. lia.
    + intros e _.
      change (len ((edge_id p e, attrs edge p None)
                   :: flat_map (fun j : Z =>
                        [(host_id (host_no kh p e j),
                          attrs host p (Some (edge_id p e)))]) (range kh)))
        with (len ([(edge_id p e, attrs edge p None)]
                   ++ flat_map (fun j : Z =>
                        [(host_id (host_no kh p e j),
                          attrs host p (Some (edge_id p e)))]) (range kh))).
      rewrite len_app.
      rewrite (len_flat_map_const _ (range kh) 1) by reflexivity.
      rewrite len_range by assumption. unfold len. cbn [List.length]. lia.
Qed.

(** X9: the parameters [build_fat_tree k] stores in [G.graph['params']]
    are the ones [calculate_fat_tree_params k] returns, and they describe
    the graph: [total_hosts] hosts, [num_core_switches] core switches,
    [num_pods * k_half] aggregation and as many edge switches, and no other
    node; [total_hosts] is [num_pods * k_half * k_half]. *)
Theorem build_fat_tree_params (k : Z) :
  Z.even k = true -> 2 <= k ->
  exists G ps,
    build_fat_tree k = Ok G
    /\ calculate_fat_tree_params k = Ok ps
    /\ g_params G = Some ps
    /\ len (nodes_of_type G host) = total_hosts ps
    /\ len (nodes_of_type G core) = num_core_switches ps
    /\ len (nodes_of_type G agg) = num_pods ps * k_half ps
    /\ len (nodes_of_type G edge) = num_pods ps * k_half ps
    /\ len (nodes G)
       = total_hosts ps + num_core_switches ps + 2 * (num_pods ps * k_half ps)
    /\ total_hosts ps = num_pods ps * k_half ps * k_half ps
    /\ 2 * k_half ps = p_k ps.
Proof.
  intros Hev Hk2. assert (Hk : 0 <= k) by lia.
  destruct (build_fat_tree_run k Hev Hk2) as (d & Hb & _).
  eexists. eexists. split; [exact Hb|].
  split; [now apply params_valid|]. split; [reflexivity|].
  cbn [total_hosts num_core_switches num_pods k_half p_k g_node g_adj].
  assert (Hkh : 0 <= k / 2) by (apply Z.div_pos; lia).
  destruct (len_names_of_kind (k / 2) k Hkh Hk) as (Lc & La & Le & Lh).
  pose proof (total_hosts_eq k Hev) as Eh.
  pose proof (even_half k Hev) as E2.
  match goal with
  | |- context [nodes_of_type ?G _] =>
      change (nodes_of_type G) with (nodes_of_type (fat_tree k));
      change (nodes G) with (nodes (fat_tree k))
  end.
  rewrite !fat_tree_nodes_of_type, fat_tree_nodes by assumption.
  rewrite len_names_tree_ops by assumption.
  rewrite Lc, La, Le, Lh, Eh. repeat split; lia.
Qed.

Lemma build_fat_tree_params_witness :
  exists G ps,
    build_fat_tree 8 = Ok G
    /\ calculate_fat_tree_params 8 = Ok ps
    /\ g_params G = Some ps
    /\ len (nodes_of_type G host) = total_hosts ps
    /\ len (nodes_of_type G core) = num_core_switches ps
    /\ len (nodes_of_type G agg) = num_pods ps * k_half ps
    /\ len (nodes_of_type G edge) = num_pods ps * k_half ps
    /\ len (nodes G)
       = total_hosts ps + num_core_switches ps + 2 * (num_pods ps * k_half ps)
    /\ total_hosts ps = num_pods ps * k_half ps * k_half ps
    /\ 2 * k_half ps = p_k ps.
Proof.
  apply (build_fat_tree_params 8); [reflexivity|lia].
Defined.

(** ** The experiment driver *)

Definition host_names (n : Z) : list string := map host_id (range n).

Lemma host_names_eq (n : Z) :
  map (fun i => ("H_" ++ str i)%string) (range n) = host_names n.
Proof.
  unfold host_names. apply map_ext. intros i.
  with_strategy transparent [host_id] (unfold host_id). reflexivity.
Qed.

Lemma total_hosts_nonneg (k : Z) : 0 <= k -> 0 <= k ^ 3 / 4.
Proof. intros Hk. apply Z.div_pos; [|lia]. apply Z.pow_nonneg. lia. Qed.

Section Driver.
Context {RS : RandomSource}.

(** Lines 144-161 for a valid [k]. *)
Lemma fixed_host_pairs_valid (k N_SAMPLES : Z) (w : world) :
  Z.even k = true -> 2 <= k ->
  fixed_host_pairs_of k N_SAMPLES w =
    (if k ^ 3 / 4 <=? 16
     then ret (all_possible_pairs (host_names (k ^ 3 / 4)))
     else random_sample (all_possible_pairs (host_names (k ^ 3 / 4)))
            (Z.min N_SAMPLES
               (len (all_possible_pairs (host_names (k ^ 3 / 4))))))
      {| w_G := w_G w; w_random := seed 1000 |}.
Proof.
  intros Hev Hk2. unfold fixed_host_pairs_of.
  unfold bindM at 1. unfold lift at 1. rewrite (params_valid k Hev Hk2).
  cbn [total_hosts]. cbv zeta. rewrite host_names_eq.
  unfold bindM at 1. unfold random_seed at 1.
  unfold host_names at 1. rewrite len_map, len_range
    by (apply total_hosts_nonneg; lia).
  reflexivity.
Qed.

Lemma fixed_host_pairs_ok (k N_SAMPLES : Z) (w : world) :
  Z.even k = true -> 2 <= k -> 0 <= N_SAMPLES ->
  exists pairs s',
    fixed_host_pairs_of k N_SAMPLES w
    = (Ok pairs, {| w_G := w_G w; w_random := s' |}).
Proof.
  intros Hev Hk2 HN. rewrite (fixed_host_pairs_valid k N_SAMPLES w Hev Hk2).
  destruct (k ^ 3 / 4 <=? 16).
  - eexists. eexists. reflexivity.
  - unfold random_sample. cbn [w_G w_random].
    set (pop := all_possible_pairs (host_names (k ^ 3 / 4))).
    assert (Hlen : 0 <= len pop) by (unfold len; lia).
    rewrite (proj2 (Z.ltb_ge (Z.min N_SAMPLES (len pop)) 0)) by lia.
    rewrite (proj2 (Z.ltb_ge (len pop) (Z.min N_SAMPLES (len pop)))) by lia.
    cbn [orb].
    destruct (sample pop (Z.to_nat (Z.min N_SAMPLES (len pop))) (seed 1000))
      as [r s'].
    now exists r, s'.
Qed.

(** X10: an invalid [k] ends [run_experiment_cycle] with the [ValueError]
    of [calculate_fat_tree_params], which it calls outside any [try]: not
    with the [SystemExit] of [build_fat_tree]. Nothing was seeded, built or
    measured by then. *)
Theorem run_experiment_cycle_invalid_k (k : Z) (fail_rates : list float)
    (N_RUNS N_SAMPLES : Z) (w : world) :
  Z.odd k = true \/ k < 2 ->
  run_experiment_cycle k fail_rates N_RUNS N_SAMPLES w
  = (Raise (ValueError "k must be an even number greater than or equal to 2."),
     w).
Proof.
  intros Hk. unfold run_experiment_cycle, fixed_host_pairs_of.
  unfold bindM, lift. now rewrite (params_invalid k Hk).
Qed.

(** X11: with [N_RUNS = 0] no trial is made and the mean of the first
    failure rate divides by zero: for a valid [k], a non-negative
    [N_SAMPLES] and a non-empty list of rates [run_experiment_cycle] ends
    with [ZeroDivisionError]; the graph at hand is untouched. *)
Theorem run_experiment_cycle_no_runs (k : Z) (rate : float)
    (rates : list float) (N_SAMPLES : Z) (w : world) :
  Z.even k = true -> 2 <= k -> 0 <= N_SAMPLES ->
  fst (run_experiment_cycle k (rate :: rates) 0 N_SAMPLES w)
    = Raise ZeroDivisionError
  /\ w_G (snd (run_experiment_cycle k (rate :: rates) 0 N_SAMPLES w)) = w_G w.
Proof.
  intros Hev Hk2 HN.
  destruct (fixed_host_pairs_ok k N_SAMPLES w Hev Hk2 HN) as (pairs & s' & E).
  assert (Hrun : run_experiment_cycle k (rate :: rates) 0 N_SAMPLES w
                 = (Raise ZeroDivisionError,
                    {| w_G := w_G w; w_random := s' |})).
  { unfold run_experiment_cycle. unfold bindM at 1. rewrite E.
    cbn [for_eachM]. unfold bindM at 1. unfold rate_body at 1.
    change (range 0) with (@nil Z). cbn [for_eachM].
    unfold bindM, ret, lift, mean_over_runs. reflexivity. }
  rewrite Hrun. split; reflexivity.
Qed.

(** X12: a negative [N_SAMPLES] is fatal as soon as the pairs are sampled,
    that is for more than 16 hosts ([k >= 6]): [random.sample] raises
    [ValueError] right after [random.seed(1000)]. *)
Theorem run_experiment_cycle_negative_samples (k : Z)
    (fail_rates : list float) (N_RUNS N_SAMPLES : Z) (w : world) :
  Z.even k = true -> 6 <= k -> N_SAMPLES < 0 ->
  run_experiment_cycle k fail_rates N_RUNS N_SAMPLES w
  = (Raise (ValueError "Sample larger than population or is negative"),
     {| w_G := w_G w; w_random := seed 1000 |}).
Proof.
  intros Hev Hk6 HN. unfold run_experiment_cycle. unfold bindM at 1.
  rewrite (fixed_host_pairs_valid k N_SAMPLES w Hev) by lia.
  assert (Hbig : (k ^ 3 / 4 <=? 16) = false).
  { apply Z.leb_gt. rewrite (total_hosts_eq k Hev).
    assert (3 <= k / 2) by (apply Z.div_le_lower_bound; lia). nia. }
  rewrite Hbig. unfold random_sample.
  set (pop := all_possible_pairs (host_names (k ^ 3 / 4))).
  assert (Hlen : 0 <= len pop) by (unfold len; lia).
  rewrite (proj2 (Z.ltb_lt (Z.min N_SAMPLES (len pop)) 0)) by lia.
  reflexivity.
Qed.

End Driver.

Lemma run_experiment_cycle_invalid_k_witness :
  @run_experiment_cycle lcg_source 5 [0%float; 5%float] 100 500
    (at_world empty_graph 0)
  = (Raise (ValueError "k must be an even number greater than or equal to 2."),
     at_world empty_graph 0).
Proof.
  apply (@run_experiment_cycle_invalid_k lcg_source 5). left. reflexivity.
Defined.

Lemma run_experiment_cycle_no_runs_witness :
  fst (@run_experiment_cycle lcg_source 4 [0%float; 5%float] 0 500
         (at_world empty_graph 0))
    = Raise ZeroDivisionError
  /\ w_G (snd (@run_experiment_cycle lcg_source 4 [0%float; 5%float] 0 500
                 (at_world empty_graph 0)))
     = w_G (at_world empty_graph 0).
Proof.
  apply (@run_experiment_cycle_no_runs lcg_source 4); [reflexivity|lia|lia].
Defined.

Lemma run_experiment_cycle_negative_samples_witness :
  @run_experiment_cycle lcg_source 6 [0%float] 1 (-1) (at_world empty_graph 0)
  = (Raise (ValueError "Sample larger than population or is negative"),
     {| w_G := w_G (at_world empty_graph 0); w_random := seed 1000 |}).
Proof.
  apply (@run_experiment_cycle_negative_samples lcg_source 6);
    [reflexivity|lia|lia].
Defined.

Section DriverShape.
Context {RS : RandomSource}.

Lemma rate_body_shape (k N_RUNS : Z) (pairs : list (string * string))
    (res res' : results) (rate : float) (w w' : world) :
  rate_body k N_RUNS pairs res rate w = (Ok res', w') ->
  fail_rate res' = fail_rate res ++ [rate]
  /\ len (avg_path res') = len (avg_path res) + 1
  /\ len (reachability res') = len (reachability res) + 1.
Proof.
  unfold rate_body, bindM, lift, ret.
  destruct (for_eachM (range N_RUNS) (run_body k rate pairs) (0%float, 0%float) w)
    as [[sums|e] w1]; [|discriminate].
  destruct (mean_over_runs (fst sums) N_RUNS); [|discriminate].
  destruct (mean_over_runs (snd sums) N_RUNS); [|discriminate].
  intros [= <- <-]. cbn [fail_rate avg_path reachability].
  rewrite !len_app. repeat split.
Qed.

Lemma rates_loop_shape (k N_RUNS : Z) (pairs : list (string * string))
    (rates : list float) :
  forall (res res' : results) (w w' : world),
    for_eachM rates (rate_body k N_RUNS pairs) res w = (Ok res', w') ->
    fail_rate res' = fail_rate res ++ rates
    /\ len (avg_path res') = len (avg_path res) + len rates
    /\ len (reachability res') = len (reachability res) + len rates.
Proof.
  induction rates as [|r rates IH]; intros res res' w w'; cbn [for_eachM].
  - unfold ret. intros [= <- <-]. rewrite app_nil_r.
    change (len (@nil float)) with 0. repeat split; lia.
  - unfold bindM at 1.
    destruct (rate_body k N_RUNS pairs res r w) as [[res1|e] w1] eqn:E1;
      [|discriminate].
    intros H. apply IH in H. apply rate_body_shape in E1.
    destruct H as (H1 & H2 & H3), E1 as (E1 & E2 & E3).
    rewrite H1, H2, H3, E1, E2, E3, <- app_assoc.
    unfold len. cbn [List.length app]. repeat split; lia.
Qed.

(** X13: when [run_experiment_cycle] returns, the three lists of its
    result line up with its input: ['fail_rate'] is the list of rates it
    was given, in order, and ['avg_path'] and ['reachability'] hold one
    value per rate. *)
Theorem run_experiment_cycle_shape (k : Z) (fail_rates : list float)
    (N_RUNS N_SAMPLES : Z) (w w' : world) (res : results) :
  run_experiment_cycle k fail_rates N_RUNS N_SAMPLES w = (Ok res, w') ->
  fail_rate res = fail_rates
  /\ len (avg_path res) = len fail_rates
  /\ len (reachability res) = len fail_rates.
Proof.
  unfold run_experiment_cycle. unfold bindM at 1.
  destruct (fixed_host_pairs_of k N_SAMPLES w) as [[pairs|e] w1];
    [|discriminate].
  intros H. apply rates_loop_shape in H. exact H.
Qed.

(** What a computation returns does not depend on the graph it finds, and
    it leaves two worlds with the same generator state in worlds with the
    same generator state. *)
Definition graph_blind {A} (m : M A) : Prop :=
  forall w1 w2 : world,
    w_random w1 = w_random w2 ->
    fst (m w1) = fst (m w2) /\ w_random (snd (m w1)) = w_random (snd (m w2)).

Lemma graph_blind_bind {A B} (m : M A) (f : A -> M B) :
  graph_blind m -> (forall a, graph_blind (f a)) -> graph_blind (bindM m f).
Proof.
  intros Hm Hf w1 w2 Hw. unfold bindM.
  destruct (Hm w1 w2 Hw) as [H1 H2].
  destruct (m w1) as [[a|e] w1'], (m w2) as [[a'|e'] w2'];
    cbn [fst snd] in *; try discriminate.
  - injection H1 as <-. now apply Hf.
  - injection H1 as <-. now split.
Qed.

Lemma graph_blind_for_each {S X} (body : S -> X -> M S) (xs : list X) :
  (forall s x, graph_blind (body s x)) ->
  forall s, graph_blind (for_eachM xs body s).
Proof.
  intros Hb. induction xs as [|x xs IH]; intros s; cbn [for_eachM].
  - intros w1 w2 Hw. now split.
  - apply graph_blind_bind; [apply Hb|exact IH].
Qed.

Lemma graph_blind_lift {A} (o : outcome A) : graph_blind (lift o).
Proof. intros w1 w2 Hw. now split. Qed.

Lemma graph_blind_ret {A} (a : A) : graph_blind (ret a).
Proof. intros w1 w2 Hw. now split. Qed.

(** A trial builds its own graph and seeds the generator itself. *)
Lemma run_body_blind (k : Z) (rate : float) (pairs : list (string * string))
    (acc : float * float) (run : Z) :
  graph_blind (run_body k rate pairs acc run).
Proof.
  intros w1 w2 Hw. unfold run_body. unfold bindM at 1. unfold bindM at 6.
  unfold lift. destruct (build_fat_tree k) as [G|e]; [|now split].
  unfold bindM at 1. unfold bindM at 5. unfold put_G.
  unfold bindM at 1. unfold bindM at 4. unfold random_seed.
  cbn [w_G w_random]. now split.
Qed.

Lemma rate_body_blind (k N_RUNS : Z) (pairs : list (string * string))
    (res : results) (rate : float) :
  graph_blind (rate_body k N_RUNS pairs res rate).
Proof.
  unfold rate_body. apply graph_blind_bind.
  - apply graph_blind_for_each. intros acc run. apply run_body_blind.
  - intros sums. apply graph_blind_bind; [apply graph_blind_lift|].
    intros a. apply graph_blind_bind; [apply graph_blind_lift|].
    intros b. apply graph_blind_ret.
Qed.

(** X14: the experiment is reproducible. What [run_experiment_cycle]
    returns (the results, or the exception) is the same whatever graph and
    generator state it finds when it is called: it seeds the generator
    before it samples the pairs and before every trial, and every trial
    builds its own graph. *)
Theorem run_experiment_cycle_reproducible (k : Z) (fail_rates : list float)
    (N_RUNS N_SAMPLES : Z) (w1 w2 : world) :
  fst (run_experiment_cycle k fail_rates N_RUNS N_SAMPLES w1)
  = fst (run_experiment_cycle k fail_rates N_RUNS N_SAMPLES w2).
Proof.
  unfold run_experiment_cycle.
  assert (Hpairs :
    fst (fixed_host_pairs_of k N_SAMPLES w1)
      = fst (fixed_host_pairs_of k N_SAMPLES w2)
    /\ (forall a, fst (fixed_host_pairs_of k N_SAMPLES w1) = Ok a ->
        w_random (snd (fixed_host_pairs_of k N_SAMPLES w1))
        = w_random (snd (fixed_host_pairs_of k N_SAMPLES w2)))).
  { unfold fixed_host_pairs_of. unfold bindM at 1 3 5 7. unfold lift.
    destruct (calculate_fat_tree_params k) as [ps|e];
      [|split; [reflexivity|discriminate]].
    cbv zeta. unfold bindM, random_seed.
    destruct (len (map (fun i : Z => ("H_" ++ str i)%string)
                     (range (total_hosts ps))) <=? 16).
    - unfold ret. cbn [fst snd w_random]. now split.
    - unfold random_sample. cbn [w_G w_random].
      match goal with
      | |- context [if ?c then _ else _] => destruct c
      end; [split; [reflexivity|discriminate]|].
      match goal with
      | |- context [sample ?p ?n ?s] => destruct (sample p n s) as [r s']
      end.
      cbn [fst snd w_random]. now split. }
  destruct Hpairs as [H1 H2]. unfold bindM.
  destruct (fixed_host_pairs_of k N_SAMPLES w1) as [[a|e] w1'],
           (fixed_host_pairs_of k N_SAMPLES w2) as [[a'|e'] w2'];
    cbn [fst snd] in *; try discriminate.
  - injection H1 as <-.
    apply (graph_blind_for_each (rate_body k N_RUNS a) fail_rates).
    + intros res rate. apply rate_body_blind.
    + now apply (H2 a).
  - now injection H1 as <-.
Qed.

End DriverShape.

(** What one run of the driver returns: [k = 2], rates 0 and 10 percent,
    two trials per rate. *)
Definition driver_result_2 : outcome results :=
  Eval vm_compute in
    fst (@run_experiment_cycle lcg_source 2 [0%float; 10%float] 2 5
           (at_world empty_graph 0)).

Lemma driver_run_2 :
  @run_experiment_cycle lcg_source 2 [0%float; 10%float] 2 5
    (at_world empty_graph 0)
  = (Ok {| fail_rate := [0%float; 10%float];
           avg_path := [6%float; 0%float];
           reachability := [100%float; 0%float] |},
     snd (@run_experiment_cycle lcg_source 2 [0%float; 10%float] 2 5
            (at_world empty_graph 0))).
Proof.
  assert (Ef : fst (@run_experiment_cycle lcg_source 2 [0%float; 10%float] 2 5
                      (at_world empty_graph 0)) = driver_result_2)
    by (vm_compute; reflexivity).
  unfold driver_result_2 in Ef. rewrite <- Ef. apply surjective_pairing.
Qed.

Lemma run_experiment_cycle_shape_witness :
  exists res w',
    @run_experiment_cycle lcg_source 2 [0%float; 10%float] 2 5
      (at_world empty_graph 0) = (Ok res, w')
    /\ fail_rate res = [0%float; 10%float]
    /\ len (avg_path res) = len [0%float; 10%float]
    /\ len (reachability res) = len [0%float; 10%float].
Proof.
  eexists. eexists. split; [exact driver_run_2|].
  exact (@run_experiment_cycle_shape lcg_source 2 [0%float; 10%float] 2 5
           _ _ _ driver_run_2).
Defined.

(** ** The pairs the experiment measures *)

Lemma filter_map_comm {A B} (f : B -> bool) (g : A -> B) (l : list A) :
  filter f (map g l) = map g (filter (fun x => f (g x)) l).
Proof.
  induction l as [|a l IH]; cbn [map filter]; [reflexivity|].
  destruct (f (g a)); cbn [map]; now rewrite IH.
Qed.

(** Lines 151-152 on the host list: every ordered pair of two different
    hosts, by first host and then by second. *)
Lemma all_possible_pairs_hosts (n : Z) :
  all_possible_pairs (host_names n) =
    flat_map
      (fun i => map (fun j => (host_id i, host_id j))
                  (filter (fun j => negb (i =? j)) (range n)))
      (range n).
Proof.
  unfold all_possible_pairs, host_names. rewrite enumerate_map_range.
  rewrite flat_map_map. apply flat_map_ext_in. intros i _. cbn [fst snd].
  rewrite filter_map_comm, map_map. reflexivity.
Qed.

Lemma in_all_possible_pairs (n : Z) (a b : string) :
  In (a, b) (all_possible_pairs (host_names n))
  <-> exists i j, a = host_id i /\ b = host_id j
                  /\ 0 <= i < n /\ 0 <= j < n /\ i <> j.
Proof.
  rewrite all_possible_pairs_hosts, in_flat_map. split.
  - intros (i & Hi & Hin). apply in_map_iff in Hin.
    destruct Hin as (j & Eab & Hj). apply filter_In in Hj.
    assert (Ea : a = host_id i) by (apply (f_equal fst) in Eab; now symmetry).
    assert (Eb : b = host_id j) by (apply (f_equal snd) in Eab; now symmetry).
    clear Eab.
    destruct Hj as [Hj Hne]. apply negb_true_iff, Z.eqb_neq in Hne.
    exists i, j. apply in_range in Hi, Hj. repeat split; auto; lia.
  - intros (i & j & -> & -> & Hi & Hj & Hne). exists i.
    split; [now apply in_range|]. apply in_map_iff. exists j.
    split; [reflexivity|]. apply filter_In. split; [now apply in_range|].
    now apply negb_true_iff, Z.eqb_neq.
Qed.

Lemma NoDup_all_possible_pairs (n : Z) :
  NoDup (all_possible_pairs (host_names n)).
Proof.
  rewrite all_possible_pairs_hosts.
  apply NoDup_flat_map; [apply NoDup_range| |].
  - intros i _. apply NoDup_map_inj.
    + intros x y _ _ E. apply (f_equal snd) in E. cbn [snd] in E.
      now apply host_id_inj.
    + apply NoDup_filter, NoDup_range.
  - intros x y [a b] _ _ Hx Hy. apply in_map_iff in Hx, Hy.
    destruct Hx as (j & Ex & _), Hy as (j' & Ey & _).
    apply (f_equal fst) in Ex, Ey. cbn [fst] in Ex, Ey.
    apply host_id_inj. congruence.
Qed.

Lemma length_filter_other (i : Z) (l : list Z) :
  NoDup l -> In i l ->
  S (List.length (filter (fun j => negb (i =? j)) l)) = List.length l.
Proof.
  induction l as [|a l IH]; intros Hnd Hin; [contradiction|].
  inversion Hnd as [|? ? Hni Hnd']; subst. cbn [filter].
  destruct (Z.eqb_spec i a) as [->|Hne]; cbn [negb List.length].
  - f_equal. f_equal. apply filter_all. intros x Hx.
    apply negb_true_iff, Z.eqb_neq. intros ->. contradiction.
  - f_equal. apply IH; [assumption|]. destruct Hin; [congruence|assumption].
Qed.

Lemma len_all_possible_pairs (n : Z) :
  0 <= n -> len (all_possible_pairs (host_names n)) = n * (n - 1).
Proof.
  intros Hn. rewrite all_possible_pairs_hosts.
  rewrite (len_flat_map_const _ (range n) (n - 1)).
  - now rewrite len_range.
  - intros i Hi. rewrite len_map.
    pose proof (length_filter_other i (range n) (NoDup_range n) Hi) as H.
    rewrite length_range in H. unfold len. lia.
Qed.

Section PairList.
Context {RS : RandomSource}.

(** X15: the pairs of an experiment. For a valid [k] and [N_SAMPLES >= 0],
    lines 144-161 of [run_experiment_cycle] produce one list of pairs with
    which every rate and every trial is then measured: the list has no
    pair twice and only pairs of two different hosts of the tree; for at
    most 16 hosts it holds all [n * (n - 1)] ordered pairs and
    the generator is left as [random.seed(1000)] set it; for more hosts it
    is what [random.sample] draws from these pairs in that state,
    [min(N_SAMPLES, n * (n - 1))] of them. *)
Theorem run_experiment_cycle_pairs (k : Z) (fail_rates : list float)
    (N_RUNS N_SAMPLES : Z) (w : world) :
  Z.even k = true -> 2 <= k -> 0 <= N_SAMPLES ->
  exists pairs s',
    fixed_host_pairs_of k N_SAMPLES w
      = (Ok pairs, {| w_G := w_G w; w_random := s' |})
    /\ run_experiment_cycle k fail_rates N_RUNS N_SAMPLES w
       = for_eachM fail_rates (rate_body k N_RUNS pairs)
           {| fail_rate := []; avg_path := []; reachability := [] |}
           {| w_G := w_G w; w_random := s' |}
    /\ NoDup pairs
    /\ (forall a b, In (a, b) pairs ->
          exists i j, a = host_id i /\ b = host_id j
                      /\ 0 <= i < k ^ 3 / 4 /\ 0 <= j < k ^ 3 / 4 /\ i <> j)
    /\ (k ^ 3 / 4 <= 16 ->
          s' = seed 1000
          /\ len pairs = k ^ 3 / 4 * (k ^ 3 / 4 - 1)
          /\ forall i j, 0 <= i < k ^ 3 / 4 -> 0 <= j < k ^ 3 / 4 -> i <> j ->
               In (host_id i, host_id j) pairs)
    /\ (16 < k ^ 3 / 4 ->
          len pairs = Z.min N_SAMPLES (k ^ 3 / 4 * (k ^ 3 / 4 - 1))
          /\ (pairs, s')
             = sample (all_possible_pairs (host_names (k ^ 3 / 4)))
                 (Z.to_nat (Z.min N_SAMPLES (k ^ 3 / 4 * (k ^ 3 / 4 - 1))))
                 (seed 1000)).
Proof.
  intros Hev Hk2 HN.
  assert (Hn : 0 <= k ^ 3 / 4) by (apply total_hosts_nonneg; lia).
  pose proof (len_all_possible_pairs (k ^ 3 / 4) Hn) as Hlen.
  pose proof (NoDup_all_possible_pairs (k ^ 3 / 4)) as Hnd.
  assert (Hrun : forall pairs w1,
            fixed_host_pairs_of k N_SAMPLES w = (Ok pairs, w1) ->
            run_experiment_cycle k fail_rates N_RUNS N_SAMPLES w
            = for_eachM fail_rates (rate_body k N_RUNS pairs)
                {| fail_rate := []; avg_path := []; reachability := [] |} w1).
  { intros pairs w1 E. unfold run_experiment_cycle. unfold bindM at 1.
    now rewrite E. }
  pose proof (fixed_host_pairs_valid k N_SAMPLES w Hev Hk2) as E.
  destruct (k ^ 3 / 4 <=? 16) eqn:Esmall.
  - apply Z.leb_le in Esmall. unfold ret in E.
    exists (all_possible_pairs (host_names (k ^ 3 / 4))), (seed 1000).
    split; [exact E|]. split; [exact (Hrun _ _ E)|]. split; [exact Hnd|].
    split; [intros a b; apply in_all_possible_pairs|].
    split; [|intros Hbig; lia].
    intros _. split; [reflexivity|]. split; [exact Hlen|].
    intros i j Hi Hj Hne. apply in_all_possible_pairs. now exists i, j.
  - apply Z.leb_gt in Esmall. unfold random_sample in E.
    cbn [w_G w_random] in E. rewrite Hlen in E.
    set (pop := all_possible_pairs (host_names (k ^ 3 / 4))) in *.
    set (m := Z.min N_SAMPLES (k ^ 3 / 4 * (k ^ 3 / 4 - 1))) in *.
    assert (Hm : 0 <= m <= k ^ 3 / 4 * (k ^ 3 / 4 - 1)) by (unfold m; nia).
    rewrite (proj2 (Z.ltb_ge m 0)) in E by lia.
    rewrite (proj2 (Z.ltb_ge (k ^ 3 / 4 * (k ^ 3 / 4 - 1)) m)) in E by lia.
    cbn [orb] in E. rewrite <- Hlen in Hm.
    assert (Hk : (Z.to_nat m <= List.length pop)%nat)
      by (unfold len in Hm; lia).
    pose proof (sample_length _ pop (Z.to_nat m) (seed 1000) Hk) as Hsl.
    destruct (sample_without_replacement _ pop (Z.to_nat m) (seed 1000) Hk)
      as [rest Hperm].
    destruct (sample pop (Z.to_nat m) (seed 1000)) as [L s'] eqn:Es.
    cbn [fst] in Hsl, Hperm.
    exists L, s'. split; [exact E|]. split; [exact (Hrun _ _ E)|].
    assert (HndL : NoDup (L ++ rest)).
    { apply (Permutation_NoDup (l := pop)); [now symmetry|exact Hnd]. }
    split; [exact (NoDup_app_remove_r _ _ HndL)|].
    split.
    { intros a b Hin. apply in_all_possible_pairs. fold pop.
      apply (Permutation_in _ Hperm). apply in_or_app. now left. }
    split; [intros Hs; lia|].
    intros _. split; [|reflexivity]. unfold len. rewrite Hsl. lia.
Qed.

End PairList.

Lemma run_experiment_cycle_pairs_witness :
  exists pairs s',
    @fixed_host_pairs_of lcg_source 4 500 (at_world empty_graph 0)
      = (Ok pairs, {| w_G := w_G (at_world empty_graph 0); w_random := s' |})
    /\ @run_experiment_cycle lcg_source 4 [0%float] 1 500
         (at_world empty_graph 0)
       = for_eachM [0%float] (rate_body 4 1 pairs)
           {| fail_rate := []; avg_path := []; reachability := [] |}
           {| w_G := w_G (at_world empty_graph 0); w_random := s' |}
    /\ NoDup pairs
    /\ (forall a b, In (a, b) pairs ->
          exists i j, a = host_id i /\ b = host_id j
                      /\ 0 <= i < 4 ^ 3 / 4 /\ 0 <= j < 4 ^ 3 / 4 /\ i <> j)
    /\ (4 ^ 3 / 4 <= 16 ->
          s' = seed 1000
          /\ len pairs = 4 ^ 3 / 4 * (4 ^ 3 / 4 - 1)
          /\ forall i j, 0 <= i < 4 ^ 3 / 4 -> 0 <= j < 4 ^ 3 / 4 -> i <> j ->
               In (host_id i, host_id j) pairs)
    /\ (16 < 4 ^ 3 / 4 ->
          len pairs = Z.min 500 (4 ^ 3 / 4 * (4 ^ 3 / 4 - 1))
          /\ (pairs, s')
             = sample (all_possible_pairs (host_names (4 ^ 3 / 4)))
                 (Z.to_nat (Z.min 500 (4 ^ 3 / 4 * (4 ^ 3 / 4 - 1))))
                 (seed 1000)).
Proof.
  apply (@run_experiment_cycle_pairs lcg_source 4 [0%float] 1 500);
    [reflexivity|lia|lia].
Defined.

(** ** A whole trial *)

(** The fat tree of a [k] below [2^300] has fewer than [2^1000] nodes. *)
Lemma fat_tree_size (k : Z) :
  2 <= k -> k < 2 ^ 300 -> len (nodes (fat_tree k)) < 2 ^ 1000.
Proof.
  intros Hk2 Hk. rewrite fat_tree_nodes by lia.
  assert (Hkh : 0 <= k / 2) by (apply Z.div_pos; lia).
  rewrite len_names_tree_ops by lia.
  assert (Hle : k / 2 <= k) by (apply Z.div_le_upper_bound; lia).
  assert (HB : 4 * (2 ^ 300 * 2 ^ 300 * 2 ^ 300) <= 2 ^ 1000)
    by (apply Z.leb_le; vm_compute; reflexivity).
  assert (HB0 : 0 < 2 ^ 300) by (apply Z.ltb_lt; vm_compute; reflexivity).
  remember (2 ^ 300) as B eqn:EB. remember (2 ^ 1000) as C eqn:EC.
  clear EB EC. set (kh := k / 2) in *. clearbody kh.
  assert (H1 : kh * kh <= k * k) by nia.
  assert (H2 : k * kh <= k * k) by nia.
  assert (H3 : k * kh * kh <= k * k * k) by nia.
  assert (H4 : k * k < B * B) by nia.
  assert (H5 : k * k * k < B * B * B) by nia.
  nia.
Qed.

Section Trial.
Context {RS : RandomSource}.

(** [model_link_failures] on a graph whose links are enough: it returns the
    links it drew and leaves the graph without them. *)
Lemma model_link_failures_runs (G : Graph) (s : rng) (rate : float) :
  wf_graph G = true ->
  ((rate <=? 0)%float = true
   \/ exists n, num_to_fail_of (len (edges G)) rate = Ok n
                /\ 0 <= n <= len (edges G)) ->
  exists L s',
    model_link_failures rate (at_world G s)
      = (Ok L, at_world (unlink_all G L) s')
    /\ incl L (edges G).
Proof.
  intros Hwf Hfit. destruct (rate <=? 0)%float eqn:Hr.
  - exists [], s. split; [|intros e []].
    unfold model_link_failures. now rewrite Hr.
  - destruct Hfit as [Hfit|(n & Hn & Hrange)]; [discriminate|].
    assert (Hk : (Z.to_nat n <= List.length (edges G))%nat)
      by (unfold len in Hrange; lia).
    destruct (sample_edges G (Z.to_nat n) s Hwf Hk _ eq_refl)
      as (_ & _ & Hincl & Hdist & _).
    exists (fst (sample (edges G) (Z.to_nat n) s)),
           (snd (sample (edges G) (Z.to_nat n) s)).
    split; [|exact Hincl].
    rewrite (model_link_failures_unfold G s rate n Hr Hn).
    unfold bindM at 1. unfold random_sample.
    assert (E : (n <? 0) || (len (edges G) <? n) = false).
    { apply orb_false_iff. split; apply Z.ltb_ge; lia. }
    rewrite E. cbn [at_world w_G w_random].
    destruct (sample (edges G) (Z.to_nat n) s) as [L s'].
    cbn [fst snd] in *. unfold bindM.
    rewrite removal_loop; auto.
    intros [u v] He. cbn [fst snd].
    exact (proj1 (edges_has_edge G Hwf u v (Hincl _ He))).
Qed.

(** [calculate_avg_path_length] on pairs of nodes of a graph with fewer than
    [2^1000] nodes returns, with a reachability between 0 and 100. *)
Lemma calculate_avg_path_length_returns (G : Graph) (s : rng)
    (pairs : list (string * string)) :
  ends_are_nodes G pairs -> len (nodes G) < 2 ^ 1000 ->
  exists avg reach,
    calculate_avg_path_length pairs (at_world G s)
      = (Ok (avg, reach), at_world G s)
    /\ (0 <=? reach)%float = true /\ (reach <=? 100)%float = true.
Proof.
  intros Hends HN. rewrite (calculate_avg_path_length_unfold G s pairs Hends).
  cbv zeta. destruct (reachable_lengths_range G pairs) as [Hsum Hlen].
  assert (Hl0 : 0 <= len (reachable_lengths G pairs)) by (unfold len; lia).
  assert (HN0 : 0 <= len (nodes G)) by (unfold len; lia).
  destruct ((len pairs =? 0) || (len (reachable_lengths G pairs) =? 0)) eqn:E.
  - exists 0%float, 0%float. repeat split.
  - apply orb_false_iff in E. destruct E as [E1 E2].
    apply Z.eqb_neq in E1, E2.
    destruct (mean_is_float (sum_Z (reachable_lengths G pairs))
                (len (reachable_lengths G pairs))) as [avg Eavg]; [lia|nia|].
    destruct (percent_of_counts (len (reachable_lengths G pairs)) (len pairs))
      as (ratio & Er & Hlo & Hhi & _); [lia|].
    exists avg, (ratio * 100)%float. rewrite Eavg, Er. cbn [bind].
    repeat split; assumption.
Qed.

(** The three calls of a trial on the tree of an even [k] with
    [2 <= k < 2^300]. *)
Lemma trial_steps (k : Z) (rate : float) (pairs : list (string * string))
    (run : Z) :
  Z.even k = true -> 2 <= k -> k < 2 ^ 300 ->
  (forall p, In p pairs ->
     exists a b, p = (host_id a, host_id b)
                 /\ 0 <= a < k ^ 3 / 4 /\ 0 <= b < k ^ 3 / 4) ->
  ((rate <=? 0)%float = true
   \/ exists n, num_to_fail_of (3 * (k ^ 3 / 4)) rate = Ok n
                /\ 0 <= n <= 3 * (k ^ 3 / 4)) ->
  exists G L s' avg reach,
    build_fat_tree k = Ok G
    /\ model_link_failures rate (at_world G (seed run))
       = (Ok L, at_world (unlink_all G L) s')
    /\ calculate_avg_path_length pairs (at_world (unlink_all G L) s')
       = (Ok (avg, reach), at_world (unlink_all G L) s')
    /\ (0 <=? reach)%float = true /\ (reach <=? 100)%float = true.
Proof.
  intros Hev Hk2 Hk Hhosts Hfit.
  destruct (build_fat_tree_run k Hev Hk2) as (d & Hb & _).
  fold (built k d) in Hb. set (G := built k d) in *.
  destruct (fat_tree_wf k) as [Hwf _]; [lia|].
  change (wf_graph (fat_tree k)) with (wf_graph G) in Hwf.
  assert (Hlinks : len (edges G) = 3 * (k ^ 3 / 4)).
  { change (edges G) with (edges (fat_tree k)).
    unfold fat_tree. rewrite fat_tree_ops_eq.
    rewrite len_edges_run by (apply tree_ops_wf, Z.div_pos; lia).
    rewrite len_pairs_tree_ops by (try apply Z.div_pos; lia).
    now rewrite (total_hosts_eq k Hev). }
  rewrite <- Hlinks in Hfit.
  destruct (model_link_failures_runs G (seed run) rate Hwf Hfit)
    as (L & s' & Hm & _).
  destruct (unlink_all_spec L G Hwf) as (_ & Hnodes & _).
  assert (Hends : ends_are_nodes (unlink_all G L) pairs).
  { intros p Hp. destruct (Hhosts p Hp) as (a & b & -> & Ha & Hb').
    rewrite (total_hosts_eq k Hev) in Ha, Hb'. cbn [fst snd].
    unfold has_node. rewrite Hnodes.
    split; [exact (host_is_node k Hk2 a Ha)|exact (host_is_node k Hk2 b Hb')]. }
  assert (Hsize : len (nodes (unlink_all G L)) < 2 ^ 1000).
  { unfold nodes. rewrite Hnodes. exact (fat_tree_size k Hk2 Hk). }
  destruct (calculate_avg_path_length_returns (unlink_all G L) s' pairs
              Hends Hsize) as (avg & reach & Ha & Hlo & Hhi).
  exists G, L, s', avg, reach. repeat split; assumption.
Qed.

(** Lines 168-180: a trial whose three calls return. *)
Lemma run_body_steps (k : Z) (rate : float) (pairs : list (string * string))
    (acc : float * float) (run : Z) (w w1 w2 : world)
    (G : Graph) (L : list (string * string)) (lr : float * float) :
  build_fat_tree k = Ok G ->
  model_link_failures rate (at_world G (seed run)) = (Ok L, w1) ->
  calculate_avg_path_length pairs w1 = (Ok lr, w2) ->
  run_body k rate pairs acc run w
  = (Ok ((fst acc + fst lr)%float, (snd acc + snd lr)%float), w2).
Proof.
  intros Hb Hm Ha.
  unfold run_body, bindM, lift, put_G, random_seed, ret. rewrite Hb.
  cbn [w_G w_random]. fold (at_world G (seed run)). now rewrite Hm, Ha.
Qed.

(** X16: a trial cannot fail. For an even [k] with [2 <= k < 2^300], pairs
    of hosts of the tree and a rate that is not positive or whose number of
    links to fail, computed from the [3 * k^3 / 4] links of the tree, is at
    most that number, one pass of the loop body at lines 168-180 of
    [run_experiment_cycle] returns. Whatever graph and generator state it
    finds, it is the failure model run on the freshly built tree from
    [random.seed(run)], then the analysis of what is left of that tree, whose
    two results are added to the sums; the reachability added lies between
    0 and 100. *)
Theorem run_body_completes (k : Z) (rate : float)
    (pairs : list (string * string)) (acc : float * float) (run : Z)
    (w : world) :
  Z.even k = true -> 2 <= k -> k < 2 ^ 300 ->
  (forall p, In p pairs ->
     exists a b, p = (host_id a, host_id b)
                 /\ 0 <= a < k ^ 3 / 4 /\ 0 <= b < k ^ 3 / 4) ->
  ((rate <=? 0)%float = true
   \/ exists n, num_to_fail_of (3 * (k ^ 3 / 4)) rate = Ok n
                /\ 0 <= n <= 3 * (k ^ 3 / 4)) ->
  exists G L s' avg reach,
    build_fat_tree k = Ok G
    /\ model_link_failures rate (at_world G (seed run))
       = (Ok L, at_world (unlink_all G L) s')
    /\ calculate_avg_path_length pairs (at_world (unlink_all G L) s')
       = (Ok (avg, reach), at_world (unlink_all G L) s')
    /\ run_body k rate pairs acc run w
       = (Ok ((fst acc + avg)%float, (snd acc + reach)%float),
          at_world (unlink_all G L) s')
    /\ (0 <=? reach)%float = true /\ (reach <=? 100)%float = true.
Proof.
  intros Hev Hk2 Hk Hhosts Hfit.
  destruct (trial_steps k rate pairs run Hev Hk2 Hk Hhosts Hfit)
    as (G & L & s' & avg & reach & Hb & Hm & Ha & Hlo & Hhi).
  exists G, L, s', avg, reach.
  split; [exact Hb|]. split; [exact Hm|]. split; [exact Ha|].
  split; [|split; assumption].
  exact (run_body_steps k rate pairs acc run w _ _ G L (avg, reach) Hb Hm Ha).
Qed.

(** ** The whole experiment *)

Lemma shl_align_spec (mx : positive) (ex ex' : Z) :
  Zpos (fst (shl_align mx ex ex'))
    = Zpos mx * 2 ^ (ex - snd (shl_align mx ex ex'))
  /\ snd (shl_align mx ex ex') = Z.min ex ex'.
Proof.
  unfold shl_align. destruct (ex' - ex) as [|d|d] eqn:E; cbn [fst snd].
  - rewrite Z.sub_diag. split; lia.
  - rewrite Z.sub_diag. split; lia.
  - change (Pos.iter xO mx d) with (shift_pos d mx).
    rewrite shift_pos_correct. replace (ex - ex') with (Zpos d) by lia.
    change (Z.pow_pos 2 d) with (2 ^ Zpos d). split; lia.
Qed.

(** An integer below [2^1000] converts to a float. *)
Lemma float_of_int_ok (n : Z) :
  0 < n < 2 ^ 1000 -> exists f, float_of_int n = Ok f.
Proof.
  intros Hn. unfold float_of_int, binary_normalize.
  destruct n as [|p|p]; try lia. unfold binary_round.
  change (Z.pos (digits2_pos p)) with (Zdigits2 (Zpos p)).
  pose proof (Zdigits2_bounds (Zpos p) (proj1 Hn)) as [Hlo Hhi].
  pose proof (Zdigits2_pos (Zpos p) (proj1 Hn)) as Hd.
  assert (Hd1000 : Zdigits2 (Zpos p) <= 1000)
    by (apply Zdigits2_lt_pow; lia).
  set (d := Zdigits2 (Zpos p)) in *.
  destruct (shl_align_spec p 0 (fexp prec emax (d + 0))) as [Hm He].
  destruct (shl_align p 0 (fexp prec emax (d + 0))) as [mz ez].
  cbn [fst snd] in Hm, He. rewrite fexp_eq in He.
  assert (Hez : ez <= 0) by lia.
  assert (Hdz : Zdigits2 (Zpos mz) = d - ez).
  { assert (Hp : 0 < 2 ^ (0 - ez)) by (apply pow2_pos; lia).
    apply Z.le_antisymm.
    - apply Zdigits2_lt_pow; [lia|]. rewrite Hm.
      replace (d - ez) with (d + (0 - ez)) by lia.
      rewrite pow2_split by lia. nia.
    - assert (d - ez - 1 + 1 <= Zdigits2 (Zpos mz)); [|lia].
      apply Zdigits2_ge_pow; [lia|]. rewrite Hm.
      replace (d - ez - 1) with ((d - 1) + (0 - ez)) by lia.
      rewrite pow2_split by lia. nia. }
  assert (HT : bounded prec emax 4503599627370496 948 = true).
  { apply bounded_spec. rewrite fexp_eq. cbn [Zdigits2].
    change (Z.pos (digits2_pos 4503599627370496)) with 53. lia. }
  assert (Hbelow : Zpos mz + 1 <= Zpos 4503599627370496 * 2 ^ (948 - ez)).
  { change (Zpos 4503599627370496) with (2 ^ 52).
    rewrite <- pow2_split by lia.
    pose proof (Zdigits2_bounds (Zpos mz) eq_refl) as [_ Hmhi].
    rewrite Hdz in Hmhi.
    assert (2 ^ (d - ez) <= 2 ^ (52 + (948 - ez)))
      by (apply Z.pow_le_mono_r; lia).
    lia. }
  destruct (binary_round_aux_below (Zpos mz) ez loc_Exact
              4503599627370496 948) as (_ & Hle & Hge);
    [lia|rewrite Hdz, fexp_eq; lia|exact HT|lia|exact Hbelow|].
  destruct (binary_round_aux prec emax false (Zpos mz) ez loc_Exact)
    as [s|s| |s m e'].
  - eexists. reflexivity.
  - destruct s; discriminate.
  - eexists. reflexivity.
  - eexists. reflexivity.
Qed.

(** Lines 144-161 for a valid [k]: the pairs are pairs of hosts. *)
Lemma fixed_host_pairs_hosts (k N_SAMPLES : Z) (w : world) :
  Z.even k = true -> 2 <= k -> 0 <= N_SAMPLES ->
  exists pairs w',
    fixed_host_pairs_of k N_SAMPLES w = (Ok pairs, w')
    /\ forall p, In p pairs ->
         exists a b, p = (host_id a, host_id b)
                     /\ 0 <= a < k ^ 3 / 4 /\ 0 <= b < k ^ 3 / 4.
Proof.
  intros Hev Hk2 HN.
  assert (Hpop : forall p,
            In p (all_possible_pairs (host_names (k ^ 3 / 4))) ->
            exists a b, p = (host_id a, host_id b)
                        /\ 0 <= a < k ^ 3 / 4 /\ 0 <= b < k ^ 3 / 4).
  { intros [a b] Hp. apply in_all_possible_pairs in Hp.
    destruct Hp as (i & j & -> & -> & Hi & Hj & _). now exists i, j. }
  rewrite (fixed_host_pairs_valid k N_SAMPLES w Hev Hk2).
  destruct (k ^ 3 / 4 <=? 16).
  - eexists. eexists. split; [reflexivity|exact Hpop].
  - unfold random_sample. cbn [w_G w_random].
    set (pop := all_possible_pairs (host_names (k ^ 3 / 4))) in *.
    assert (Hlen : 0 <= len pop) by (unfold len; lia).
    set (m := Z.min N_SAMPLES (len pop)).
    rewrite (proj2 (Z.ltb_ge m 0)) by (unfold m; lia).
    rewrite (proj2 (Z.ltb_ge (len pop) m)) by (unfold m; lia).
    cbn [orb].
    assert (Hk : (Z.to_nat m <= List.length pop)%nat)
      by (unfold m, len; lia).
    destruct (sample_without_replacement _ pop (Z.to_nat m) (seed 1000) Hk)
      as [rest Hperm].
    destruct (sample pop (Z.to_nat m) (seed 1000)) as [r s'].
    cbn [fst] in Hperm. eexists. eexists. split; [reflexivity|].
    intros p Hp. apply Hpop. apply (Permutation_in _ Hperm).
    apply in_or_app. now left.
Qed.

(** The trials of one rate. *)
Lemma runs_loop_returns (k : Z) (rate : float)
    (pairs : list (string * string)) (runs : list Z) :
  Z.even k = true -> 2 <= k -> k < 2 ^ 300 ->
  (forall p, In p pairs ->
     exists a b, p = (host_id a, host_id b)
                 /\ 0 <= a < k ^ 3 / 4 /\ 0 <= b < k ^ 3 / 4) ->
  ((rate <=? 0)%float = true
   \/ exists n, num_to_fail_of (3 * (k ^ 3 / 4)) rate = Ok n
                /\ 0 <= n <= 3 * (k ^ 3 / 4)) ->
  forall acc w, exists sums w',
    for_eachM runs (run_body k rate pairs) acc w = (Ok sums, w').
Proof.
  intros Hev Hk2 Hk Hhosts Hfit.
  induction runs as [|run runs IH]; intros acc w; cbn [for_eachM].
  - now exists acc, w.
  - destruct (trial_steps k rate pairs run Hev Hk2 Hk Hhosts Hfit)
      as (G & L & s' & avg & reach & Hb & Hm & Ha & _).
    unfold bindM at 1.
    rewrite (run_body_steps k rate pairs acc run w _ _ G L (avg, reach)
               Hb Hm Ha).
    apply IH.
Qed.

Lemma mean_over_runs_ok (sum : float) (N_RUNS : Z) :
  1 <= N_RUNS < 2 ^ 1000 -> exists m, mean_over_runs sum N_RUNS = Ok m.
Proof.
  intros HN. unfold mean_over_runs, float_div_int.
  rewrite (proj2 (Z.leb_gt N_RUNS 0)) by lia.
  rewrite (proj2 (Z.eqb_neq N_RUNS 0)) by lia.
  destruct (float_of_int_ok N_RUNS) as [f ->]; [lia|].
  eexists. reflexivity.
Qed.

(** The rate at which a trial cannot fail on the tree of [k]. *)
Definition rate_fits (k : Z) (rate : float) : Prop :=
  (rate <=? 0)%float = true
  \/ exists n, num_to_fail_of (3 * (k ^ 3 / 4)) rate = Ok n
               /\ 0 <= n <= 3 * (k ^ 3 / 4).

Lemma rates_loop_returns (k N_RUNS : Z) (pairs : list (string * string))
    (rates : list float) :
  Z.even k = true -> 2 <= k -> k < 2 ^ 300 -> 1 <= N_RUNS < 2 ^ 1000 ->
  (forall p, In p pairs ->
     exists a b, p = (host_id a, host_id b)
                 /\ 0 <= a < k ^ 3 / 4 /\ 0 <= b < k ^ 3 / 4) ->
  Forall (rate_fits k) rates ->
  forall res w, exists res' w',
    for_eachM rates (rate_body k N_RUNS pairs) res w = (Ok res', w').
Proof.
  intros Hev Hk2 Hk HN Hhosts Hfit.
  induction Hfit as [|rate rates Hr _ IH]; intros res w; cbn [for_eachM].
  - now exists res, w.
  - unfold bindM at 1. unfold rate_body at 1. unfold bindM at 1.
    destruct (runs_loop_returns k rate pairs (range N_RUNS) Hev Hk2 Hk
                Hhosts Hr (0%float, 0%float) w) as (sums & w1 & ->).
    unfold bindM at 1. unfold lift at 1.
    destruct (mean_over_runs_ok (fst sums) N_RUNS HN) as [m1 ->].
    unfold bindM at 1. unfold lift at 1.
    destruct (mean_over_runs_ok (snd sums) N_RUNS HN) as [m2 ->].
    unfold ret at 1. apply IH.
Qed.

(** X17: the experiment completes. For an even [k] with [2 <= k < 2^300],
    [1 <= N_RUNS < 2^1000], [N_SAMPLES >= 0] and rates each of which is not
    positive or asks for no more links to fail than the tree has,
    [run_experiment_cycle] returns its results, one value of each kind per
    rate: no exception of the builder, the sampling, the failure model, the
    path search or the divisions ends it. *)
Theorem run_experiment_cycle_completes (k : Z) (fail_rates : list float)
    (N_RUNS N_SAMPLES : Z) (w : world) :
  Z.even k = true -> 2 <= k -> k < 2 ^ 300 ->
  1 <= N_RUNS < 2 ^ 1000 -> 0 <= N_SAMPLES ->
  Forall (rate_fits k) fail_rates ->
  exists res w',
    run_experiment_cycle k fail_rates N_RUNS N_SAMPLES w = (Ok res, w')
    /\ fail_rate res = fail_rates
    /\ len (avg_path res) = len fail_rates
    /\ len (reachability res) = len fail_rates.
Proof.
  intros Hev Hk2 Hk HN HS Hfit.
  destruct (fixed_host_pairs_hosts k N_SAMPLES w Hev Hk2 HS)
    as (pairs & w1 & Hp & Hhosts).
  destruct (rates_loop_returns k N_RUNS pairs fail_rates Hev Hk2 Hk HN
              Hhosts Hfit
              {| fail_rate := []; avg_path := []; reachability := [] |} w1)
    as (res & w' & Hloop).
  exists res, w'.
  assert (Hrun : run_experiment_cycle k fail_rates N_RUNS N_SAMPLES w
                 = (Ok res, w')).
  { unfold run_experiment_cycle. unfold bindM at 1. now rewrite Hp. }
  split; [exact Hrun|]. apply rates_loop_shape in Hloop. exact Hloop.
Qed.

(** X18: a negative number of runs is no error. With [N_RUNS < 0], a valid
    [k] and [N_SAMPLES >= 0], [run_experiment_cycle] makes no trial and
    returns, for every rate whatever it is, the average [-0.0] and the
    reachability [-0.0]: the quotient [0 / N_RUNS] of the integer sums. *)
Theorem run_experiment_cycle_negative_runs (k : Z) (fail_rates : list float)
    (N_RUNS N_SAMPLES : Z) (w : world) :
  Z.even k = true -> 2 <= k -> N_RUNS < 0 -> 0 <= N_SAMPLES ->
  exists w',
    run_experiment_cycle k fail_rates N_RUNS N_SAMPLES w
    = (Ok {| fail_rate := fail_rates;
             avg_path := map (fun _ => (-0)%float) fail_rates;
             reachability := map (fun _ => (-0)%float) fail_rates |}, w').
Proof.
  intros Hev Hk2 HN HS.
  destruct (fixed_host_pairs_hosts k N_SAMPLES w Hev Hk2 HS)
    as (pairs & w1 & Hp & _).
  exists w1. unfold run_experiment_cycle. unfold bindM at 1. rewrite Hp.
  assert (Hrange : range N_RUNS = []).
  { unfold range. now replace (Z.to_nat N_RUNS) with 0%nat by lia. }
  assert (Hmean : forall x, mean_over_runs x N_RUNS = Ok (-0)%float).
  { intros x. unfold mean_over_runs, int_truediv.
    rewrite (proj2 (Z.leb_le N_RUNS 0)) by lia.
    rewrite (proj2 (Z.eqb_neq N_RUNS 0)) by lia. cbn [Z.eqb].
    now rewrite (proj2 (Z.ltb_lt N_RUNS 0)) by lia. }
  assert (Hloop : forall rates res,
            for_eachM rates (rate_body k N_RUNS pairs) res w1
            = (Ok {| fail_rate := fail_rate res ++ rates;
                     avg_path := avg_path res
                                 ++ map (fun _ => (-0)%float) rates;
                     reachability := reachability res
                                     ++ map (fun _ => (-0)%float) rates |},
               w1)).
  { induction rates as [|r rates IH]; intros res; cbn [for_eachM map].
    - rewrite !app_nil_r. now destruct res.
    - unfold bindM at 1. unfold rate_body at 1. rewrite Hrange.
      cbn [for_eachM]. unfold bindM, lift, ret. cbn [fst snd].
      rewrite !Hmean. fold (@bindM RS). rewrite IH.
      cbn [fail_rate avg_path reachability]. now rewrite <- !app_assoc. }
  now rewrite Hloop.
Qed.

End Trial.

Lemma run_body_completes_witness :
  exists G L s' avg reach,
    build_fat_tree 2 = Ok G
    /\ @model_link_failures lcg_source 10 (at_world G (seed 0))
       = (Ok L, at_world (unlink_all G L) s')
    /\ @calculate_avg_path_length lcg_source [(host_id 0, host_id 1)]
         (at_world (unlink_all G L) s')
       = (Ok (avg, reach), at_world (unlink_all G L) s')
    /\ @run_body lcg_source 2 10 [(host_id 0, host_id 1)]
         (0%float, 0%float) 0 (at_world empty_graph 0)
       = (Ok ((fst (0%float, 0%float) + avg)%float,
              (snd (0%float, 0%float) + reach)%float),
          at_world (unlink_all G L) s')
    /\ (0 <=? reach)%float = true /\ (reach <=? 100)%float = true.
Proof.
  apply (@run_body_completes lcg_source 2 10 [(host_id 0, host_id 1)]
           (0%float, 0%float) 0 (@at_world lcg_source empty_graph 0)).
  - reflexivity.
  - lia.
  - reflexivity.
  - intros p [<-|[]]. exists 0, 1.
    split; [reflexivity|]. split; split; reflexivity || discriminate.
  - right. exists 1. split; [vm_compute; reflexivity|].
    split; discriminate.
Defined.

Lemma run_experiment_cycle_completes_witness :
  exists res w',
    @run_experiment_cycle lcg_source 2 [0%float; 10%float; 50%float] 2 500
      (at_world empty_graph 0) = (Ok res, w')
    /\ fail_rate res = [0%float; 10%float; 50%float]
    /\ len (avg_path res) = len [0%float; 10%float; 50%float]
    /\ len (reachability res) = len [0%float; 10%float; 50%float].
Proof.
  apply (@run_experiment_cycle_completes lcg_source 2
           [0%float; 10%float; 50%float] 2 500
           (@at_world lcg_source empty_graph 0)).
  - reflexivity.
  - lia.
  - reflexivity.
  - split; [lia|reflexivity].
  - lia.
  - constructor; [left; reflexivity|].
    constructor;
      [right; exists 1; split; [vm_compute; reflexivity|split; discriminate]|].
    constructor;
      [right; exists 3; split; [vm_compute; reflexivity|split; discriminate]|].
    constructor.
Defined.

Lemma run_experiment_cycle_negative_runs_witness :
  exists w',
    @run_experiment_cycle lcg_source 4 [5%float; 250%float] (-3) 500
      (at_world empty_graph 0)
    = (Ok {| fail_rate := [5%float; 250%float];
             avg_path := map (fun _ => (-0)%float) [5%float; 250%float];
             reachability := map (fun _ => (-0)%float) [5%float; 250%float] |},
       w').
Proof.
  apply (@run_experiment_cycle_negative_runs lcg_source 4
           [5%float; 250%float] (-3) 500
           (@at_world lcg_source empty_graph 0));
    [reflexivity|lia|lia|lia].
Defined.

(** ** Pods *)

(** A link with a layer was made by one of the linking operations. *)
Lemma fat_tree_link_layer_op (k : Z) (u v : string) (l : layer) :
  0 <= k -> link_layer (fat_tree k) u v = Some l ->
  tree_op (k / 2) k (AddEdge u v l) \/ tree_op (k / 2) k (AddEdge v u l).
Proof.
  intros Hk. rewrite fat_tree_link_layer by assumption.
  destruct (dict_get (incident u (tree_ops (k / 2) k)) v) as [x|] eqn:E;
    [|discriminate].
  intros ->. apply dict_get_In, in_incident_layer in E.
  now rewrite !tree_ops_in_iff in E.
Qed.

(** X19: pods. In the graph [build_fat_tree k] returns (even [k >= 2]) the
    ['pod'] attribute of a core switch is [-1], that of the switches
    [A_p_i] and [E_p_i] is [p], and that of host [H_h] is [h // (k/2)**2],
    a pod number below [k]: each pod holds [(k/2)**2] consecutive hosts.
    Every link that is not between the aggregation and core layers joins
    two nodes of the same pod. [G.graph['pod_data'][p]] lists, for every pod
    [p], its aggregation switches [A_p_0 ..] and its edge switches
    [E_p_0 ..] in order. *)
Theorem build_fat_tree_pods (k : Z) :
  Z.even k = true -> 2 <= k ->
  exists G d,
    build_fat_tree k = Ok G
    /\ g_pod_data G = Some d
    /\ (forall c, 0 <= c < (k / 2) * (k / 2) ->
          node_pod G (core_id c) = Some (-1))
    /\ (forall p i, 0 <= p < k -> 0 <= i < k / 2 ->
          node_pod G (agg_id p i) = Some p /\ node_pod G (edge_id p i) = Some p)
    /\ (forall h, 0 <= h < k ^ 3 / 4 ->
          node_pod G (host_id h) = Some (h / ((k / 2) * (k / 2)))
          /\ 0 <= h / ((k / 2) * (k / 2)) < k)
    /\ (forall u v l, link_layer G u v = Some l -> l <> agg_core ->
          node_pod G u = node_pod G v)
    /\ (forall p, 0 <= p < k ->
          exists pd, dict_get d p = Some pd
                     /\ pod_agg pd = map (agg_id p) (range (k / 2))
                     /\ pod_edge pd = map (edge_id p) (range (k / 2))).
Proof.
  intros Hev Hk2. assert (Hk : 0 <= k) by lia.
  destruct (build_fat_tree_run k Hev Hk2) as (d & Hb & Hpods).
  exists (built k d), d. split; [exact Hb|]. split; [reflexivity|].
  assert (Hkh1 : 1 <= k / 2) by (apply Z.div_le_lower_bound; lia).
  assert (Hpod : forall n t p a,
            tree_op (k / 2) k (AddNode n (attrs t p a)) ->
            node_pod (built k d) n = Some p).
  { intros n t p a Hop. rewrite built_node_pod. unfold node_pod.
    now rewrite (fat_tree_node k Hk n _ Hop). }
  split; [|split; [|split; [|split]]].
  - intros c Hc. exact (Hpod _ _ _ _ (op_core (k / 2) k c Hc)).
  - intros p i Hp Hi. split.
    + exact (Hpod _ _ _ _ (op_agg (k / 2) k p i Hp Hi)).
    + exact (Hpod _ _ _ _ (op_edge (k / 2) k p i Hp Hi)).
  - intros h Hh. rewrite (total_hosts_eq k Hev) in Hh.
    rewrite <- Z.div_div by lia.
    assert (Hp : 0 <= h / (k / 2) / (k / 2) < k).
    { split; [apply Z.div_pos; [apply Z.div_pos|]; lia|].
      apply Z.div_lt_upper_bound; [lia|].
      apply Z.div_lt_upper_bound; nia. }
    split; [|exact Hp].
    apply (Hpod _ host _
             (Some (edge_id (h / (k / 2) / (k / 2)) (h / (k / 2) mod (k / 2))))).
    rewrite <- (host_no_div (k / 2) h) at 1 by lia.
    apply op_host; [exact Hp| |]; apply Z.mod_pos_bound; lia.
  - intros u v l Hl Hne. rewrite built_link_layer in Hl.
    assert (Hsame : forall a b, tree_op (k / 2) k (AddEdge a b l) ->
              node_pod (built k d) a = node_pod (built k d) b).
    { intros a b Hop.
      inversion Hop as [ | | | |p e j Hp He Hj|p i e Hp Hi He|p i off Hp Hi Ho];
        subst.
      - rewrite (Hpod _ _ _ _ (op_edge (k / 2) k p e Hp He)).
        now rewrite (Hpod _ _ _ _ (op_host (k / 2) k p e j Hp He Hj)).
      - rewrite (Hpod _ _ _ _ (op_agg (k / 2) k p i Hp Hi)).
        now rewrite (Hpod _ _ _ _ (op_edge (k / 2) k p e Hp He)).
      - now contradiction Hne. }
    destruct (fat_tree_link_layer_op k u v l Hk Hl) as [H|H].
    + now apply Hsame.
    + symmetry. now apply Hsame.
  - intros p Hp. destruct (Hpods p Hp) as [h2e E].
    eexists. split; [exact E|]. split; reflexivity.
Qed.

Lemma build_fat_tree_pods_witness :
  exists G d,
    build_fat_tree 4 = Ok G
    /\ g_pod_data G = Some d
    /\ (forall c, 0 <= c < (4 / 2) * (4 / 2) ->
          node_pod G (core_id c) = Some (-1))
    /\ (forall p i, 0 <= p < 4 -> 0 <= i < 4 / 2 ->
          node_pod G (agg_id p i) = Some p /\ node_pod G (edge_id p i) = Some p)
    /\ (forall h, 0 <= h < 4 ^ 3 / 4 ->
          node_pod G (host_id h) = Some (h / ((4 / 2) * (4 / 2)))
          /\ 0 <= h / ((4 / 2) * (4 / 2)) < 4)
    /\ (forall u v l, link_layer G u v = Some l -> l <> agg_core ->
          node_pod G u = node_pod G v)
    /\ (forall p, 0 <= p < 4 ->
          exists pd, dict_get d p = Some pd
                     /\ pod_agg pd = map (agg_id p) (range (4 / 2))
                     /\ pod_edge pd = map (edge_id p) (range (4 / 2))).
Proof.
  apply (build_fat_tree_pods 4); [reflexivity|lia].
Defined.

(** ** Failures and path lengths *)

Lemma tables_agree_unlink_all (L : list (string * string)) (G : Graph) :
  tables_agree G -> tables_agree (unlink_all G L).
Proof.
  revert G. induction L as [|e L IH]; intros G Ht; [exact Ht|].
  cbn [unlink_all fold_left]. apply (IH (unlink G (fst e) (snd e))).
  unfold tables_agree, unlink. cbn [with_tables g_adj g_node].
  now rewrite unlink_adj_keys.
Qed.

(** A walk that survives the failures was a walk before. *)
Lemma walk_unlink_all (G : Graph) (L : list (string * string))
    (a b : string) (n : nat) :
  wf_graph G = true -> walk (unlink_all G L) a b n -> walk G a b n.
Proof.
  intros Hwf. destruct (unlink_all_spec L G Hwf) as (_ & _ & Hedge & _).
  induction 1 as [u|u v w n Huv _ IH]; [constructor|].
  apply (walk_link G u v w n); [|exact IH].
  rewrite Hedge in Huv. now apply andb_true_iff in Huv.
Qed.

Section FailuresAndPaths.
Context {RS : RandomSource}.

(** What a call of [model_link_failures] that returns has done. *)
Lemma model_link_failures_inv (G : Graph) (s : rng) (rate : float)
    (L : list (string * string)) (w' : world) :
  wf_graph G = true ->
  model_link_failures rate (at_world G s) = (Ok L, w') ->
  w_G w' = unlink_all G L.
Proof.
  intros Hwf Hrun.
  assert (Hfit : (rate <=? 0)%float = true
                 \/ exists n, num_to_fail_of (len (edges G)) rate = Ok n
                              /\ 0 <= n <= len (edges G)).
  { destruct (rate <=? 0)%float eqn:Hr; [now left|right].
    destruct (num_to_fail_of (len (edges G)) rate) as [n|e] eqn:Hn.
    - exists n. split; [reflexivity|].
      rewrite (model_link_failures_unfold G s rate n Hr Hn) in Hrun.
      unfold bindM at 1 in Hrun. unfold random_sample in Hrun.
      destruct ((n <? 0) || (len (edges G) <? n)) eqn:E; [discriminate|].
      apply orb_false_iff in E. destruct E as [E1 E2].
      apply Z.ltb_ge in E1, E2. lia.
    - unfold model_link_failures in Hrun. rewrite Hr in Hrun.
      unfold bindM at 1 in Hrun. unfold gets at 1 in Hrun.
      cbn [at_world w_G] in Hrun.
      unfold bindM at 1 in Hrun. unfold lift at 1 in Hrun.
      rewrite Hn in Hrun. discriminate. }
  destruct (model_link_failures_runs G s rate Hwf Hfit) as (L0 & s0 & E & _).
  rewrite E in Hrun. injection Hrun as <- <-. reflexivity.
Qed.

(** X20: failures only lengthen paths. When [model_link_failures] returns
    on a graph, then in the graph it leaves, for any two nodes: a path
    length [nx.shortest_path_length] reports is at least the one it
    reported before the call; two nodes that were not connected before
    are not connected after. So of any list of pairs no more are connected
    after the call than before. *)
Theorem model_link_failures_lengthens (G : Graph) (s : rng) (rate : float)
    (L : list (string * string)) (w' : world) :
  wf_graph G = true -> tables_agree G ->
  model_link_failures rate (at_world G s) = (Ok L, w') ->
  (forall a b d',
     shortest_path_length (w_G w') a b = Ok d' ->
     exists d, shortest_path_length G a b = Ok d /\ 0 <= d <= d')
  /\ (forall a b,
        shortest_path_length G a b = Raise NetworkXNoPath ->
        shortest_path_length (w_G w') a b = Raise NetworkXNoPath)
  /\ (forall pairs,
        len (reachable_lengths (w_G w') pairs)
        <= len (reachable_lengths G pairs)).
Proof.
  intros Hwf Ht Hrun.
  rewrite (model_link_failures_inv G s rate L w' Hwf Hrun).
  destruct (unlink_all_spec L G Hwf) as (Hwf' & Hnodes & _).
  pose proof (tables_agree_unlink_all L G Ht) as Ht'.
  set (G' := unlink_all G L) in *.
  assert (Hnode : forall x, has_node G' x = has_node G x).
  { intros x. unfold has_node. now rewrite Hnodes. }
  assert (Hlonger : forall a b d',
            shortest_path_length G' a b = Ok d' ->
            exists d, shortest_path_length G a b = Ok d /\ 0 <= d <= d').
  { intros a b d' E'.
    assert (Ha : has_node G' a = true /\ has_node G' b = true).
    { unfold shortest_path_length in E'.
      destruct (has_node G' a), (has_node G' b); try discriminate.
      now split. }
    destruct Ha as [Ha Hb].
    destruct (shortest_path_length_distance G' a b Hwf' Ht' Ha Hb)
      as [(n' & En' & Hw' & _)|[En' _]]; [|congruence].
    rewrite Hnode in Ha, Hb.
    destruct (shortest_path_length_distance G a b Hwf Ht Ha Hb)
      as [(n & En & _ & Hmin)|[_ Hno]].
    - exists (Z.of_nat n). split; [exact En|].
      apply (walk_unlink_all G L a b n' Hwf), Hmin in Hw'.
      assert (d' = Z.of_nat n') by congruence. lia.
    - exfalso. exact (Hno n' (walk_unlink_all G L a b n' Hwf Hw')). }
  split; [exact Hlonger|]. split.
  - intros a b E.
    assert (Ha : has_node G a = true /\ has_node G b = true).
    { unfold shortest_path_length in E.
      destruct (has_node G a), (has_node G b); try discriminate.
      now split. }
    destruct Ha as [Ha Hb]. rewrite <- Hnode in Ha, Hb.
    destruct (shortest_path_length_distance G' a b Hwf' Ht' Ha Hb)
      as [(n' & En' & _)|[En' _]]; [|exact En'].
    destruct (Hlonger a b _ En') as (d & Ed & _). congruence.
  - intros pairs. induction pairs as [|p pairs IH]; [reflexivity|].
    cbn [reachable_lengths flat_map].
    fold (reachable_lengths G' pairs). fold (reachable_lengths G pairs).
    rewrite !len_app.
    destruct (shortest_path_length G' (fst p) (snd p)) as [d'|e] eqn:E'.
    + destruct (Hlonger _ _ _ E') as (d & -> & _).
      unfold len in *. cbn [List.length]. lia.
    + assert (0 <= len (match shortest_path_length G (fst p) (snd p) with
                        | Ok d => [d] | Raise _ => [] end))
        by (unfold len; lia).
      change (len (@nil Z)) with 0. lia.
Qed.

End FailuresAndPaths.

(** The links a rate of 50 percent fails in the fat tree for [k = 2], from
    generator state 0. *)
Definition failed_links_2 : list (string * string) :=
  Eval vm_compute in
    match fst (@model_link_failures lcg_source 50 (at_world G2 0)) with
    | Ok L => L
    | Raise _ => []
    end.

Lemma failure_run_2 :
  @model_link_failures lcg_source 50 (at_world G2 0)
  = (Ok failed_links_2,
     snd (@model_link_failures lcg_source 50 (at_world G2 0))).
Proof.
  transitivity
    (fst (@model_link_failures lcg_source 50 (at_world G2 0)),
     snd (@model_link_failures lcg_source 50 (at_world G2 0)));
    [apply surjective_pairing|].
  f_equal; vm_compute; reflexivity.
Qed.

Lemma model_link_failures_lengthens_witness :
  (forall a b d',
     shortest_path_length
       (w_G (snd (@model_link_failures lcg_source 50 (@at_world lcg_source G2 0)))) a b
     = Ok d' ->
     exists d, shortest_path_length G2 a b = Ok d /\ 0 <= d <= d')
  /\ (forall a b,
        shortest_path_length G2 a b = Raise NetworkXNoPath ->
        shortest_path_length
          (w_G (snd (@model_link_failures lcg_source 50 (@at_world lcg_source G2 0)))) a b
        = Raise NetworkXNoPath)
  /\ (forall pairs,
        len (reachable_lengths
               (w_G (snd (@model_link_failures lcg_source 50 (@at_world lcg_source G2 0))))
               pairs)
        <= len (reachable_lengths G2 pairs)).
Proof.
  apply (@model_link_failures_lengthens lcg_source G2 0 50 failed_links_2
           (snd (@model_link_failures lcg_source 50 (@at_world lcg_source G2 0)))).
  - vm_compute. reflexivity.
  - vm_compute. reflexivity.
  - exact failure_run_2.
Defined.

(** ** The number of links to fail *)

(** Shifting out zeros is exact. *)
Lemma shr_1_even (m : Z) :
  0 <= m ->
  shr_1 {| shr_m := 2 * m; shr_r := false; shr_s := false |}
  = {| shr_m := m; shr_r := false; shr_s := false |}.
Proof. intros Hm. destruct m as [|p|p]; try lia; reflexivity. Qed.

Lemma iter_shr_1_exact (p : positive) :
  forall m, 0 <= m ->
    iter_pos shr_1 p
      {| shr_m := m * 2 ^ Zpos p; shr_r := false; shr_s := false |}
    = {| shr_m := m; shr_r := false; shr_s := false |}.
Proof.
  induction p as [p IH|p IH|]; intros m Hm; cbn [iter_pos].
  - assert (Hp : 0 < 2 ^ Zpos p) by (apply pow2_pos; lia).
    replace (m * 2 ^ Zpos p~1) with (2 * (m * 2 ^ Zpos p * 2 ^ Zpos p)).
    + rewrite shr_1_even by nia. rewrite IH by nia. now apply IH.
    + rewrite (Pos2Z.inj_xI p).
      replace (2 * Z.pos p + 1) with (1 + Z.pos p + Z.pos p) by lia.
      rewrite !Z.pow_add_r by lia. change (2 ^ 1) with 2. ring.
  - assert (Hp : 0 < 2 ^ Zpos p) by (apply pow2_pos; lia).
    replace (m * 2 ^ Zpos p~0) with (m * 2 ^ Zpos p * 2 ^ Zpos p).
    + rewrite IH by nia. now apply IH.
    + rewrite (Pos2Z.inj_xO p).
      replace (2 * Z.pos p) with (Z.pos p + Z.pos p) by lia.
      rewrite Z.pow_add_r by lia. ring.
  - change (2 ^ 1) with 2. rewrite Z.mul_comm. now apply shr_1_even.
Qed.

Lemma Zdigits2_mul_pow2 (m n : Z) :
  0 < m -> 0 <= n -> Zdigits2 (m * 2 ^ n) = Zdigits2 m + n.
Proof.
  intros Hm Hn. pose proof (Zdigits2_bounds m Hm) as [Hlo Hhi].
  pose proof (Zdigits2_pos m Hm) as Hd.
  assert (Hp : 0 < 2 ^ n) by (apply pow2_pos; lia).
  apply Zdigits2_unique; [nia|].
  replace (Zdigits2 m + n - 1) with (Zdigits2 m - 1 + n) by lia.
  rewrite !pow2_split by lia. split; nia.
Qed.

(** A representable number, written with [n] more binary digits, rounds to
    itself. *)
Lemma binary_round_aux_exact (m : positive) (e n : Z) :
  bounded prec emax m e = true -> 0 <= n ->
  binary_round_aux prec emax false (Zpos m * 2 ^ n) (e - n) loc_Exact
  = S754_finite false m e.
Proof.
  intros Hb Hn. apply bounded_spec in Hb. destruct Hb as [Hc He].
  unfold binary_round_aux, shr_fexp.
  rewrite Zdigits2_mul_pow2 by lia.
  replace (Zdigits2 (Zpos m) + n + (e - n)) with (Zdigits2 (Zpos m) + e) by lia.
  rewrite Hc. replace (e - (e - n)) with n by lia.
  assert (Hshr : shr (shr_record_of_loc (Zpos m * 2 ^ n) loc_Exact) (e - n) n
                 = ({| shr_m := Zpos m; shr_r := false; shr_s := false |}, e)).
  { unfold shr. cbn [shr_record_of_loc]. destruct n as [|p|p]; try lia.
    - change (2 ^ 0) with 1. rewrite Z.mul_1_r, Z.sub_0_r. reflexivity.
    - rewrite iter_shr_1_exact by lia. f_equal. lia. }
  rewrite Hshr. cbn [shr_m loc_of_shr_record round_nearest_even].
  rewrite Hc, Z.sub_diag. cbn [shr shr_record_of_loc shr_m].
  rewrite (proj2 (Z.leb_le e (emax - prec)))
    by (change (emax - prec) with 971; lia).
  reflexivity.
Qed.

(** An integer below [2^53] converts to a float without rounding. *)
Lemma float_of_int_exact (n : Z) :
  0 < n < 2 ^ 53 ->
  exists m e,
    float_of_int n = Ok (SF2Prim (S754_finite false m e))
    /\ bounded prec emax m e = true
    /\ e <= 0 /\ Zpos m = n * 2 ^ (- e) /\ 2 ^ 52 <= Zpos m.
Proof.
  intros Hn. unfold float_of_int, binary_normalize.
  destruct n as [|p|p]; try lia. unfold binary_round.
  change (Z.pos (digits2_pos p)) with (Zdigits2 (Zpos p)).
  pose proof (Zdigits2_bounds (Zpos p) (proj1 Hn)) as [Hlo Hhi].
  pose proof (Zdigits2_pos (Zpos p) (proj1 Hn)) as Hd.
  assert (Hd53 : Zdigits2 (Zpos p) <= 53) by (apply Zdigits2_lt_pow; lia).
  set (d := Zdigits2 (Zpos p)) in *.
  destruct (shl_align_spec p 0 (fexp prec emax (d + 0))) as [Hm He].
  destruct (shl_align p 0 (fexp prec emax (d + 0))) as [mz ez].
  cbn [fst snd] in Hm, He. rewrite fexp_eq in He.
  assert (Hez : ez = d - 53) by lia.
  assert (Hdz : Zdigits2 (Zpos mz) = 53).
  { rewrite Hm, Zdigits2_mul_pow2 by lia. fold d. lia. }
  assert (Hb : bounded prec emax mz ez = true).
  { apply bounded_spec. rewrite Hdz, fexp_eq. lia. }
  pose proof (binary_round_aux_exact mz ez 0 Hb (Z.le_refl 0)) as E.
  rewrite Z.sub_0_r in E. change (2 ^ 0) with 1 in E.
  rewrite Z.mul_1_r in E. rewrite E.
  exists mz, ez. split; [reflexivity|]. split; [exact Hb|].
  split; [lia|]. split.
  - rewrite Hm. replace (0 - ez) with (- ez) by lia. reflexivity.
  - pose proof (Zdigits2_bounds (Zpos mz) eq_refl) as [Hlo' _].
    now rewrite Hdz in Hlo'.
Qed.

(** The order of two positive floats. *)
Lemma leb_cases (m : positive) (e : Z) (T : positive) (eT : Z) :
  SFleb (S754_finite false m e) (S754_finite false T eT) = true ->
  e < eT \/ (e = eT /\ Zpos m <= Zpos T).
Proof.
  unfold SFleb, SFcompare.
  destruct (Z.compare_spec e eT) as [E|E|E].
  - change (Pos.compare_cont Eq m T) with (Pos.compare m T).
    destruct (Pos.compare_spec m T) as [Hm|Hm|Hm]; try discriminate;
      intros _; right; split; try assumption; lia.
  - intros _. now left.
  - discriminate.
Qed.

Lemma SFdiv_core_binary_eq (m1 e1 m2 e2 : Z) :
  0 < m1 -> 0 < m2 ->
  let e' := Z.min (fexp prec emax (Zdigits2 m1 + e1 - (Zdigits2 m2 + e2)))
              (e1 - e2) in
  SFdiv_core_binary prec emax m1 e1 m2 e2
  = (m1 * 2 ^ (e1 - e2 - e') / m2, e',
     new_location m2 (m1 * 2 ^ (e1 - e2 - e') mod m2)).
Proof.
  intros H1 H2 e'. unfold SFdiv_core_binary. fold e'.
  assert (He : 0 <= e1 - e2 - e') by (unfold e'; lia).
  assert (Hm : match e1 - e2 - e' with
               | 0 => m1
               | Z.pos _ => Z.shiftl m1 (e1 - e2 - e')
               | Z.neg _ => 0
               end = m1 * 2 ^ (e1 - e2 - e')).
  { destruct (e1 - e2 - e') as [|p|p] eqn:E; try lia.
    rewrite Z.shiftl_mul_pow2 by lia. reflexivity. }
  rewrite Hm, div_eucl_div_mod. reflexivity.
Qed.

(** A positive float divided by a larger normal one gives at most one. *)
Lemma div_below_one (m : positive) (e : Z) (M : positive) (eM : Z) :
  bounded prec emax m e = true -> bounded prec emax M eM = true ->
  2 ^ 52 <= Zpos M ->
  e < eM \/ (e = eM /\ Zpos m < Zpos M) ->
  valid_binary (SFdiv prec emax (S754_finite false m e)
                  (S754_finite false M eM)) = true
  /\ SFleb (SFdiv prec emax (S754_finite false m e) (S754_finite false M eM))
       (S754_finite false 4503599627370496 (-52)) = true
  /\ SFleb (S754_zero false)
       (SFdiv prec emax (S754_finite false m e) (S754_finite false M eM))
     = true.
Proof.
  intros Hb HbM HM Hlt. unfold SFdiv. cbn [xorb].
  apply bounded_spec in Hb, HbM. destruct Hb as [Hc He], HbM as [HcM HeM].
  rewrite fexp_eq in Hc, HcM.
  pose proof (Zdigits2_bounds (Zpos m) eq_refl) as [Hlo Hhi].
  pose proof (Zdigits2_bounds (Zpos M) eq_refl) as [HloM HhiM].
  pose proof (Zdigits2_pos (Zpos m) eq_refl) as Hd1.
  assert (HdM : Zdigits2 (Zpos M) = 53).
  { assert (53 <= Zdigits2 (Zpos M)) by (apply (Zdigits2_ge_pow _ 52); lia).
    lia. }
  assert (Hd : Zdigits2 (Zpos m) <= 53) by lia.
  assert (HM53 : Zpos M < 2 ^ 53) by (now rewrite HdM in HhiM).
  assert (Hm53 : Zpos m < 2 ^ 53).
  { apply Z.lt_le_trans with (1 := Hhi). apply Z.pow_le_mono_r; lia. }
  pose proof (SFdiv_core_binary_eq (Zpos m) e (Zpos M) eM eq_refl eq_refl)
    as El. cbv zeta in El. rewrite El. clear El.
  generalize (new_location (Zpos M)
                (Zpos m * 2 ^ (e - eM
                   - Z.min (fexp prec emax (Zdigits2 (Zpos m) + e
                                             - (Zdigits2 (Zpos M) + eM)))
                       (e - eM)) mod Zpos M)).
  intros l. rewrite HdM, fexp_eq.
  set (d1 := Zdigits2 (Zpos m)) in *.
  remember (Z.min (Z.max (d1 + e - (53 + eM) - 53) (-1074)) (e - eM))
    as e' eqn:Ee.
  remember (Zpos m * 2 ^ (e - eM - e') / Zpos M) as q eqn:Eq.
  assert (Hs : 0 <= e - eM - e') by lia.
  assert (Hps : 0 < 2 ^ (e - eM - e')) by (apply pow2_pos; lia).
  assert (Hq0 : 0 <= q) by (subst q; apply Z.div_pos; nia).
  assert (He52 : e' <= -52) by lia.
  assert (Hcanon : e' <= fexp prec emax (Zdigits2 q + e')).
  { rewrite fexp_eq.
    destruct (Z.le_gt_cases e' (-1074)) as [Hsmall|Hbig]; [lia|].
    assert (Es : e - eM - e' = 106 - d1) by lia.
    assert (Hqlo : 2 ^ 52 <= q).
    { subst q. apply Z.div_le_lower_bound; [lia|]. rewrite Es.
      apply Z.le_trans with (2 ^ 53 * 2 ^ 52); [nia|].
      apply Z.le_trans with (2 ^ (d1 - 1) * 2 ^ (106 - d1)).
      - rewrite <- !pow2_split by lia. apply Z.pow_le_mono_r; lia.
      - assert (0 < 2 ^ (106 - d1)) by (apply pow2_pos; lia). nia. }
    pose proof (Zdigits2_ge_pow q 52 ltac:(lia) Hqlo). lia. }
  assert (Hmlt : Zpos m < Zpos M * 2 ^ (eM - e)).
  { destruct Hlt as [Hlt|[-> Hlt]].
    - assert (2 ^ 1 <= 2 ^ (eM - e)) by (apply Z.pow_le_mono_r; lia).
      change (2 ^ 1) with 2 in *. change (2 ^ 53) with (2 ^ 52 * 2) in Hm53.
      nia.
    - rewrite Z.sub_diag. change (2 ^ 0) with 1. lia. }
  assert (Hbelow : q + 1 <= Zpos 4503599627370496 * 2 ^ (-52 - e')).
  { change (Zpos 4503599627370496) with (2 ^ 52).
    rewrite <- pow2_split by lia.
    replace (52 + (-52 - e')) with ((eM - e) + (e - eM - e')) by lia.
    rewrite pow2_split by lia.
    assert (q < 2 ^ (eM - e) * 2 ^ (e - eM - e')); [|lia].
    subst q. apply Z.div_lt_upper_bound; [lia|]. nia. }
  assert (HT : bounded prec emax 4503599627370496 (-52) = true)
    by reflexivity.
  exact (binary_round_aux_below q e' l 4503599627370496 (-52)
           Hq0 Hcanon HT He52 Hbelow).
Qed.

(** A normal positive float times a positive float below one is not above
    the first. *)
Lemma mul_below (mt : positive) (et : Z) (m : positive) (e : Z) :
  bounded prec emax mt et = true -> 2 ^ 52 <= Zpos mt ->
  bounded prec emax m e = true -> e < -52 ->
  valid_binary (SFmul prec emax (S754_finite false mt et)
                  (S754_finite false m e)) = true
  /\ SFleb (SFmul prec emax (S754_finite false mt et) (S754_finite false m e))
       (S754_finite false mt et) = true
  /\ SFleb (S754_zero false)
       (SFmul prec emax (S754_finite false mt et) (S754_finite false m e))
     = true.
Proof.
  intros Hbt Ht Hb E. pose proof Hbt as HT.
  apply bounded_spec in Hb. destruct Hb as [Hc _]. rewrite fexp_eq in Hc.
  pose proof (Zdigits2_bounds (Zpos m) eq_refl) as [Hlo Hhi].
  pose proof (Zdigits2_pos (Zpos m) eq_refl) as Hdm.
  unfold SFmul. cbn [xorb].
  assert (Hd : Zdigits2 (Zpos m) <= 53) by lia.
  assert (Hm : Zpos m < 2 ^ 53).
  { apply Z.lt_le_trans with (1 := Hhi). apply Z.pow_le_mono_r; lia. }
  assert (Hme : Zpos m + 1 <= 2 ^ (- e)).
  { assert (2 ^ 53 <= 2 ^ (- e)) by (apply Z.pow_le_mono_r; lia). lia. }
  assert (Hq0 : 0 <= Zpos (mt * m)) by lia.
  assert (Hcanon : et + e <= fexp prec emax (Zdigits2 (Zpos (mt * m)) + (et + e))).
  { rewrite fexp_eq.
    assert (Hp : 2 ^ (52 + (Zdigits2 (Zpos m) - 1)) <= Zpos (mt * m)).
    { rewrite pow2_split by lia. rewrite Pos2Z.inj_mul. nia. }
    assert (Hge : 0 <= 52 + (Zdigits2 (Zpos m) - 1)) by lia.
    pose proof (Zdigits2_ge_pow _ _ Hge Hp). lia. }
  assert (HeT : et + e <= et) by lia.
  assert (Hbelow : Zpos (mt * m) + 1 <= Zpos mt * 2 ^ (et - (et + e))).
  { replace (et - (et + e)) with (- e) by lia. rewrite Pos2Z.inj_mul. nia. }
  exact (binary_round_aux_below _ _ loc_Exact _ _ Hq0 Hcanon HT HeT Hbelow).
Qed.

Lemma mul_one (mt : positive) (et : Z) :
  bounded prec emax mt et = true ->
  SFmul prec emax (S754_finite false mt et)
    (S754_finite false 4503599627370496 (-52))
  = S754_finite false mt et.
Proof.
  intros Hb. unfold SFmul. cbn [xorb]. rewrite Pos2Z.inj_mul.
  change (Zpos 4503599627370496) with (2 ^ 52).
  change (et + -52) with (et - 52).
  apply binary_round_aux_exact; [exact Hb|lia].
Qed.

(** [math.ceil] of a float between zero and an integer-valued float. *)
Lemma math_ceil_below (x : float) (m : positive) (e : Z)
    (mt : positive) (et total : Z) :
  Prim2SF x = S754_finite false m e ->
  bounded prec emax m e = true ->
  2 ^ 52 <= Zpos mt -> et <= 0 -> Zpos mt = total * 2 ^ (- et) ->
  e < et \/ (e = et /\ Zpos m <= Zpos mt) ->
  exists n, math_ceil x = Ok n /\ 0 <= n <= total.
Proof.
  intros Hx Hb Hmt Het Htot Hle. unfold math_ceil. rewrite Hx.
  eexists. split; [reflexivity|].
  apply bounded_spec in Hb. destruct Hb as [Hc _]. rewrite fexp_eq in Hc.
  pose proof (Zdigits2_bounds (Zpos m) eq_refl) as [_ Hhi].
  assert (Hm53 : Zpos m < 2 ^ 53).
  { apply Z.lt_le_trans with (1 := Hhi). apply Z.pow_le_mono_r; lia. }
  assert (Hpt : 0 < 2 ^ (- et)) by (apply pow2_pos; lia).
  assert (Htot0 : 0 < total) by nia.
  destruct (Z.leb_spec 0 e) as [He|He].
  - assert (e = 0) by lia. assert (et = 0) by lia. subst e et.
    change (2 ^ 0) with 1. change (2 ^ (- 0)) with 1 in Htot. lia.
  - assert (Hpe : 0 < 2 ^ (- e)) by (apply pow2_pos; lia).
    assert (Hval : Zpos m <= total * 2 ^ (- e)).
    { destruct Hle as [Hlt|[-> Hle]]; [|lia].
      replace (- e) with ((- et) + (et - e)) by lia.
      rewrite pow2_split by lia.
      assert (2 ^ 1 <= 2 ^ (et - e)) by (apply Z.pow_le_mono_r; lia).
      change (2 ^ 1) with 2 in *. change (2 ^ 53) with (2 ^ 52 * 2) in Hm53.
      nia. }
    split.
    + assert (- Zpos m / 2 ^ (- e) <= 0); [|lia].
      apply Z.div_le_upper_bound; lia.
    + assert (- total <= - Zpos m / 2 ^ (- e)); [|lia].
      apply Z.div_le_lower_bound; [lia|]. nia.
Qed.

(** A rate the test at line 94 lets through, and not above 100. *)
Lemma rate_positive (rate : float) :
  (rate <=? 0)%float = false -> (rate <=? 100)%float = true ->
  exists m e, Prim2SF rate = S754_finite false m e
    /\ bounded prec emax m e = true
    /\ (e < -46 \/ (e = -46 /\ Zpos m <= Zpos 7036874417766400)).
Proof.
  rewrite !leb_spec, Prim2SF_0, Prim2SF_100.
  pose proof (Prim2SF_valid rate) as Hv.
  destruct (Prim2SF rate) as [s|s| |s m e]; intros H0 H1.
  - discriminate H0.
  - destruct s; [discriminate H0|discriminate H1].
  - discriminate H1.
  - destruct s; [discriminate H0|].
    exists m, e. split; [reflexivity|]. split; [exact Hv|].
    now apply leb_cases.
Qed.

Lemma pos_le_neq (a b : positive) :
  Zpos a <= Zpos b -> a <> b -> Zpos a < Zpos b.
Proof. intros H Hne. assert (Zpos a <> Zpos b) by congruence. lia. Qed.

(** [rate / 100] for such a rate lies between zero and one. *)
Lemma rate_over_100 (m : positive) (e : Z) :
  bounded prec emax m e = true ->
  e < -46 \/ (e = -46 /\ Zpos m <= Zpos 7036874417766400) ->
  valid_binary (SFdiv prec emax (S754_finite false m e)
                  (S754_finite false 7036874417766400 (-46))) = true
  /\ SFleb (SFdiv prec emax (S754_finite false m e)
              (S754_finite false 7036874417766400 (-46)))
       (S754_finite false 4503599627370496 (-52)) = true
  /\ SFleb (S754_zero false)
       (SFdiv prec emax (S754_finite false m e)
          (S754_finite false 7036874417766400 (-46))) = true.
Proof.
  intros Hb Hle.
  assert (H100 : bounded prec emax 7036874417766400 (-46) = true)
    by reflexivity.
  assert (Hn100 : 2 ^ 52 <= Zpos 7036874417766400)
    by (apply Z.leb_le; reflexivity).
  destruct Hle as [Hlt|[-> Hle]].
  - apply div_below_one; auto.
  - destruct (Pos.eq_dec m 7036874417766400) as [->|Hne].
    + repeat split; vm_compute; reflexivity.
    + apply div_below_one; auto. right. split; [reflexivity|].
      now apply pos_le_neq.
Qed.

(** The number of links to fail, for a rate the test lets through that is
    not above 100 and fewer than [2^53] links: an integer between zero and
    the number of links. *)
Lemma num_to_fail_fits (total : Z) (rate : float) :
  0 <= total < 2 ^ 53 ->
  (rate <=? 0)%float = false -> (rate <=? 100)%float = true ->
  exists n, num_to_fail_of total rate = Ok n /\ 0 <= n <= total.
Proof.
  intros Htot H0 H100.
  destruct (rate_positive rate H0 H100) as (m & e & Er & Hb & Hle).
  destruct (rate_over_100 m e Hb Hle) as (Hqv & Hq1 & Hq0).
  unfold num_to_fail_of.
  assert (Hq : Prim2SF (rate / 100)
               = SFdiv prec emax (S754_finite false m e)
                   (S754_finite false 7036874417766400 (-46))).
  { now rewrite div_spec, Er, Prim2SF_100. }
  remember (SFdiv prec emax (S754_finite false m e)
              (S754_finite false 7036874417766400 (-46))) as Q eqn:EQ.
  clear EQ.
  assert (Hzero : forall t s, Prim2SF t = S754_zero s ->
            exists n, math_ceil t = Ok n /\ 0 <= n <= total).
  { intros t s Ht. exists 0. unfold math_ceil. rewrite Ht. split; [reflexivity|lia]. }
  destruct (Z.eq_dec total 0) as [->|Hne].
  - (* no links *)
    change (float_of_int 0) with (Ok 0%float). cbn [bind].
    destruct Q as [s|s| |s mq eq].
    + apply (Hzero _ (xorb false s)).
      now rewrite mul_spec, Hq.
    + destruct s; [discriminate Hq0|discriminate Hq1].
    + discriminate Hq1.
    + apply (Hzero _ (xorb false s)).
      now rewrite mul_spec, Hq.
  - destruct (float_of_int_exact total) as (mt & et & Et & Hbt & Het & Hval & Hn);
      [lia|].
    rewrite Et. cbn [bind].
    assert (Ht : Prim2SF (SF2Prim (S754_finite false mt et))
                 = S754_finite false mt et)
      by (now apply Prim2SF_SF2Prim).
    assert (Hx : Prim2SF (SF2Prim (S754_finite false mt et) * (rate / 100))
                 = SFmul prec emax (S754_finite false mt et) Q)
      by (now rewrite mul_spec, Ht, Hq).
    destruct Q as [s|s| |s mq eq].
    + apply (Hzero _ (xorb false s)). now rewrite Hx.
    + destruct s; [discriminate Hq0|discriminate Hq1].
    + discriminate Hq1.
    + destruct s; [discriminate Hq0|].
      destruct (leb_one_cases mq eq Hqv Hq1) as [[-> ->]|Hlt].
      * rewrite mul_one in Hx by assumption.
        apply (math_ceil_below _ mt et mt et total Hx Hbt Hn Het Hval).
        right. split; [reflexivity|lia].
      * destruct (mul_below mt et mq eq Hbt Hn Hqv Hlt) as (Hv & Hle1 & Hge).
        destruct (SFmul prec emax (S754_finite false mt et)
                    (S754_finite false mq eq)) as [s|s| |s mx ex].
        -- now apply (Hzero _ s).
        -- destruct s; [discriminate Hge|discriminate Hle1].
        -- discriminate Hle1.
        -- destruct s; [discriminate Hge|].
           apply (math_ceil_below _ mx ex mt et total Hx Hv Hn Het Hval).
           now apply leb_cases.
Qed.

Lemma fat_tree_links_small (k : Z) :
  2 <= k -> k < 2 ^ 17 -> 0 <= 3 * (k ^ 3 / 4) < 2 ^ 53 /\ k < 2 ^ 300.
Proof.
  intros Hk2 Hk.
  assert (HB : 3 * (2 ^ 17 * 2 ^ 17 * 2 ^ 17) <= 2 ^ 53)
    by (apply Z.leb_le; vm_compute; reflexivity).
  assert (HC : 2 ^ 17 <= 2 ^ 300) by (apply Z.pow_le_mono_r; lia).
  remember (2 ^ 17) as B eqn:EB. remember (2 ^ 53) as C eqn:EC.
  remember (2 ^ 300) as D eqn:ED. clear EB EC ED.
  replace (k ^ 3) with (k * k * k) by ring.
  assert (H2 : k * k < B * B) by nia.
  assert (H3 : k * k * k < B * B * B) by nia.
  assert (H4 : 0 <= k * k * k / 4 <= k * k * k).
  { split; [apply Z.div_pos; nia|apply Z.div_le_upper_bound; nia]. }
  split; [|lia]. split; lia.
Qed.

Section UpTo100.
Context {RS : RandomSource}.

(** X21: rates up to 100 are safe. On a well-formed graph with fewer than
    [2^53] links and for every rate that is not above 100 (zero and
    negative rates included, NaN not), [model_link_failures] returns: the
    number of links to fail it computes is at most the number of links, so
    [random.sample] does not raise. The list it returns names links of the
    graph, none twice; the nodes are left as they are and the graph has
    that many links fewer. *)
Theorem model_link_failures_up_to_100 (G : Graph) (s : rng) (rate : float) :
  wf_graph G = true -> len (edges G) < 2 ^ 53 ->
  (rate <=? 100)%float = true ->
  exists L w',
    model_link_failures rate (at_world G s) = (Ok L, w')
    /\ NoDup L /\ incl L (edges G)
    /\ g_node (w_G w') = g_node G
    /\ len (edges (w_G w')) = len (edges G) - len L.
Proof.
  intros Hwf Hsmall H100.
  assert (Hlen0 : 0 <= len (edges G)) by (unfold len; lia).
  destruct (rate <=? 0)%float eqn:Hr.
  - exists [], (at_world G s). split.
    + unfold model_link_failures. now rewrite Hr.
    + split; [constructor|]. split; [intros e []|]. split; [reflexivity|].
      cbn [at_world w_G]. change (len (@nil (string * string))) with 0. lia.
  - destruct (num_to_fail_fits (len (edges G)) rate) as (n & Hn & Hrange);
      [lia|assumption|assumption|].
    assert (Hk : (Z.to_nat n <= List.length (edges G))%nat)
      by (unfold len in Hrange; lia).
    destruct (sample_edges G (Z.to_nat n) s Hwf Hk _ eq_refl)
      as (Hlen & Hnd & Hincl & Hdist & Hleft).
    destruct (unlink_all_spec (fst (sample (edges G) (Z.to_nat n) s)) G Hwf)
      as (_ & Hnodes & _ & Hedges).
    exists (fst (sample (edges G) (Z.to_nat n) s)),
           (at_world (unlink_all G (fst (sample (edges G) (Z.to_nat n) s)))
              (snd (sample (edges G) (Z.to_nat n) s))).
    split; [|split; [exact Hnd|split; [exact Hincl|split; [exact Hnodes|]]]].
    + rewrite (model_link_failures_unfold G s rate n Hr Hn).
      unfold bindM at 1. unfold random_sample.
      assert (E : (n <? 0) || (len (edges G) <? n) = false).
      { apply orb_false_iff. split; apply Z.ltb_ge; lia. }
      rewrite E. cbn [at_world w_G w_random].
      destruct (sample (edges G) (Z.to_nat n) s) as [L s'].
      cbn [fst snd] in *. unfold bindM.
      rewrite removal_loop; auto.
      intros [u v] He. cbn [fst snd].
      exact (proj1 (edges_has_edge G Hwf u v (Hincl _ He))).
    + cbn [at_world w_G]. rewrite Hedges. unfold len. rewrite Hleft, Hlen.
      unfold len in Hrange. lia.
Qed.

(** X22: the experiment completes for rates up to 100. For an even [k] with
    [2 <= k < 2^17], [1 <= N_RUNS < 2^1000], [N_SAMPLES >= 0] and a list of
    rates none of which is above 100 (or NaN), [run_experiment_cycle]
    returns its results, one average and one reachability per rate. *)
Theorem run_experiment_cycle_up_to_100 (k : Z) (fail_rates : list float)
    (N_RUNS N_SAMPLES : Z) (w : world) :
  Z.even k = true -> 2 <= k -> k < 2 ^ 17 ->
  1 <= N_RUNS < 2 ^ 1000 -> 0 <= N_SAMPLES ->
  Forall (fun rate => (rate <=? 100)%float = true) fail_rates ->
  exists res w',
    run_experiment_cycle k fail_rates N_RUNS N_SAMPLES w = (Ok res, w')
    /\ fail_rate res = fail_rates
    /\ len (avg_path res) = len fail_rates
    /\ len (reachability res) = len fail_rates.
Proof.
  intros Hev Hk2 Hk HN HS Hrates.
  destruct (fat_tree_links_small k Hk2 Hk) as [Hlinks Hk300].
  assert (Hfit : Forall (rate_fits k) fail_rates).
  { apply Forall_impl with (2 := Hrates). intros rate H100.
    unfold rate_fits. destruct (rate <=? 0)%float eqn:Hr; [now left|right].
    now apply num_to_fail_fits. }
  destruct (fixed_host_pairs_hosts k N_SAMPLES w Hev Hk2 HS)
    as (pairs & w1 & Hp & Hhosts).
  destruct (rates_loop_returns k N_RUNS pairs fail_rates Hev Hk2 Hk300 HN
              Hhosts Hfit
              {| fail_rate := []; avg_path := []; reachability := [] |} w1)
    as (res & w' & Hloop).
  exists res, w'. split.
  - unfold run_experiment_cycle. unfold bindM at 1. now rewrite Hp.
  - apply rates_loop_shape in Hloop. exact Hloop.
Qed.

End UpTo100.

Lemma model_link_failures_up_to_100_witness :
  exists L w',
    @model_link_failures lcg_source 100 (@at_world lcg_source G4 0)
    = (Ok L, w')
    /\ NoDup L /\ incl L (edges G4)
    /\ g_node (w_G w') = g_node G4
    /\ len (edges (w_G w')) = len (edges G4) - len L.
Proof.
  apply (@model_link_failures_up_to_100 lcg_source G4 0 100).
  - vm_compute. reflexivity.
  - vm_compute. reflexivity.
  - reflexivity.
Defined.

Lemma run_experiment_cycle_up_to_100_witness :
  exists res w',
    @run_experiment_cycle lcg_source 8
      [0%float; 1%float; 2%float; 3%float; 4%float; 5%float; 7%float;
       10%float; 15%float] 100 500 (@at_world lcg_source empty_graph 0)
    = (Ok res, w')
    /\ fail_rate res
       = [0%float; 1%float; 2%float; 3%float; 4%float; 5%float; 7%float;
          10%float; 15%float]
    /\ len (avg_path res)
       = len [0%float; 1%float; 2%float; 3%float; 4%float; 5%float; 7%float;
              10%float; 15%float]
    /\ len (reachability res)
       = len [0%float; 1%float; 2%float; 3%float; 4%float; 5%float; 7%float;
              10%float; 15%float].
Proof.
  apply (@run_experiment_cycle_up_to_100 lcg_source 8
           [0%float; 1%float; 2%float; 3%float; 4%float; 5%float; 7%float;
            10%float; 15%float] 100 500 (@at_world lcg_source empty_graph 0)).
  - reflexivity.
  - lia.
  - reflexivity.
  - split; [lia|reflexivity].
  - lia.
  - repeat constructor.
Defined.
